(** * Nested Set Model of frappe/utils/nestedset.py

    A shallow embedding of the interval-maintenance code of
    [frappe/utils/nestedset.py]: the table of a tree DocType is a list of
    rows in storage order, SQL statements are functions over that list
    (with SQL's treatment of NULL in comparisons and arithmetic), and the
    Python functions run in a state-and-exception monad over the table. *)

From Stdlib Require Import ZArith List String Bool Lia.
From Stdlib Require Import Sorting.Sorted Sorting.Permutation.
Import ListNotations.

Local Open Scope Z_scope.
Local Open Scope string_scope.
Local Open Scope list_scope.

(** ** Data model *)

(** One row of [`tab{doctype}`].  [parent] is the column named by
    [parent_field]; [lft] and [rgt] are nullable integers. *)
Record Row : Type := mkRow {
  name : string;
  parent : option string;
  old_parent : option string;
  lft : option Z;
  rgt : option Z;
  modified : string
}.

(** The table, in the order the store enumerates it when a query has no
    ORDER BY clause. *)
Definition Table : Type := list Row.

(** The in-memory document is a copy of its row. *)
Definition Doc : Type := Row.

Definition set_lft (v : option Z) (r : Row) : Row :=
  mkRow (name r) (parent r) (old_parent r) v (rgt r) (modified r).
Definition set_rgt (v : option Z) (r : Row) : Row :=
  mkRow (name r) (parent r) (old_parent r) (lft r) v (modified r).
Definition set_modified (v : string) (r : Row) : Row :=
  mkRow (name r) (parent r) (old_parent r) (lft r) (rgt r) v.
Definition set_old_parent (v : option string) (r : Row) : Row :=
  mkRow (name r) (parent r) v (lft r) (rgt r) (modified r).

(** The exceptions the module raises or lets escape. *)
Inductive exn : Type :=
| NestedSetRecursionError
| IndexError
| TypeError
| DoesNotExistError
| RecursionError
| Exception.

(** ** SQL expressions over nullable integers

    A comparison with NULL is unknown, and a WHERE clause keeps a row only
    when its condition is true; arithmetic on NULL is NULL. *)
Module Sql.

Definition cmp (op : Z -> Z -> bool) (a b : option Z) : bool :=
  match a, b with
  | Some x, Some y => op x y
  | _, _ => false
  end.

Definition ge := cmp Z.geb.
Definition le := cmp Z.leb.
Definition gt := cmp Z.gtb.
Definition lt := cmp Z.ltb.
Definition eq := cmp Z.eqb.

Definition add (a : option Z) (k : Z) : option Z := option_map (fun x => x + k) a.
Definition sub (a : option Z) (k : Z) : option Z := option_map (fun x => x - k) a.
Definition neg (a : option Z) : option Z := option_map Z.opp a.

(** COALESCE(col, '') on a nullable string column. *)
Definition coalesce_str (a : option string) : string :=
  match a with Some s => s | None => "" end.

(** MAX(col): NULL values are skipped, and the maximum of no value is NULL. *)
Fixpoint max (l : list (option Z)) : option Z :=
  match l with
  | [] => None
  | None :: l' => max l'
  | Some x :: l' =>
      match max l' with
      | Some m => Some (Z.max x m)
      | None => Some x
      end
  end.

(** UPDATE t SET ... WHERE cond: rows keep their place. *)
Definition update (cond : Row -> bool) (f : Row -> Row) (t : Table) : Table :=
  map (fun r => if cond r then f r else r) t.

(** SELECT ... WHERE cond, in storage order. *)
Definition select (cond : Row -> bool) (t : Table) : list Row := filter cond t.

End Sql.

(** ** The monad of the module's functions: a table and exceptions *)

Inductive result (A : Type) : Type :=
| Ok (a : A)
| Raise (e : exn).
Arguments Ok {A} a.
Arguments Raise {A} e.

Definition M (A : Type) : Type := Table -> result A * Table.

Definition ret {A} (a : A) : M A := fun t => (Ok a, t).
Definition raise {A} (e : exn) : M A := fun t => (Raise e, t).
Definition bind {A B} (m : M A) (k : A -> M B) : M B :=
  fun t => match m t with
           | (Ok a, t') => k a t'
           | (Raise e, t') => (Raise e, t')
           end.
Definition query {A} (q : Table -> A) : M A := fun t => (Ok (q t), t).
Definition execute (u : Table -> Table) : M unit := fun t => (Ok tt, u t).

Declare Scope nsm_scope.
Delimit Scope nsm_scope with nsm.
Notation "x <- c1 ;; c2" := (bind c1 (fun x => c2))
  (at level 100, c1 at next level, right associativity) : nsm_scope.
Notation "c1 ;; c2" := (bind c1 (fun _ => c2))
  (at level 100, right associativity) : nsm_scope.
Local Open Scope nsm_scope.

(** ** Python values *)

(** Truth value of a Python int-or-None. *)
Definition truthy (v : option Z) : bool :=
  match v with
  | Some x => negb (x =? 0)%Z
  | None => false
  end.

(** Truth value of a Python str-or-None. *)
Definition truthy_str (v : option string) : bool :=
  match v with
  | Some s => negb (s =? "")%string
  | None => false
  end.

(** [v or ''] on a str-or-None. *)
Definition or_empty (v : option string) : string :=
  match v with
  | Some s => s
  | None => ""
  end.

(** [v or 1] on an int-or-None. *)
Definition or_one (v : option Z) : Z :=
  match v with
  | Some x => if (x =? 0)%Z then 1 else x
  | None => 1
  end.

(** Integer arithmetic on values that may be None raises TypeError. *)
Definition int_of (v : option Z) : M Z :=
  match v with
  | Some x => ret x
  | None => raise TypeError
  end.

(** [rows[0]]: IndexError on an empty result. *)
Definition first_row {A} (rows : list A) : M A :=
  match rows with
  | r :: _ => ret r
  | [] => raise IndexError
  end.

(** The condition [name = %s]. *)
Definition name_is (n : string) (r : Row) : bool := (name r =? n)%string.

(** select lft, rgt from `tab{doctype}` where name = %s *)
Definition select_bounds (n : string) : M (list (option Z * option Z)) :=
  query (fun t => map (fun r => (lft r, rgt r)) (Sql.select (name_is n) t)).

(** ** validate_loop *)

Definition validate_loop (name_ : string) (lft_ rgt_ : option Z) : M unit :=
  names <- query (fun t =>
             map name (Sql.select (fun r => Sql.le (lft r) lft_ && Sql.ge (rgt r) rgt_) t)) ;;
  if existsb (String.eqb name_) names
  then raise NestedSetRecursionError
  else ret tt.

(** ** update_add_node *)

(** Rows selected by [COALESCE(`{parent_field}`, '') = '']. *)
Definition is_root (r : Row) : bool := (Sql.coalesce_str (parent r) =? "")%string.

(** SELECT COALESCE(MAX(rgt), 0) + 1 ... WHERE COALESCE(parent, '') = '' *)
Definition next_root_right (t : Table) : Z :=
  match Sql.max (map rgt (Sql.select is_root t)) with
  | Some m => m + 1
  | None => 0 + 1
  end.

(** The first half of [update_add_node]: the target bound. *)
Definition add_node_target (doc : Doc) (parent_ : string) : M Z :=
  right <- (if negb (parent_ =? "")%string
            then
              rows <- select_bounds parent_ ;;
              lr <- first_row rows ;;
              validate_loop (name doc) (fst lr) (snd lr) ;;
              ret (snd lr)
            else
              r <- query next_root_right ;;
              ret (Some r)) ;;
  ret (or_one right).

(** update all on the right *)
Definition add_node_widen (current_time : string) (right : Z) : M unit :=
  execute (Sql.update (fun r => Sql.ge (rgt r) (Some right))
             (fun r => set_modified current_time (set_rgt (Sql.add (rgt r) 2) r))) ;;
  execute (Sql.update (fun r => Sql.ge (lft r) (Some right))
             (fun r => set_modified current_time (set_lft (Sql.add (lft r) 2) r))).

(** The check before the new node's bounds are written. *)
Definition add_node_guard (right : Z) : M unit :=
  rows <- query (Sql.select (fun r => Sql.eq (lft r) (Some right)
                                      || Sql.eq (rgt r) (Some (right + 1)))) ;;
  match rows with
  | [] => ret tt
  | _ :: _ => raise Exception
  end.

(** update index of new node *)
Definition add_node_assign (current_time : string) (doc : Doc) (right : Z) : M unit :=
  execute (Sql.update (name_is (name doc))
             (fun r => set_modified current_time
                         (set_rgt (Some (right + 1)) (set_lft (Some right) r)))).

Definition update_add_node (current_time : string) (doc : Doc) (parent_ : string) : M Z :=
  right <- add_node_target doc parent_ ;;
  add_node_widen current_time right ;;
  add_node_guard right ;;
  add_node_assign current_time doc right ;;
  ret right.

(** ** update_move_node *)

(** select max(rgt) from `tab{doctype}` *)
Definition max_rgt (t : Table) : option Z := Sql.max (map rgt t).

(** The loop check that opens [update_move_node]. *)
Definition move_node_check (doc : Doc) : M unit :=
  if truthy_str (parent doc)
  then
    rows <- select_bounds (or_empty (parent doc)) ;;
    new_parent <- first_row rows ;;
    validate_loop (name doc) (fst new_parent) (snd new_parent)
  else ret tt.

(** move to dark side *)
Definition move_node_detach (current_time : string) (doc : Doc) : M unit :=
  execute (Sql.update (fun r => Sql.ge (lft r) (lft doc) && Sql.le (rgt r) (rgt doc))
             (fun r => set_modified current_time
                         (set_rgt (Sql.neg (rgt r)) (set_lft (Sql.neg (lft r)) r)))).

(** shift left, and shift left rgts of ancestors whose only rgts must shift *)
Definition move_node_compact (current_time : string) (doc : Doc) (diff : Z) : M unit :=
  execute (Sql.update (fun r => Sql.gt (lft r) (rgt doc))
             (fun r => set_modified current_time
                         (set_rgt (Sql.sub (rgt r) diff) (set_lft (Sql.sub (lft r) diff) r)))) ;;
  execute (Sql.update (fun r => Sql.lt (lft r) (lft doc) && Sql.gt (rgt r) (rgt doc))
             (fun r => set_modified current_time (set_rgt (Sql.sub (rgt r) diff) r))).

(** The branch on the new parent: room is made under it, or the subtree
    goes after the last bound of the table.  Returns [new_diff]. *)
Definition move_node_make_room (current_time : string) (doc : Doc) (diff : Z) : M Z :=
  if truthy_str (parent doc)
  then
    rows <- select_bounds (or_empty (parent doc)) ;;
    new_parent <- first_row rows ;;
    execute (Sql.update (name_is (or_empty (parent doc)))
               (fun r => set_modified current_time (set_rgt (Sql.add (rgt r) diff) r))) ;;
    execute (Sql.update (fun r => Sql.gt (lft r) (snd new_parent))
               (fun r => set_modified current_time
                           (set_rgt (Sql.add (rgt r) diff) (set_lft (Sql.add (lft r) diff) r)))) ;;
    execute (Sql.update (fun r => Sql.lt (lft r) (fst new_parent) && Sql.gt (rgt r) (snd new_parent))
               (fun r => set_modified current_time (set_rgt (Sql.add (rgt r) diff) r))) ;;
    np_rgt <- int_of (snd new_parent) ;;
    doc_lft <- int_of (lft doc) ;;
    ret (np_rgt - doc_lft)
  else
    m <- query max_rgt ;;
    m <- int_of m ;;
    doc_lft <- int_of (lft doc) ;;
    ret (m + 1 - doc_lft).

(** bring back from dark side *)
Definition move_node_reattach (current_time : string) (new_diff : Z) : M unit :=
  execute (Sql.update (fun r => Sql.lt (lft r) (Some 0))
             (fun r => set_modified current_time
                         (set_rgt (Sql.add (Sql.neg (rgt r)) new_diff)
                            (set_lft (Sql.add (Sql.neg (lft r)) new_diff) r)))).

Definition update_move_node (current_time : string) (doc : Doc) : M unit :=
  move_node_check doc ;;
  move_node_detach current_time doc ;;
  doc_rgt <- int_of (rgt doc) ;;
  doc_lft <- int_of (lft doc) ;;
  let diff := doc_rgt - doc_lft + 1 in
  move_node_compact current_time doc diff ;;
  new_diff <- move_node_make_room current_time doc diff ;;
  move_node_reattach current_time new_diff.

(** ** update_nsm *)

(** Modelled from the spec: [frappe.db.set_value] is the record store's
    bulk update restricted to one key; here it writes the old-parent column
    of the rows named [n] and leaves [modified] alone. *)
Definition set_value_old_parent (n : string) (v : string) : M unit :=
  execute (Sql.update (name_is n) (set_old_parent (Some v))).

(** Modelled from the spec: [doc.reload()] refreshes the in-memory document
    from the store, a point read that fails when the key is absent. *)
Definition reload (doc : Doc) : M Doc :=
  rows <- query (Sql.select (name_is (name doc))) ;;
  match rows with
  | r :: _ => ret r
  | [] => raise DoesNotExistError
  end.

(** set old parent, then reload *)
Definition nsm_finish (doc : Doc) : M Doc :=
  let doc' := set_old_parent (parent doc) doc in
  set_value_old_parent (name doc') (or_empty (parent doc)) ;;
  reload doc'.

(** Equality of two str-or-None values. *)
Definition option_string_eqb (a b : option string) : bool :=
  match a, b with
  | Some x, Some y => (x =? y)%string
  | None, None => true
  | _, _ => false
  end.

Definition update_nsm (current_time : string) (doc : Doc) : M Doc :=
  (if negb (truthy (lft doc)) && negb (truthy (rgt doc))
   then update_add_node current_time doc (or_empty (parent doc)) ;; ret tt
   else if negb (option_string_eqb (old_parent doc) (parent doc))
        then update_move_node current_time doc
        else ret tt) ;;
  nsm_finish doc.

(** ** Ordering of query results *)

(** A stable sort: rows that compare equal keep their storage order. *)
Fixpoint insert_by {A} (leb : A -> A -> bool) (x : A) (l : list A) : list A :=
  match l with
  | [] => [x]
  | y :: l' => if leb x y then x :: y :: l' else y :: insert_by leb x l'
  end.

Fixpoint sort_by {A} (leb : A -> A -> bool) (l : list A) : list A :=
  match l with
  | [] => []
  | x :: l' => insert_by leb x (sort_by leb l')
  end.

(** NULL sorts below every integer. *)
Definition null_leb (a b : option Z) : bool :=
  match a, b with
  | None, _ => true
  | Some _, None => false
  | Some x, Some y => (x <=? y)%Z
  end.

(** ORDER BY name ASC *)
Definition name_asc (a b : Row) : bool := String.leb (name a) (name b).

(** ORDER BY lft DESC, the default [order_by] of the tree queries. *)
Definition lft_desc (a b : Row) : bool := null_leb (lft b) (lft a).

(** ** rebuild_tree and rebuild_node *)

(** SELECT name ... WHERE `{parent_field}` = %s *)
Definition children_of (parent_ : string) (t : Table) : list string :=
  map name (Sql.select (fun r => match parent r with
                                 | Some p => (p =? parent_)%string
                                 | None => false
                                 end) t).

(** SELECT name ... WHERE `{parent_field}` = '' or `{parent_field}` IS NULL
    ORDER BY name ASC *)
Definition root_names (t : Table) : list string :=
  map name (sort_by name_asc
              (Sql.select (fun r => match parent r with
                                    | Some p => (p =? "")%string
                                    | None => true
                                    end) t)).

(** [for r in result: right = f(r, right)] *)
Fixpoint for_each (f : string -> Z -> M Z) (result_ : list string) (right : Z) : M Z :=
  match result_ with
  | [] => ret right
  | r :: rest => right' <- f r right ;; for_each f rest right'
  end.

(** [fuel] is the depth of recursion the interpreter allows. *)
Fixpoint rebuild_node (fuel : nat) (current_time : string) (parent_ : string) (left : Z)
  : M Z :=
  match fuel with
  | O => raise RecursionError
  | S fuel' =>
      let right := left + 1 in
      result_ <- query (children_of parent_) ;;
      right <- for_each (rebuild_node fuel' current_time) result_ right ;;
      execute (Sql.update (name_is parent_)
                 (fun r => set_modified current_time
                             (set_rgt (Some right) (set_lft (Some left) r)))) ;;
      ret (right + 1)
  end.

(** The permission check for calls from the client side and the
    auto-commit switch of the connection are outside the table. *)
Definition rebuild_tree (fuel : nat) (current_time : string) : M unit :=
  let right := 1 in
  result_ <- query root_names ;;
  for_each (rebuild_node fuel current_time) result_ right ;;
  ret tt.

(** ** Tree queries *)

(** Modelled from the spec: [frappe.db.get_value(doctype, name, ["lft", "rgt"])]
    is the record store's [readBounds], a point lookup that fails when the
    key is absent. *)
Definition get_value_bounds (n : string) : M (option Z * option Z) :=
  rows <- query (Sql.select (name_is n)) ;;
  match rows with
  | r :: _ => ret (lft r, rgt r)
  | [] => raise DoesNotExistError
  end.

(** [limit_page_length]: no limit when None. *)
Definition limit_rows {A} (limit : option nat) (l : list A) : list A :=
  match limit with
  | Some k => firstn k l
  | None => l
  end.

(** Modelled from the spec: [frappe.db.get_all] and [frappe.db.get_list] are
    the record store's [enumerate(treeId, predicate, orderBy, limit)]; the
    permission checks of [get_list] are outside the interval engine. *)
Definition get_all (filters : Row -> bool) (order_by : Row -> Row -> bool)
  (limit_page_length : option nat) : M (list Row) :=
  query (fun t => limit_rows limit_page_length (sort_by order_by (Sql.select filters t))).

(** [get_list] differs from [get_all] by its permission checks only. *)
Definition get_list (filters : Row -> bool) (order_by : Row -> Row -> bool)
  (limit_page_length : option nat) (ignore_permissions : bool) : M (list Row) :=
  get_all filters order_by limit_page_length.

Definition get_ancestors_of (name_ : string) (order_by : Row -> Row -> bool)
  (limit : option nat) : M (list string) :=
  lr <- get_value_bounds name_ ;;
  rows <- get_all (fun r => Sql.lt (lft r) (fst lr) && Sql.gt (rgt r) (snd lr))
            order_by limit ;;
  ret (map name rows).

Definition get_descendants_of (name_ : string) (order_by : Row -> Row -> bool)
  (limit : option nat) (ignore_permissions : bool) : M (list string) :=
  lr <- get_value_bounds name_ ;;
  rows <- get_list (fun r => Sql.gt (lft r) (fst lr) && Sql.lt (rgt r) (snd lr))
            order_by limit ignore_permissions ;;
  ret (map name rows).

(** ** Example tables *)

(** A placed row whose recorded parent is its parent. *)
Definition row (n : string) (p : string) (l r : Z) : Row :=
  mkRow n (Some p) (Some p) (Some l) (Some r) "t0".

(** A new document, saved but not yet placed. *)
Definition new_row (n : string) (p : string) : Row :=
  mkRow n (Some p) None None None "t0".

(** The fixture of the specification: R(1,10) with children A(2,5), B(6,9)
    and their leaves. *)
Definition fixture : Table :=
  [ row "R" "" 1 10; row "A" "R" 2 5; row "A1" "A" 3 4;
    row "B" "R" 6 9; row "B1" "B" 7 8 ].

(** The keys of a table with their bounds. *)
Definition bounds_of (t : Table) : list (string * option Z * option Z) :=
  map (fun r => (name r, lft r, rgt r)) t.

(** ** Definitions used in the statements and proofs *)

(** The row a point read by key returns: the first one of that name. *)
Definition lookup (n : string) (t : Table) : option Row := find (name_is n) t.

(** The interval stored on a row. *)
Definition bounds (r : Row) : option Z * option Z := (lft r, rgt r).

(** The condition of the loop check: [lft <= lft_ and rgt >= rgt_]. *)
Definition encloses (lft_ rgt_ : option Z) (r : Row) : bool :=
  Sql.le (lft r) lft_ && Sql.ge (rgt r) rgt_.

(** The interval of [a] strictly contains the interval of [d]. *)
Definition contains_strictly (a d : Row) : Prop :=
  exists al ar dl dr,
    lft a = Some al /\ rgt a = Some ar /\ lft d = Some dl /\ rgt d = Some dr /\
    al < dl /\ dr < ar.

(** [descendant t d n]: following parent keys from [d] reaches [n]. *)
Inductive descendant (t : Table) : string -> string -> Prop :=
| descendant_child d n rd :
    lookup d t = Some rd -> parent rd = Some n -> descendant t d n
| descendant_step d m n rd :
    lookup d t = Some rd -> parent rd = Some m -> descendant t m n ->
    descendant t d n.

(** Invariant 1 of the data model: a row lies strictly inside the row its
    parent key names. *)
Definition nested (t : Table) : Prop :=
  forall d rd p rp,
    lookup d t = Some rd -> parent rd = Some p -> lookup p t = Some rp ->
    contains_strictly rp rd.

(** [contains_strictly] as a test. *)
Definition contains_strictly_b (a d : Row) : bool :=
  Sql.lt (lft a) (lft d) && Sql.lt (rgt d) (rgt a).

(** A decision procedure for [nested]. *)
Definition nested_b (t : Table) : bool :=
  forallb (fun rd => match parent rd with
                     | Some p => match lookup p t with
                                 | Some rp => contains_strictly_b rp rd
                                 | None => true
                                 end
                     | None => true
                     end) t.

(** The condition of the guard of [update_add_node]:
    [lft = right or rgt = right + 1]. *)
Definition occupied (right : Z) (r : Row) : bool :=
  Sql.eq (lft r) (Some right) || Sql.eq (rgt r) (Some (right + 1)).

(** What the two widening statements do to one row. *)
Definition widen_row (ct : string) (k : Z) (r : Row) : Row :=
  let r1 := if Sql.ge (rgt r) (Some k)
            then set_modified ct (set_rgt (Sql.add (rgt r) 2) r) else r in
  if Sql.ge (lft r1) (Some k)
  then set_modified ct (set_lft (Sql.add (lft r1) 2) r1) else r1.

(** A bound at or after [k] moves up by 2; any other bound stays. *)
Definition widened (k : Z) (v : option Z) : option Z :=
  if Sql.ge v (Some k) then Sql.add v 2 else v.

(** The insertion once its target is known. *)
Definition place_row (ct : string) (n : string) (k : Z) (r : Row) : Row :=
  let r' := widen_row ct k r in
  if name_is n r'
  then set_modified ct (set_rgt (Some (k + 1)) (set_lft (Some k) r'))
  else r'.

(** The relation between a row before and after the insertion of the node
    named [n] at target [k]. *)
Definition insert_effect (n : string) (k : Z) (r r' : Row) : Prop :=
  name r' = name r /\ parent r' = parent r /\
  (name r = n -> bounds r' = (Some k, Some (k + 1))) /\
  (name r <> n ->
   bounds r' = (widened k (lft r), widened k (rgt r)) /\
   forall l h, lft r = Some l -> rgt r = Some h ->
     (l < k -> h < k -> bounds r' = bounds r) /\
     (l < k -> k <= h -> bounds r' = (Some l, Some (h + 2))) /\
     (k <= l -> k <= h -> bounds r' = (Some (l + 2), Some (h + 2)))).

(** The intervals of [a] and [b] do not meet. *)
Definition disjoint_rows (a b : Row) : Prop :=
  exists al ar bl br,
    lft a = Some al /\ rgt a = Some ar /\ lft b = Some bl /\ rgt b = Some br /\
    (ar < bl \/ br < al).

(** [a] may stand before [b] in a listing by [lft] descending. *)
Definition lft_not_below (a b : Row) : Prop :=
  exists la lb, lft a = Some la /\ lft b = Some lb /\ lb <= la.

(** The filters of the two tree queries. *)
Definition is_ancestor_of (lr : option Z * option Z) (r : Row) : bool :=
  Sql.lt (lft r) (fst lr) && Sql.gt (rgt r) (snd lr).

Definition is_descendant_of (lr : option Z * option Z) (r : Row) : bool :=
  Sql.gt (lft r) (fst lr) && Sql.lt (rgt r) (snd lr).

(** What a tree query answers when [selected] describes the rows it asks
    for: with the default order the names of [rows], which are exactly the
    selected rows of the table, listed by [lft] descending and cut to the
    limit when there is one; with any other order the same rows rearranged. *)
Definition query_answer (q : (Row -> Row -> bool) -> option nat -> M (list string))
  (selected : Row -> Prop) (t : Table) (rows : list Row) : Prop :=
  (exists sel, (forall x, sel x = true <-> selected x) /\
               Permutation rows (filter sel t)) /\
  (forall x, In x rows <-> In x t /\ selected x) /\
  Sorted lft_not_below rows /\
  q lft_desc None t = (Ok (map name rows), t) /\
  (forall k, q lft_desc (Some k) t = (Ok (map name (firstn k rows)), t)) /\
  (forall order_by limit,
     exists rows', Permutation rows' rows /\
                   q order_by limit t = (Ok (map name (limit_rows limit rows')), t)).

(** One row under [UPDATE ... SET f WHERE c]. *)
Definition upd (c : Row -> bool) (f : Row -> Row) (r : Row) : Row :=
  if c r then f r else r.

(** The statements of [update_move_node], row by row. *)
Definition dark_side (ct : string) (doc : Doc) : Row -> Row :=
  upd (fun r => Sql.ge (lft r) (lft doc) && Sql.le (rgt r) (rgt doc))
      (fun r => set_modified ct (set_rgt (Sql.neg (rgt r)) (set_lft (Sql.neg (lft r)) r))).

Definition shift_left (ct : string) (doc : Doc) (diff : Z) (r : Row) : Row :=
  upd (fun r => Sql.lt (lft r) (lft doc) && Sql.gt (rgt r) (rgt doc))
      (fun r => set_modified ct (set_rgt (Sql.sub (rgt r) diff) r))
      (upd (fun r => Sql.gt (lft r) (rgt doc))
           (fun r => set_modified ct
                       (set_rgt (Sql.sub (rgt r) diff) (set_lft (Sql.sub (lft r) diff) r)))
           r).

Definition shift_right (ct : string) (p : string) (np : option Z * option Z) (diff : Z)
  (r : Row) : Row :=
  upd (fun r => Sql.lt (lft r) (fst np) && Sql.gt (rgt r) (snd np))
      (fun r => set_modified ct (set_rgt (Sql.add (rgt r) diff) r))
      (upd (fun r => Sql.gt (lft r) (snd np))
           (fun r => set_modified ct
                       (set_rgt (Sql.add (rgt r) diff) (set_lft (Sql.add (lft r) diff) r)))
           (upd (name_is p)
                (fun r => set_modified ct (set_rgt (Sql.add (rgt r) diff) r))
                r)).

Definition bring_back (ct : string) (new_diff : Z) : Row -> Row :=
  upd (fun r => Sql.lt (lft r) (Some 0))
      (fun r => set_modified ct
                  (set_rgt (Sql.add (Sql.neg (rgt r)) new_diff)
                     (set_lft (Sql.add (Sql.neg (lft r)) new_diff) r))).

(** The bounds of the data model: [0 < left < right]. *)
Definition valid_row (r : Row) : Prop :=
  exists l h, lft r = Some l /\ rgt r = Some h /\ 0 < l < h.

(** Every row of the table has valid bounds. *)
Definition valid_table (t : Table) : Prop := forall r, In r t -> valid_row r.

(** A decision procedure for [valid_table]. *)
Definition valid_table_b (t : Table) : bool :=
  forallb (fun r => Sql.lt (Some 0) (lft r) && Sql.lt (lft r) (rgt r)) t.

(** The rows of the subtree spanned by [(a, b)]. *)
Definition in_subtree (a b : Z) (r : Row) : Prop :=
  exists l h, lft r = Some l /\ rgt r = Some h /\ a <= l /\ h <= b.

(** Case analysis on the integer comparisons of the goal. *)
Ltac zcases :=
  repeat match goal with
    | |- context [(?x >=? ?y)%Z] => destruct (Z.geb_spec x y)
    | |- context [(?x <=? ?y)%Z] => destruct (Z.leb_spec x y)
    | |- context [(?x >? ?y)%Z] => destruct (Z.gtb_spec x y)
    | |- context [(?x <? ?y)%Z] => destruct (Z.ltb_spec x y)
    end; simpl.



(** The part of the table the rebuild reads: keys and parent keys, in
    storage order. *)
Definition Skel : Type := list (string * option string).

(** The keys and parent keys of a table. *)
Definition skel (t : Table) : Skel := map (fun r => (name r, parent r)) t.

(** [children_of] and [root_names] read from the keys and parent keys. *)
Definition sk_children (n : string) (sk : Skel) : list string :=
  map fst (filter (fun x => match snd x with
                            | Some p => (p =? n)%string
                            | None => false
                            end) sk).

Definition sk_roots (sk : Skel) : list string :=
  map fst (sort_by (fun a b => String.leb (fst a) (fst b))
             (filter (fun x => match snd x with
                               | Some p => (p =? "")%string
                               | None => true
                               end) sk)).

(** One UPDATE of [rebuild_node]: the key and the bounds it is given. *)
Definition Write : Type := (string * (Z * Z))%type.

(** The effect of one write on one row, and of a trace on a table. *)
Definition write_row (ct : string) (w : Write) : Row -> Row :=
  upd (name_is (fst w))
      (fun r => set_modified ct (set_rgt (Some (snd (snd w))) (set_lft (Some (fst (snd w))) r))).

Definition apply_writes (ct : string) (ws : list Write) (t : Table) : Table :=
  fold_left (fun t w => map (write_row ct w) t) ws t.

(** The writes of the loop over [ns], and the counter after it. *)
Fixpoint list_writes (f : string -> Z -> option (list Write * Z)) (ns : list string) (c : Z)
  : option (list Write * Z) :=
  match ns with
  | [] => Some ([], c)
  | n :: rest =>
      match f n c with
      | Some (ws, c') =>
          match list_writes f rest c' with
          | Some (ws', c'') => Some (ws ++ ws', c'')
          | None => None
          end
      | None => None
      end
  end.

(** The writes of [rebuild_node] in their order, and the value it returns;
    None when the recursion is deeper than [fuel]. *)
Fixpoint node_writes (fuel : nat) (sk : Skel) (n : string) (left : Z)
  : option (list Write * Z) :=
  match fuel with
  | O => None
  | S fuel' =>
      match list_writes (node_writes fuel' sk) (sk_children n sk) (left + 1) with
      | Some (ws, right_) => Some (ws ++ [(n, (left, right_))], right_ + 1)
      | None => None
      end
  end.

(** The writes of [rebuild_tree]. *)
Definition tree_writes (fuel : nat) (sk : Skel) : option (list Write * Z) :=
  list_writes (node_writes fuel sk) (sk_roots sk) 1.

(** The last bounds written for the key [n]. *)
Fixpoint last_write (n : string) (ws : list Write) : option (Z * Z) :=
  match ws with
  | [] => None
  | w :: ws' =>
      match last_write n ws' with
      | Some lr => Some lr
      | None => if (n =? fst w)%string then Some (snd w) else None
      end
  end.

(** One row after all the writes of a trace. *)
Definition row_after (ct : string) (ws : list Write) (r : Row) : Row :=
  fold_left (fun r w => write_row ct w r) ws r.

(** [f], run on any table whose keys and parent keys are [sk], performs the
    writes [g] computes and returns the counter [g] computes. *)
Definition refines (ct : string) (f : string -> Z -> M Z)
  (g : string -> Z -> option (list Write * Z)) (sk : Skel) : Prop :=
  forall n c t, skel t = sk ->
    match g n c with
    | Some (ws, c') => f n c t = (Ok c', apply_writes ct ws t)
    | None => exists t', f n c t = (Raise RecursionError, t')
    end.

(** The parent key recorded for [x]. *)
Definition sk_parent (sk : Skel) (x : string) : option (option string) :=
  option_map snd (find (fun e => (fst e =? x)%string) sk).

(** [under sk n x]: [x] is [n] or a descendant of [n]. *)
Inductive under (sk : Skel) (n : string) : string -> Prop :=
| under_self : under sk n n
| under_child x p : sk_parent sk x = Some (Some p) -> under sk n p -> under sk n x.

(** [level sk n k]: [n] is [k] steps below a root. *)
Inductive level (sk : Skel) : string -> nat -> Prop :=
| level_root n p :
    sk_parent sk n = Some p -> p = None \/ p = Some "" -> level sk n 0
| level_child n p k :
    sk_parent sk n = Some (Some p) -> p <> "" -> level sk p k -> level sk n (S k).

(** A trace is good for [n] when it writes no key twice and only keys
    under [n]. *)
Definition good_trace (sk : Skel) (n : string) (ws : list Write) : Prop :=
  NoDup (map fst ws) /\ forall w, In w ws -> under sk n (fst w).

(** [euler t n c c']: entered with the counter at [c], the node [n] has
    [lft = c]; its children, in the order the store lists them, are
    numbered one after the other from [c + 1]; [rgt] is the counter after
    the last child, and the node is left with the counter at [rgt + 1]. *)
Inductive euler (t : Table) : string -> Z -> Z -> Prop :=
| euler_node n row l r :
    lookup n t = Some row -> lft row = Some l -> rgt row = Some r ->
    euler_list t (children_of n t) (l + 1) r ->
    euler t n l (r + 1)
with euler_list (t : Table) : list string -> Z -> Z -> Prop :=
| euler_nil c : euler_list t [] c c
| euler_cons n ns c c' c'' :
    euler t n c c' -> euler_list t ns c' c'' -> euler_list t (n :: ns) c c''.

Scheme euler_mut := Minimality for euler Sort Prop
  with euler_list_mut := Minimality for euler_list Sort Prop.

(** The row of [a] ends before the row of [b] begins. *)
Definition before (t : Table) (a b : string) : Prop :=
  exists ra rb ar bl,
    lookup a t = Some ra /\ lookup b t = Some rb /\
    rgt ra = Some ar /\ lft rb = Some bl /\ ar < bl.

(** The table holds the bounds of every write of the trace. *)
Definition agrees (t : Table) (ws : list Write) : Prop :=
  forall n l r, In (n, (l, r)) ws ->
    exists row, lookup n t = Some row /\ lft row = Some l /\ rgt row = Some r.

(** Two roots, one with children stored out of key order. *)
Definition forest_fixture : Table :=
  [ row "R" "" 0 0; row "b" "R" 0 0; row "a" "R" 0 0; row "Q" "" 0 0 ].

(** The bounds of a row outside a moved subtree [(a, b)] once the gap is
    closed: a row after the subtree shifts left as a whole, a row around it
    loses the subtree's width on the right, any other row stays. *)
Definition closed_gap (a b l h : Z) : Z * Z :=
  if (l >? b)%Z then (l - (b - a + 1), h - (b - a + 1))
  else if (l <? a)%Z && (h >? b)%Z then (l, h - (b - a + 1))
  else (l, h).

(** ** get_root_of and NestedSet.get_ancestors *)

(** The rows of non-empty width that no row strictly contains; only the
    first one is returned. *)
Definition get_root_of : M (option string) :=
  result_ <- query (fun t =>
               map name
                 (Sql.select
                    (fun t1 =>
                       (List.length
                          (Sql.select (fun t2 => Sql.lt (lft t2) (lft t1)
                                                 && Sql.gt (rgt t2) (rgt t1)) t)
                        =? 0)%nat
                       && Sql.gt (rgt t1) (lft t1)) t)) ;;
  ret (match result_ with
       | n :: _ => Some n
       | [] => None
       end).

Definition get_ancestors (doc : Doc) : M (list string) :=
  get_ancestors_of (name doc) lft_desc None.

(** ** The shape of the writes of a rebuild *)

(** Every write of the trace has [c <= lft < rgt < c']. *)
Definition in_range (c c' : Z) (ws : list Write) : Prop :=
  forall x l r, In (x, (l, r)) ws -> c <= l /\ l < r /\ r < c'.

(** A write whose interval strictly contains that of another is for a key
    above the other's. *)
Definition contained_is_under (sk : Skel) (ws : list Write) : Prop :=
  forall x l r y l' r',
    In (x, (l, r)) ws -> In (y, (l', r')) ws -> l' < l -> r < r' -> under sk y x.

(** Every child of a written key is written strictly inside it. *)
Definition children_inside (sk : Skel) (ws : list Write) : Prop :=
  forall p l r, In (p, (l, r)) ws ->
    forall c, In c (sk_children p sk) ->
      exists l' r', In (c, (l', r')) ws /\ l < l' /\ r' < r.

Definition trace_ok (sk : Skel) (c c' : Z) (ws : list Write) : Prop :=
  in_range c c' ws /\ contained_is_under sk ws /\ children_inside sk ws.

(** ** The NestedSet document class

    [validate_if_child_exists], [after_rename] and [get_ancestors] are
    modelled for a class whose [nsm_parent_field] names the [parent] column,
    as [update_nsm] is; [on_trash] resolves the field itself. *)

(** What a method of the class can raise: the two errors it throws itself,
    or whatever escapes from the functions above. *)
Inductive class_exn : Type :=
| ValidationError
| NestedSetChildExistsError
| Engine (e : exn).

Inductive outcome (A : Type) : Type :=
| Done (a : A)
| Thrown (e : class_exn).
Arguments Done {A} a.
Arguments Thrown {A} e.

Definition set_parent (v : option string) (r : Row) : Row :=
  mkRow (name r) v (old_parent r) (lft r) (rgt r) (modified r).

(** select count(name) ... where `{nsm_parent_field}` = %s *)
Definition validate_if_child_exists (doc : Doc) (t : Table) : outcome unit * Table :=
  let has_children := List.length (children_of (name doc) t) in
  if (0 <? has_children)%nat
  then (Thrown NestedSetChildExistsError, t)
  else (Done tt, t).

(** What [on_trash] reads of the document class: [scrubbed_doctype] is
    [frappe.scrub(self.doctype)], [nsm_parent_field] the class attribute
    (None when it is missing or None), [parent_column] the name of the field
    whose value a row holds as [parent], and [other_field] what [self.get]
    gives for any other field name (None for a field the document does not
    have). *)
Record NestedSet : Type := mkNestedSet {
  scrubbed_doctype : string;
  nsm_parent_field : option string;
  parent_column : string;
  other_field : string -> option string
}.

(** The first statement of [on_trash]: an attribute that is missing or empty
    becomes the scrubbed doctype followed by [_parent]; the result is the
    field the rest of the method works on. *)
Definition trash_parent_field (cls : NestedSet) : string :=
  if negb (truthy_str (nsm_parent_field cls))
  then String.append (scrubbed_doctype cls) "_parent"
  else or_empty (nsm_parent_field cls).

(** The statements of [on_trash] after the root check, for a class whose
    field is the parent column.  [on_rollback] is [self.flags.on_rollback];
    the message log that the handler pops is outside the table. *)
Definition trash_detach (current_time : string) (doc : Doc) (on_rollback : bool)
  (t : Table) : outcome Doc * Table :=
  match validate_if_child_exists doc t with
  | (Thrown e, t1) => (Thrown e, t1)
  | (Done _, t1) =>
      let doc1 := set_parent (Some "") doc in
      match update_nsm current_time doc1 t1 with
      | (Ok d, t2) => (Done d, t2)
      | (Raise DoesNotExistError, t2) =>
          if on_rollback
          then (Done (set_old_parent (parent doc1) doc1), t2)
          else (Thrown (Engine DoesNotExistError), t2)
      | (Raise e, t2) => (Thrown (Engine e), t2)
      end
  end.

(** [on_trash]: the field is resolved, the root check reads it from the
    document, and the node is detached.  When the resolved field is not the
    parent column and the root check passes, the method goes on to query and
    write a column that rows of this model do not hold: None. *)
Definition on_trash (current_time : string) (cls : NestedSet) (doc : Doc)
  (allow_root_deletion on_rollback : bool) (t : Table)
  : option (outcome Doc * Table) :=
  let field := trash_parent_field cls in
  let parent_ := if (field =? parent_column cls)%string
                 then parent doc
                 else other_field cls field in
  if negb (truthy_str parent_) && negb allow_root_deletion
  then Some (Thrown ValidationError, t)
  else if (field =? parent_column cls)%string
       then Some (trash_detach current_time doc on_rollback t)
       else None.

(** update ... set old_parent = %s where {parent_field} = %s, then a rebuild
    when two documents were merged. *)
Definition after_rename (fuel : nat) (current_time : string) (newdn : string)
  (merge : bool) : M unit :=
  execute (Sql.update (fun r => match parent r with
                                | Some p => (p =? newdn)%string
                                | None => false
                                end)
             (set_old_parent (Some newdn))) ;;
  if merge then rebuild_tree fuel current_time else ret tt.

(** ** Definitions used in the statements on saving and trashing *)

(** The nesting invariant on every row but that of [n]: what holds while the
    row of [n] already carries its new parent key and has not been moved. *)
Definition nested_except (n : string) (t : Table) : Prop :=
  forall d rd p rp,
    d <> n -> lookup d t = Some rd -> parent rd = Some p -> lookup p t = Some rp ->
    contains_strictly rp rd.

(** A decision procedure for [nested_except]. *)
Definition nested_except_b (n : string) (t : Table) : bool :=
  forallb (fun rd => (name rd =? n)%string ||
                     match parent rd with
                     | Some p => match lookup p t with
                                 | Some rp => contains_strictly_b rp rd
                                 | None => true
                                 end
                     | None => true
                     end) t.

(** A row without a parent: its parent key is NULL or the empty string. *)
Definition no_parent (r : Row) : Prop := parent r = None \/ parent r = Some "".

(** A bound that is unset or empty: None or 0. *)
Definition unset (v : option Z) : Prop := v = None \/ v = Some 0.



(** The class declares the parent column as its [nsm_parent_field]. *)
Definition declares_parent_column (cls : NestedSet) : Prop :=
  nsm_parent_field cls = Some (parent_column cls) /\ parent_column cls <> "".

(** A class that declares the field [parent_x] of the example tables. *)
Definition declared_class : NestedSet :=
  mkNestedSet "x" (Some "parent_x") "parent_x" (fun _ => None).

(** A class that leaves [nsm_parent_field] unset. *)
Definition undeclared_class : NestedSet :=
  mkNestedSet "x" None "parent_x" (fun _ => None).

(** * Properties *)

Lemma bind_run {A B} (m : M A) (k : A -> M B) t :
  bind m k t = match m t with
               | (Ok a, t') => k a t'
               | (Raise e, t') => (Raise e, t')
               end.
Proof. reflexivity. Qed.

(** ** Reading the store *)

Lemma select_lookup n t :
  hd_error (Sql.select (name_is n) t) = lookup n t.
Proof.
  unfold Sql.select, lookup.
  induction t as [|r t IH]; simpl; [reflexivity|].
  destruct (name_is n r); [reflexivity | exact IH].
Qed.

Lemma lookup_In n t r : lookup n t = Some r -> In r t /\ name r = n.
Proof.
  unfold lookup. intros H. apply find_some in H. destruct H as [Hin Hn].
  split; [exact Hin|]. unfold name_is in Hn. now apply String.eqb_eq.
Qed.

Lemma select_bounds_lookup n t r :
  lookup n t = Some r ->
  exists rest, select_bounds n t = (Ok ((lft r, rgt r) :: rest), t).
Proof.
  intros H. unfold select_bounds, query.
  rewrite <- select_lookup in H.
  destruct (Sql.select (name_is n) t) as [|r0 rest]; simpl in H; [discriminate|].
  injection H as ->. exists (map (fun r => (lft r, rgt r)) rest). reflexivity.
Qed.

Lemma select_bounds_missing n t :
  lookup n t = None -> select_bounds n t = (Ok [], t).
Proof.
  intros H. unfold select_bounds, query.
  rewrite <- select_lookup in H.
  destruct (Sql.select (name_is n) t); simpl in H; [reflexivity | discriminate].
Qed.

(** ** validate_loop *)

Lemma validate_loop_run nm l r t :
  validate_loop nm l r t =
  if existsb (fun x => name_is nm x && encloses l r x) t
  then (Raise NestedSetRecursionError, t)
  else (Ok tt, t).
Proof.
  unfold validate_loop, bind, query, Sql.select. fold (encloses l r).
  assert (E : existsb (String.eqb nm) (map name (filter (encloses l r) t))
              = existsb (fun x => name_is nm x && encloses l r x) t).
  { induction t as [|x t IH]; simpl; [reflexivity|].
    unfold name_is at 1.
    destruct (encloses l r x); simpl; rewrite IH.
    - now rewrite andb_true_r, (String.eqb_sym nm (name x)).
    - now rewrite andb_false_r. }
  rewrite E. now destruct (existsb _ t).
Qed.

Lemma validate_loop_raises nm l r t x :
  In x t -> name x = nm -> encloses l r x = true ->
  validate_loop nm l r t = (Raise NestedSetRecursionError, t).
Proof.
  intros Hin Hn He. rewrite validate_loop_run.
  assert (E : existsb (fun x => name_is nm x && encloses l r x) t = true).
  { apply existsb_exists. exists x. split; [exact Hin|].
    unfold name_is. rewrite Hn, String.eqb_refl, He. reflexivity. }
  now rewrite E.
Qed.

Lemma validate_loop_state nm l r t : snd (validate_loop nm l r t) = t.
Proof. rewrite validate_loop_run. now destruct (existsb _ t). Qed.

Lemma encloses_self x l r :
  lft x = Some l -> rgt x = Some r -> encloses (lft x) (rgt x) x = true.
Proof.
  intros Hl Hr. unfold encloses, Sql.le, Sql.ge, Sql.cmp. rewrite Hl, Hr.
  apply andb_true_intro. split; [apply Z.leb_refl | apply Z.geb_le; lia].
Qed.

Lemma truthy_str_nonempty p : p <> "" -> truthy_str (Some p) = true.
Proof.
  intros H. simpl. destruct (String.eqb_spec p ""); [contradiction | reflexivity].
Qed.

Lemma move_node_check_run doc t p rp :
  parent doc = Some p -> p <> "" -> lookup p t = Some rp ->
  move_node_check doc t = validate_loop (name doc) (lft rp) (rgt rp) t.
Proof.
  intros Hp Hne Hl. unfold move_node_check.
  rewrite Hp, (truthy_str_nonempty _ Hne). simpl or_empty.
  unfold bind. destruct (select_bounds_lookup _ _ _ Hl) as [rest ->]. simpl.
  now destruct (validate_loop _ _ _ t) as [[[]|e] t'].
Qed.

Lemma add_node_target_run doc t p rp :
  p <> "" -> lookup p t = Some rp ->
  add_node_target doc p t =
  match validate_loop (name doc) (lft rp) (rgt rp) t with
  | (Ok _, t') => (Ok (or_one (rgt rp)), t')
  | (Raise e, t') => (Raise e, t')
  end.
Proof.
  intros Hne Hl. unfold add_node_target.
  destruct (String.eqb_spec p ""); [contradiction|]. simpl negb. cbv iota.
  unfold bind. destruct (select_bounds_lookup _ _ _ Hl) as [rest ->]. simpl.
  now destruct (validate_loop _ _ _ t) as [[[]|e] t'].
Qed.

(** The parts of a move after the loop check raise nothing but TypeError. *)
Lemma move_node_check_state doc t : snd (move_node_check doc t) = t.
Proof.
  unfold move_node_check. destruct (truthy_str (parent doc)); [|reflexivity].
  unfold bind, select_bounds, query.
  destruct (map _ (Sql.select _ t)) as [|lr rest]; simpl; [reflexivity|].
  apply validate_loop_state.
Qed.

Lemma update_move_node_recursion_error_state ct doc t :
  fst (update_move_node ct doc t) = Raise NestedSetRecursionError ->
  snd (update_move_node ct doc t) = t.
Proof.
  unfold update_move_node. rewrite bind_run.
  pose proof (move_node_check_state doc t) as Hs.
  destruct (move_node_check doc t) as [[[]|e] t0]; simpl in Hs; subst t0;
    [|reflexivity].
  cbv beta delta [bind move_node_detach move_node_compact move_node_make_room
    move_node_reattach execute int_of select_bounds query first_row ret raise].
  destruct (rgt doc), (lft doc); simpl; try discriminate;
    destruct (truthy_str (parent doc)); simpl; try discriminate.
  - match goal with |- context [map ?f (Sql.select ?c ?u)] =>
      destruct (map f (Sql.select c u)) as [|[l [r|]] rest] end;
      simpl; discriminate.
  - match goal with |- context [max_rgt ?u] => destruct (max_rgt u) end;
      simpl; discriminate.
Qed.

Lemma add_node_target_state doc p t : snd (add_node_target doc p t) = t.
Proof.
  unfold add_node_target, bind, select_bounds, query, first_row, ret, raise.
  destruct (negb (p =? "")%string); [|reflexivity].
  destruct (map _ (Sql.select _ t)) as [|lr rest]; simpl; [reflexivity|].
  pose proof (validate_loop_state (name doc) (fst lr) (snd lr) t) as Hs.
  destruct (validate_loop _ _ _ t) as [[[]|e] t0]; simpl in *; now subst.
Qed.

Lemma update_add_node_recursion_error_state ct doc p t :
  fst (update_add_node ct doc p t) = Raise NestedSetRecursionError ->
  snd (update_add_node ct doc p t) = t.
Proof.
  unfold update_add_node. rewrite bind_run.
  pose proof (add_node_target_state doc p t) as Hs.
  destruct (add_node_target doc p t) as [[right|e] t0]; simpl in Hs; subst t0;
    [|reflexivity].
  cbv beta delta [bind add_node_widen add_node_guard add_node_assign execute query
    ret raise]. simpl.
  match goal with |- context [Sql.select ?c ?u] => destruct (Sql.select c u) end;
    simpl; discriminate.
Qed.

(** ** Descendants in the parent-key graph *)

Lemma contains_strictly_trans a b c :
  contains_strictly a b -> contains_strictly b c -> contains_strictly a c.
Proof.
  intros (al & ar & bl & br & Hal & Har & Hbl & Hbr & H1 & H2)
         (bl' & br' & cl & cr & Hbl' & Hbr' & Hcl & Hcr & H3 & H4).
  rewrite Hbl in Hbl'. rewrite Hbr in Hbr'.
  injection Hbl' as <-. injection Hbr' as <-.
  exists al, ar, cl, cr. repeat split; try assumption; lia.
Qed.

Lemma descendant_lookup t d n : descendant t d n -> exists rd, lookup d t = Some rd.
Proof. intros H. destruct H; eauto. Qed.

Lemma descendant_contained t d n rn :
  nested t -> descendant t d n -> lookup n t = Some rn ->
  exists rd, lookup d t = Some rd /\ contains_strictly rn rd.
Proof.
  intros Hnest Hd. revert rn.
  induction Hd as [d n rd Hl Hp | d m n rd Hl Hp Hd IH]; intros rn Hn.
  - exists rd. split; [exact Hl|]. exact (Hnest d rd n rn Hl Hp Hn).
  - destruct (descendant_lookup _ _ _ Hd) as [rm Hm].
    destruct (IH rn Hn) as (rm' & Hm' & Hc).
    rewrite Hm in Hm'. injection Hm' as <-.
    exists rd. split; [exact Hl|].
    eapply contains_strictly_trans; [exact Hc|].
    exact (Hnest d rd m rm Hl Hp Hm).
Qed.

Lemma contains_strictly_encloses a d :
  contains_strictly a d -> encloses (lft d) (rgt d) a = true.
Proof.
  intros (al & ar & dl & dr & Hal & Har & Hdl & Hdr & H1 & H2).
  unfold encloses, Sql.le, Sql.ge, Sql.cmp. rewrite Hal, Har, Hdl, Hdr.
  apply andb_true_intro. split; [apply Z.leb_le | apply Z.geb_le]; lia.
Qed.

(** Both operations raise at the loop check when the node's row encloses
    the bounds of the parent's row. *)
Lemma loop_check_raises ct (doc : Doc) t p rn rp :
  lookup (name doc) t = Some rn ->
  lookup p t = Some rp ->
  p <> "" ->
  encloses (lft rp) (rgt rp) rn = true ->
  (parent doc = Some p ->
   update_move_node ct doc t = (Raise NestedSetRecursionError, t)) /\
  update_add_node ct doc p t = (Raise NestedSetRecursionError, t).
Proof.
  intros Hn Hp Hne He.
  destruct (lookup_In _ _ _ Hn) as [Hin Hname].
  pose proof (validate_loop_raises (name doc) (lft rp) (rgt rp) t rn Hin Hname He) as Hv.
  split.
  - intros Hpar. unfold update_move_node. rewrite bind_run.
    rewrite (move_node_check_run doc t p rp Hpar Hne Hp), Hv. reflexivity.
  - unfold update_add_node. rewrite bind_run.
    rewrite (add_node_target_run doc t p rp Hne Hp), Hv. reflexivity.
Qed.

(** Following parent keys from [d] to [n], in a table nested apart from the
    row of [n], [d] is [n] or its row lies strictly inside that of [n]. *)
Lemma descendant_inside_except t n rn d :
  nested_except n t -> lookup n t = Some rn -> descendant t d n ->
  d = n \/ exists rd, lookup d t = Some rd /\ contains_strictly rn rd.
Proof.
  intros Hnest Hn Hd. revert rn Hn Hnest.
  induction Hd as [d n rd Hl Hp | d m n rd Hl Hp Hd IH]; intros rn Hn Hnest.
  - destruct (string_dec d n) as [E|E]; [now left|]. right.
    exists rd. split; [exact Hl|]. exact (Hnest d rd n rn E Hl Hp Hn).
  - destruct (string_dec d n) as [E|E]; [now left|]. right.
    exists rd. split; [exact Hl|].
    destruct (IH rn Hn Hnest) as [Em | (rm & Hm & Hc)].
    + subst m. exact (Hnest d rd n rn E Hl Hp Hn).
    + eapply contains_strictly_trans; [exact Hc|].
      exact (Hnest d rd m rm E Hl Hp Hm).
Qed.

(** C3. Loop rejection: a node cannot be moved or inserted under one of its
    descendants; both operations raise NestedSetRecursionError and the table
    is as it was.  The descendant is given by its interval, which lies
    strictly inside the node's, or by the parent keys that lead from it to
    the node, in a table where the node has bounds and every row but the
    node's own (which may already carry the new parent key) lies strictly
    inside its parent's row.  Whenever either operation raises that error
    no row has been written. *)
Theorem loop_rejection ct (doc : Doc) t p rn :
  lookup (name doc) t = Some rn ->
  p <> "" ->
  (forall rp, lookup p t = Some rp -> contains_strictly rn rp ->
     (parent doc = Some p ->
      update_move_node ct doc t = (Raise NestedSetRecursionError, t)) /\
     update_add_node ct doc p t = (Raise NestedSetRecursionError, t)) /\
  (forall l r, lft rn = Some l -> rgt rn = Some r ->
     nested_except (name doc) t -> descendant t p (name doc) ->
     (parent doc = Some p ->
      update_move_node ct doc t = (Raise NestedSetRecursionError, t)) /\
     update_add_node ct doc p t = (Raise NestedSetRecursionError, t)) /\
  (forall ct' doc' t',
     fst (update_move_node ct' doc' t') = Raise NestedSetRecursionError ->
     snd (update_move_node ct' doc' t') = t') /\
  (forall ct' doc' p' t',
     fst (update_add_node ct' doc' p' t') = Raise NestedSetRecursionError ->
     snd (update_add_node ct' doc' p' t') = t').
Proof.
  intros Hn Hne. split; [|split; [|split]].
  - intros rp Hp Hc.
    exact (loop_check_raises ct doc t p rn rp Hn Hp Hne
             (contains_strictly_encloses _ _ Hc)).
  - intros l r Hl Hr Hnest Hd.
    destruct (descendant_inside_except t (name doc) rn p Hnest Hn Hd)
      as [E | (rp & Hp & Hc)].
    + rewrite E in Hne |- *. 
      exact (loop_check_raises ct doc t (name doc) rn rn Hn Hn Hne
               (encloses_self rn l r Hl Hr)).
    + exact (loop_check_raises ct doc t p rn rp Hn Hp Hne
               (contains_strictly_encloses _ _ Hc)).
  - apply update_move_node_recursion_error_state.
  - apply update_add_node_recursion_error_state.
Qed.

Lemma contains_strictly_b_sound a d :
  contains_strictly_b a d = true -> contains_strictly a d.
Proof.
  unfold contains_strictly_b, contains_strictly, Sql.lt, Sql.cmp.
  destruct (lft a) as [al|], (lft d) as [dl|], (rgt d) as [dr|], (rgt a) as [ar|];
    simpl; try discriminate; try (rewrite andb_false_r; discriminate).
  intros H. apply andb_prop in H. destruct H as [H1 H2].
  exists al, ar, dl, dr. repeat split; now apply Z.ltb_lt.
Qed.

Lemma nested_b_sound t : nested_b t = true -> nested t.
Proof.
  intros H d rd p rp Hd Hp Hrp.
  destruct (lookup_In _ _ _ Hd) as [Hin _].
  unfold nested_b in H. rewrite forallb_forall in H.
  specialize (H rd Hin). rewrite Hp, Hrp in H.
  now apply contains_strictly_b_sound.
Qed.

Lemma nested_except_b_sound n t : nested_except_b n t = true -> nested_except n t.
Proof.
  intros H d rd p rp Hne Hd Hp Hrp.
  destruct (lookup_In _ _ _ Hd) as [Hin Hname].
  unfold nested_except_b in H. rewrite forallb_forall in H.
  specialize (H rd Hin). rewrite Hp, Hrp, Hname in H.
  apply String.eqb_neq in Hne. rewrite Hne in H.
  now apply contains_strictly_b_sound.
Qed.

(** The node A has been saved with its child A1 as parent: its row carries
    the new parent key, and the move is refused. *)
Lemma loop_rejection_witness :
  let doc := mkRow "A" (Some "A1") (Some "R") (Some 2) (Some 5) "t0" in
  let t := [row "R" "" 1 10; doc; row "A1" "A" 3 4; row "B" "R" 6 9; row "B1" "B" 7 8] in
  nested_except "A" t /\ descendant t "A1" "A" /\
  update_move_node "t1" doc t = (Raise NestedSetRecursionError, t) /\
  update_add_node "t1" doc "A1" t = (Raise NestedSetRecursionError, t).
Proof.
  intros doc t.
  assert (Hn : nested_except "A" t) by (apply nested_except_b_sound; reflexivity).
  assert (Hd : descendant t "A1" "A")
    by (apply (descendant_child t "A1" "A" (row "A1" "A" 3 4)); reflexivity).
  assert (Hne : "A1" <> "") by discriminate.
  destruct (loop_rejection "t1" doc t "A1" doc eq_refl Hne) as (_ & Hkeys & _).
  destruct (Hkeys 2 5 eq_refl eq_refl Hn Hd) as [Hmove Hadd].
  split; [exact Hn | split; [exact Hd | split; [exact (Hmove eq_refl) | exact Hadd]]].
Defined.

(** C10. Self-parenting: a node whose row has bounds cannot be given its own
    key as parent; the loop check selects the rows that enclose the parent's
    bounds without strictness, the node's own row among them, although the
    node does not strictly contain itself. *)
Theorem self_parent_rejected ct (doc : Doc) t rn l r :
  lookup (name doc) t = Some rn ->
  lft rn = Some l ->
  rgt rn = Some r ->
  name doc <> "" ->
  (parent doc = Some (name doc) ->
   update_move_node ct doc t = (Raise NestedSetRecursionError, t)) /\
  update_add_node ct doc (name doc) t = (Raise NestedSetRecursionError, t) /\
  encloses (lft rn) (rgt rn) rn = true /\
  ~ contains_strictly rn rn.
Proof.
  intros Hn Hl Hr Hne.
  destruct (lookup_In _ _ _ Hn) as [Hin Hname].
  pose proof (encloses_self rn l r Hl Hr) as He.
  pose proof (validate_loop_raises (name doc) (lft rn) (rgt rn) t rn Hin Hname He) as Hv.
  repeat split.
  - intros Hpar. unfold update_move_node. rewrite bind_run.
    rewrite (move_node_check_run doc t (name doc) rn Hpar Hne Hn), Hv. reflexivity.
  - unfold update_add_node. rewrite bind_run.
    rewrite (add_node_target_run doc t (name doc) rn Hne Hn), Hv. reflexivity.
  - exact He.
  - intros (al & ar & dl & dr & Hal & Har & Hdl & Hdr & H1 & H2).
    rewrite Hal in Hdl. injection Hdl as <-. lia.
Qed.

Lemma self_parent_rejected_witness :
  let doc := mkRow "A" (Some "A") (Some "R") (Some 2) (Some 5) "t0" in
  lookup "A" fixture = Some (row "A" "R" 2 5) /\
  update_move_node "t1" doc fixture = (Raise NestedSetRecursionError, fixture) /\
  update_add_node "t1" doc "A" fixture = (Raise NestedSetRecursionError, fixture).
Proof.
  intros doc.
  assert (Hne : name doc <> "") by discriminate.
  destruct (self_parent_rejected "t1" doc fixture (row "A" "R" 2 5) 2 5
              eq_refl eq_refl eq_refl Hne) as (Hmove & Hadd & _).
  split; [reflexivity | split; [exact (Hmove eq_refl) | exact Hadd]].
Defined.

(** ** The occupancy guard of update_add_node *)

Lemma existsb_filter {A} (f : A -> bool) (l : list A) :
  existsb f l = match filter f l with [] => false | _ :: _ => true end.
Proof.
  induction l as [|x l IH]; simpl; [reflexivity|].
  destruct (f x); simpl; [reflexivity | exact IH].
Qed.

Lemma add_node_guard_run right t :
  add_node_guard right t =
  if existsb (occupied right) t then (Raise Exception, t) else (Ok tt, t).
Proof.
  unfold add_node_guard, bind, query, Sql.select. fold (occupied right).
  rewrite (existsb_filter (occupied right) t).
  now destruct (filter (occupied right) t).
Qed.

(** C6. At the guard of an insertion, a row that occupies exactly
    [(right, right + 1)] makes the rest of the operation raise without
    writing anything; the new node's bounds are written only when no row
    occupies that interval; and [update_add_node] is the target computation
    and the widening followed by this guarded assignment. *)
Theorem guard_blocks_assignment ct (doc : Doc) right t :
  let guarded := (add_node_guard right ;; add_node_assign ct doc right ;; ret right) in
  let occupant := exists r, In r t /\ lft r = Some right /\ rgt r = Some (right + 1) in
  (occupant -> guarded t = (Raise Exception, t)) /\
  (forall v t', guarded t = (Ok v, t') ->
     ~ occupant /\ v = right /\
     t' = Sql.update (name_is (name doc))
            (fun r => set_modified ct (set_rgt (Some (right + 1)) (set_lft (Some right) r))) t) /\
  (forall p t0,
     (right' <- add_node_target doc p ;; add_node_widen ct right' ;; ret right') t0
       = (Ok right, t) ->
     update_add_node ct doc p t0 = guarded t).
Proof.
  intros guarded occupant. subst guarded.
  assert (Hocc : occupant -> existsb (occupied right) t = true).
  { intros (r & Hin & Hl & Hr). apply existsb_exists. exists r. split; [exact Hin|].
    unfold occupied, Sql.eq, Sql.cmp. rewrite Hl, Hr, !Z.eqb_refl. reflexivity. }
  split; [|split].
  - intros H. rewrite bind_run, add_node_guard_run, (Hocc H). reflexivity.
  - intros v t' H. rewrite bind_run, add_node_guard_run in H.
    destruct (existsb (occupied right) t) eqn:E; [discriminate|].
    unfold bind, add_node_assign, execute, ret in H. injection H as <- <-.
    split; [|split; reflexivity].
    intros Ho. apply Hocc in Ho. congruence.
  - intros p t0 H. unfold update_add_node.
    rewrite bind_run in H. rewrite bind_run.
    destruct (add_node_target doc p t0) as [[right'|e] t1]; [|discriminate].
    rewrite bind_run in H. rewrite (bind_run (add_node_widen ct right')).
    destruct (add_node_widen ct right' t1) as [[[]|e] t2]; [|discriminate].
    unfold ret in H. injection H as -> ->. reflexivity.
Qed.

Example guard_fires :
  (add_node_guard 3 ;; add_node_assign "t1" (new_row "N" "A") 3 ;; ret 3) fixture
  = (Raise Exception, fixture).
Proof. reflexivity. Qed.

(** ** Widening *)

Lemma add_node_widen_run ct k t :
  add_node_widen ct k t = (Ok tt, map (widen_row ct k) t).
Proof.
  unfold add_node_widen, bind, execute, Sql.update. rewrite map_map. reflexivity.
Qed.

Lemma widen_row_fields ct k r :
  name (widen_row ct k r) = name r /\
  parent (widen_row ct k r) = parent r /\
  old_parent (widen_row ct k r) = old_parent r /\
  lft (widen_row ct k r) = widened k (lft r) /\
  rgt (widen_row ct k r) = widened k (rgt r).
Proof.
  unfold widen_row, widened.
  destruct (Sql.ge (rgt r) (Some k)); simpl;
    destruct (Sql.ge (lft r) (Some k)); simpl; repeat split; reflexivity.
Qed.

Lemma widened_cases k v :
  (exists x, v = Some x /\ k <= x /\ widened k v = Some (x + 2)) \/
  (exists x, v = Some x /\ x < k /\ widened k v = Some x) \/
  (v = None /\ widened k v = None).
Proof.
  unfold widened, Sql.ge, Sql.cmp, Sql.add. destruct v as [x|]; simpl.
  - destruct (Z.geb_spec x k).
    + left. exists x. repeat split; try reflexivity; lia.
    + right. left. exists x. repeat split; try reflexivity; lia.
  - right. right. split; reflexivity.
Qed.

(** After the widening no row has [lft = k] or [rgt = k + 1]: inside
    [update_add_node] the guard finds nothing. *)
Lemma widen_row_not_occupied ct k r : occupied k (widen_row ct k r) = false.
Proof.
  destruct (widen_row_fields ct k r) as (_ & _ & _ & Hl & Hr).
  unfold occupied. rewrite Hl, Hr.
  apply orb_false_intro.
  - destruct (widened_cases k (lft r)) as [(x & _ & H & ->)|[(x & _ & H & ->)|[_ ->]]];
      simpl; try reflexivity; apply Z.eqb_neq; lia.
  - destruct (widened_cases k (rgt r)) as [(x & _ & H & ->)|[(x & _ & H & ->)|[_ ->]]];
      simpl; try reflexivity; apply Z.eqb_neq; lia.
Qed.

Lemma guard_passes_after_widening ct k t :
  (add_node_widen ct k ;; add_node_guard k) t = (Ok tt, map (widen_row ct k) t).
Proof.
  rewrite bind_run, add_node_widen_run, add_node_guard_run.
  assert (E : existsb (occupied k) (map (widen_row ct k) t) = false).
  { induction t as [|x t IH]; simpl; [reflexivity|].
    now rewrite widen_row_not_occupied, IH. }
  now rewrite E.
Qed.

Lemma update_add_node_run ct (doc : Doc) p t k t1 :
  add_node_target doc p t = (Ok k, t1) ->
  update_add_node ct doc p t = (Ok k, map (place_row ct (name doc) k) t1).
Proof.
  intros H. unfold update_add_node. rewrite bind_run, H.
  pose proof (guard_passes_after_widening ct k t1) as G.
  rewrite bind_run in G. rewrite bind_run.
  destruct (add_node_widen ct k t1) as [[[]|e] t2]; [|discriminate].
  rewrite bind_run. rewrite G.
  unfold bind, add_node_assign, execute, ret, Sql.update.
  rewrite map_map. reflexivity.
Qed.

Lemma place_row_fields ct n k r :
  name (place_row ct n k r) = name r /\
  parent (place_row ct n k r) = parent r /\
  old_parent (place_row ct n k r) = old_parent r /\
  bounds (place_row ct n k r) =
    if name_is n r then (Some k, Some (k + 1)) else (widened k (lft r), widened k (rgt r)).
Proof.
  destruct (widen_row_fields ct k r) as (Hn & Hp & Ho & Hl & Hr).
  unfold place_row, name_is, bounds. rewrite Hn.
  destruct (name r =? n)%string; simpl; rewrite ?Hn, ?Hp, ?Ho, ?Hl, ?Hr;
    repeat split; reflexivity.
Qed.

Lemma lookup_map n (g : Row -> Row) t :
  (forall r, name (g r) = name r) ->
  lookup n (map g t) = option_map g (lookup n t).
Proof.
  intros Hg. unfold lookup. induction t as [|x t IH]; simpl; [reflexivity|].
  unfold name_is at 1 3. rewrite Hg.
  destruct (name x =? n)%string; [reflexivity | exact IH].
Qed.

Lemma Forall2_map_r {A B} (R : A -> B -> Prop) (g : A -> B) l :
  (forall x, In x l -> R x (g x)) -> Forall2 R l (map g l).
Proof.
  induction l as [|x l IH]; intros H; simpl; constructor.
  - apply H. now left.
  - apply IH. intros y Hy. apply H. now right.
Qed.

(** ** Insertion under a parent *)

Lemma widened_lt k x : x < k -> widened k (Some x) = Some x.
Proof.
  intros H. unfold widened, Sql.ge, Sql.cmp. destruct (Z.geb_spec x k); [lia | reflexivity].
Qed.

Lemma widened_ge k x : k <= x -> widened k (Some x) = Some (x + 2).
Proof.
  intros H. unfold widened, Sql.ge, Sql.cmp. destruct (Z.geb_spec x k); [reflexivity | lia].
Qed.

Lemma place_row_effect ct n k r : insert_effect n k r (place_row ct n k r).
Proof.
  destruct (place_row_fields ct n k r) as (Hn & Hp & _ & Hb).
  unfold insert_effect. split; [exact Hn|]. split; [exact Hp|].
  unfold name_is in Hb. split.
  - intros E. rewrite Hb. apply String.eqb_eq in E. now rewrite E.
  - intros E. apply String.eqb_neq in E. rewrite E in Hb. split; [exact Hb|].
    intros l h Hl Hh. rewrite Hb, Hl, Hh. unfold bounds. rewrite Hl, Hh.
    split; [|split]; intros H1 H2.
    + now rewrite (widened_lt k l H1), (widened_lt k h H2).
    + now rewrite (widened_lt k l H1), (widened_ge k h H2).
    + now rewrite (widened_ge k l H1), (widened_ge k h H2).
Qed.

(** C4 (amended). Inserting a node under an existing parent P whose bounds
    are [(pl, pr)] returns [pr] and gives the node the interval
    [(pr, pr + 1)]; every other row has each bound at or after [pr] raised
    by 2, so P becomes [(pl, pr + 2)]; rows that lie before [pr] keep their
    bounds, and rows that lie at or after [pr] are shifted by 2 as a whole. *)
Theorem insert_under_parent ct (doc : Doc) p t rp pl pr :
  p <> "" ->
  lookup p t = Some rp ->
  lft rp = Some pl ->
  rgt rp = Some pr ->
  pl < pr ->
  pr <> 0 ->
  (forall x, In x t -> name x = name doc -> encloses (Some pl) (Some pr) x = false) ->
  exists t',
    update_add_node ct doc p t = (Ok pr, t') /\
    Forall2 (insert_effect (name doc) pr) t t' /\
    exists rp', lookup p t' = Some rp' /\ lft rp' = Some pl /\ rgt rp' = Some (pr + 2).
Proof.
  intros Hne Hp Hl Hr Hlt Hnz Hloop.
  assert (Ht : add_node_target doc p t = (Ok pr, t)).
  { rewrite (add_node_target_run doc t p rp Hne Hp), validate_loop_run, Hl, Hr.
    destruct (existsb _ t) eqn:E.
    - apply existsb_exists in E. destruct E as (x & Hin & Hx).
      apply andb_prop in Hx. destruct Hx as [Hx1 Hx2].
      apply String.eqb_eq in Hx1. rewrite (Hloop x Hin Hx1) in Hx2. discriminate.
    - simpl. destruct (Z.eqb_spec pr 0); [contradiction | reflexivity]. }
  exists (map (place_row ct (name doc) pr) t).
  split; [exact (update_add_node_run ct doc p t pr t Ht)|].
  split; [apply Forall2_map_r; intros x _; apply place_row_effect|].
  exists (place_row ct (name doc) pr rp).
  destruct (lookup_In _ _ _ Hp) as [Hin Hname].
  assert (Hself : name rp <> name doc).
  { intros E. pose proof (Hloop rp Hin E) as H.
    rewrite <- Hl, <- Hr, (encloses_self rp pl pr Hl Hr) in H. discriminate. }
  split.
  - rewrite lookup_map, Hp; [reflexivity|].
    intros r. apply (place_row_fields ct (name doc) pr r).
  - destruct (place_row_effect ct (name doc) pr rp) as (_ & _ & _ & H).
    destruct (H Hself) as [_ H']. destruct (H' pl pr Hl Hr) as (_ & Hb & _).
    specialize (Hb Hlt (Z.le_refl pr)). unfold bounds in Hb.
    injection Hb as -> ->. split; reflexivity.
Qed.

Lemma insert_under_parent_witness :
  let t := fixture ++ [new_row "C" "B"] in
  lookup "B" t = Some (row "B" "R" 6 9) /\
  exists t',
    update_add_node "t1" (new_row "C" "B") "B" t = (Ok 9, t') /\
    Forall2 (insert_effect "C" 9) t t' /\
    exists rp', lookup "B" t' = Some rp' /\ lft rp' = Some 6 /\ rgt rp' = Some 11.
Proof.
  intros t. split; [reflexivity|].
  apply (insert_under_parent "t1" (new_row "C" "B") "B" t (row "B" "R" 6 9) 6 9);
    try reflexivity; try lia; try discriminate.
  intros x Hin Hx. simpl in Hin.
  repeat (destruct Hin as [<-|Hin]; [try discriminate Hx; reflexivity|]).
  contradiction.
Defined.

(** C4 as first stated fails: a root group after the parent does not keep
    its bounds. *)
Lemma insert_moves_later_root :
  ~ (forall ct (doc : Doc) p t v t' rp q rq,
       update_add_node ct doc p t = (Ok v, t') ->
       lookup p t = Some rp ->
       lookup q t = Some rq ->
       is_root rq = true ->
       disjoint_rows rq rp ->
       option_map bounds (lookup q t') = Some (bounds rq)).
Proof.
  intros H.
  specialize (H "t1" (new_row "N" "R1") "R1"
                [row "R1" "" 1 2; row "R2" "" 3 4; new_row "N" "R1"]
                2 _ (row "R1" "" 1 2) "R2" (row "R2" "" 3 4)
                eq_refl eq_refl eq_refl eq_refl).
  assert (D : disjoint_rows (row "R2" "" 3 4) (row "R1" "" 1 2)).
  { exists 3, 4, 1, 2. repeat split; try reflexivity. right. lia. }
  specialize (H D). discriminate H.
Qed.

(** ** Insertion of a root *)

Lemma sql_max_none l : Sql.max l = None <-> forall v, In v l -> v = None.
Proof.
  induction l as [|[x|] l IH]; simpl.
  - split; [intros _ v [] | reflexivity].
  - split.
    + destruct (Sql.max l); discriminate.
    + intros H. specialize (H (Some x) (or_introl eq_refl)). discriminate.
  - rewrite IH. split.
    + intros H v [<-|Hv]; [reflexivity | now apply H].
    + intros H v Hv. apply H. now right.
Qed.

Lemma sql_max_some l m :
  Sql.max l = Some m ->
  In (Some m) l /\ forall x, In (Some x) l -> x <= m.
Proof.
  revert m. induction l as [|[x|] l IH]; simpl; intros m H.
  - discriminate.
  - destruct (Sql.max l) as [m'|] eqn:E.
    + injection H as <-. destruct (IH m' eq_refl) as [Hin Hle]. split.
      * destruct (Z.max_spec x m') as [[_ ->]|[_ ->]]; [now right | now left].
      * intros y [Hy|Hy]; [injection Hy as <-; lia|].
        specialize (Hle y Hy). lia.
    + injection H as <-. split; [now left|].
      intros y [Hy|Hy]; [injection Hy as <-; lia|].
      rewrite sql_max_none in E. specialize (E _ Hy). discriminate.
  - destruct (IH m H) as [Hin Hle]. split; [now right|].
    intros y [Hy|Hy]; [discriminate | now apply Hle].
Qed.

Lemma add_node_target_root (doc : Doc) t :
  add_node_target doc "" t = (Ok (or_one (Some (next_root_right t))), t).
Proof. reflexivity. Qed.

Lemma is_root_spec r : is_root r = true <-> no_parent r.
Proof.
  unfold is_root, no_parent, Sql.coalesce_str. destruct (parent r) as [q|]; simpl.
  - split.
    + intros H. apply String.eqb_eq in H. subst q. now right.
    + intros [H|H]; [discriminate | injection H as ->; reflexivity].
  - split; [now left | reflexivity].
Qed.

(** MAX sees its argument as a set. *)
Lemma sql_max_ext l l' :
  (forall v, In v l <-> In v l') -> Sql.max l = Sql.max l'.
Proof.
  intros H.
  destruct (Sql.max l) as [m|] eqn:E, (Sql.max l') as [m'|] eqn:E'.
  - destruct (sql_max_some _ _ E) as [Hin Hle].
    destruct (sql_max_some _ _ E') as [Hin' Hle'].
    apply H in Hin. apply H in Hin'.
    specialize (Hle m' Hin'). specialize (Hle' m Hin). f_equal. lia.
  - destruct (sql_max_some _ _ E) as [Hin _]. apply H in Hin.
    rewrite sql_max_none in E'. specialize (E' _ Hin). discriminate.
  - destruct (sql_max_some _ _ E') as [Hin _]. apply H in Hin.
    rewrite sql_max_none in E. specialize (E _ Hin). discriminate.
  - reflexivity.
Qed.

Lemma root_bounds_spec t v :
  In v (map rgt (Sql.select is_root t)) <-> exists r, In r t /\ no_parent r /\ rgt r = v.
Proof.
  rewrite in_map_iff. unfold Sql.select. split.
  - intros (r & Hr & Hin). apply filter_In in Hin. destruct Hin as [Hin Hroot].
    exists r. split; [exact Hin|]. split; [now apply is_root_spec | exact Hr].
  - intros (r & Hin & Hroot & Hr). exists r. split; [exact Hr|].
    apply filter_In. split; [exact Hin | now apply is_root_spec].
Qed.

(** C5 (amended). Inserting a root: the target is computed from the rows
    whose parent key is NULL or empty alone.  It is 1 when none of them has
    a right bound; otherwise, with [m] the largest of their right bounds, it
    is [m + 1], except that a sum of 0 is replaced by 1.  In every case it
    lies above the right bound of every such row. *)
Theorem new_root_target (doc : Doc) t :
  exists target,
    add_node_target doc "" t = (Ok target, t) /\
    ((forall r, In r t -> no_parent r -> rgt r = None) -> target = 1) /\
    (forall r m, In r t -> no_parent r -> rgt r = Some m ->
       (forall r' x, In r' t -> no_parent r' -> rgt r' = Some x -> x <= m) ->
       (m + 1 <> 0 -> target = m + 1) /\ (m + 1 = 0 -> target = 1)) /\
    (forall r x, In r t -> no_parent r -> rgt r = Some x -> x < target) /\
    (forall t', (forall r, no_parent r -> (In r t' <-> In r t)) ->
                add_node_target doc "" t' = (Ok target, t')).
Proof.
  exists (or_one (Some (next_root_right t))).
  split; [apply add_node_target_root|].
  assert (Hmax : forall r m, In r t -> no_parent r -> rgt r = Some m ->
            (forall r' x, In r' t -> no_parent r' -> rgt r' = Some x -> x <= m) ->
            Sql.max (map rgt (Sql.select is_root t)) = Some m).
  { intros r m Hin Hroot Hr Hle.
    destruct (Sql.max (map rgt (Sql.select is_root t))) as [m'|] eqn:E.
    - destruct (sql_max_some _ _ E) as [Hin' Hle'].
      apply root_bounds_spec in Hin'. destruct Hin' as (r' & Hin' & Hroot' & Hr').
      specialize (Hle r' m' Hin' Hroot' Hr').
      assert (Hm : In (Some m) (map rgt (Sql.select is_root t))).
      { apply root_bounds_spec. exists r. auto. }
      specialize (Hle' m Hm). f_equal. lia.
    - rewrite sql_max_none in E.
      assert (Hm : In (Some m) (map rgt (Sql.select is_root t))).
      { apply root_bounds_spec. exists r. auto. }
      specialize (E _ Hm). discriminate. }
  split; [|split; [|split]].
  - intros Hnone. unfold next_root_right.
    assert (E : Sql.max (map rgt (Sql.select is_root t)) = None).
    { apply sql_max_none. intros v Hv. apply root_bounds_spec in Hv.
      destruct Hv as (r & Hin & Hroot & <-). now apply Hnone. }
    rewrite E. reflexivity.
  - intros r m Hin Hroot Hr Hle. unfold next_root_right.
    rewrite (Hmax r m Hin Hroot Hr Hle). simpl.
    destruct (Z.eqb_spec (m + 1) 0) as [E|E]; split; intros H;
      try reflexivity; contradiction.
  - intros r x Hin Hroot Hr. unfold next_root_right.
    destruct (Sql.max (map rgt (Sql.select is_root t))) as [m|] eqn:E.
    + destruct (sql_max_some _ _ E) as [_ Hle].
      assert (Hx : In (Some x) (map rgt (Sql.select is_root t))).
      { apply root_bounds_spec. exists r. auto. }
      specialize (Hle x Hx). simpl.
      destruct (Z.eqb_spec (m + 1) 0); lia.
    + rewrite sql_max_none in E.
      assert (Hx : In (Some x) (map rgt (Sql.select is_root t))).
      { apply root_bounds_spec. exists r. auto. }
      specialize (E _ Hx). discriminate.
  - intros t' Ht'. rewrite add_node_target_root. unfold next_root_right.
    rewrite (sql_max_ext (map rgt (Sql.select is_root t'))
               (map rgt (Sql.select is_root t))); [reflexivity|].
    intros v. rewrite !root_bounds_spec. split.
    + intros (r & Hin & Hroot & Hr). exists r. split; [now apply Ht'|]. auto.
    + intros (r & Hin & Hroot & Hr). exists r. split; [now apply Ht'|]. auto.
Qed.

(** The claim as stated fails when the largest right bound of the rows
    without parent is -1: the sum is 0 and the target is 1. *)
Lemma new_root_target_zero_sum :
  let r0 := mkRow "R" (Some "") (Some "") (Some (-2)) (Some (-1)) "t0" in
  let t := [r0; new_row "N" ""] in
  In r0 t /\ no_parent r0 /\ rgt r0 = Some (-1) /\
  (forall r x, In r t -> no_parent r -> rgt r = Some x -> x <= -1) /\
  add_node_target (new_row "N" "") "" t = (Ok 1, t) /\
  1 <> -1 + 1.
Proof.
  intros r0 t. split; [now left|]. split; [now right|]. split; [reflexivity|].
  split; [|split; [reflexivity | lia]].
  intros r x [<-|[<-|[]]] _ Hx; simpl in Hx; [injection Hx as <-; lia | discriminate].
Qed.

(** Two roots and a child: the target is one more than the right bound of
    the last root. *)
Example new_root_after_roots :
  let t := [row "R1" "" 1 4; row "X" "R1" 2 3; row "R2" "" 5 6; new_row "N" ""] in
  add_node_target (new_row "N" "") "" t = (Ok 7, t).
Proof. reflexivity. Qed.

(** A row that is not a root does not count, whatever its right bound. *)
Example new_root_ignores_children :
  fst (add_node_target (new_row "N" "") ""
         [row "R1" "" 1 4; row "X" "R1" 20 30; new_row "N" ""]) = Ok 5.
Proof. reflexivity. Qed.

(** A right bound of -1 on a root arises from the code itself: a root that
    is saved with an unset parent while its recorded parent is the empty
    string is moved to the root level, and here it spans the table. *)
Example root_right_minus_one_arises :
  bounds_of (snd (update_nsm "t1" (mkRow "R" None (Some "") (Some 3) (Some 6) "t0")
                    [mkRow "R" None (Some "") (Some 3) (Some 6) "t0"; row "X" "R" 4 5]))
  = [("R", Some (-4), Some (-1)); ("X", Some (-3), Some (-2))].
Proof. reflexivity. Qed.

(** ** The dispatch of update_nsm *)


Lemma option_string_eqb_spec a b : option_string_eqb a b = true <-> a = b.
Proof.
  destruct a as [x|], b as [y|]; simpl; split; intros H;
    try discriminate; try reflexivity.
  - apply String.eqb_eq in H. now subst.
  - injection H as ->. apply String.eqb_refl.
Qed.

Lemma nsm_finish_run (doc : Doc) t :
  nsm_finish doc t =
  let t' := Sql.update (name_is (name doc))
              (set_old_parent (Some (or_empty (parent doc)))) t in
  match lookup (name doc) t' with
  | Some r => (Ok r, t')
  | None => (Raise DoesNotExistError, t')
  end.
Proof.
  unfold nsm_finish, set_value_old_parent, reload, bind, execute, query. simpl.
  rewrite <- select_lookup.
  now destruct (Sql.select _ _).
Qed.

Lemma truthy_unset v : truthy v = false <-> unset v.
Proof.
  unfold truthy, unset. destruct v as [x|].
  - destruct (Z.eqb_spec x 0) as [->|E]; simpl; split; intros H.
    + now right.
    + reflexivity.
    + discriminate.
    + destruct H as [H|H]; [discriminate | injection H as ->; contradiction].
  - split; [now left | reflexivity].
Qed.





Example update_nsm_inserts :
  let t := fixture ++ [new_row "C" "B"] in
  option_map bounds (lookup "C" (snd (update_nsm "t1" (new_row "C" "B") t)))
  = Some (Some 9, Some 10)
  /\ fst (update_nsm "t1" (new_row "C" "B") t)
     = Ok (mkRow "C" (Some "B") (Some "B") (Some 9) (Some 10) "t1").
Proof. split; reflexivity. Qed.

Example update_nsm_moves :
  fst (update_nsm "t1" (mkRow "A" (Some "B") (Some "R") (Some 2) (Some 5) "t0")
         (Sql.update (name_is "A")
            (fun r => mkRow "A" (Some "B") (Some "R") (Some 2) (Some 5) "t0") fixture))
  = Ok (mkRow "A" (Some "B") (Some "B") (Some 5) (Some 8) "t1").
Proof. reflexivity. Qed.

Example update_nsm_keeps :
  update_nsm "t1" (row "A" "R" 2 5) fixture = (Ok (row "A" "R" 2 5), fixture).
Proof. reflexivity. Qed.

(** ** Sorting *)

Section Sorting.
Context {A : Type} (leb : A -> A -> bool).
Hypothesis leb_total : forall a b, leb a b = true \/ leb b a = true.

Let R (a b : A) : Prop := leb a b = true.

Lemma insert_by_perm x l : Permutation (insert_by leb x l) (x :: l).
Proof.
  induction l as [|y l IH]; simpl; [apply Permutation_refl|].
  destruct (leb x y); [apply Permutation_refl|].
  eapply perm_trans; [apply perm_skip, IH | apply perm_swap].
Qed.

Lemma sort_by_perm l : Permutation (sort_by leb l) l.
Proof.
  induction l as [|x l IH]; simpl; [constructor|].
  eapply perm_trans; [apply insert_by_perm | now apply perm_skip].
Qed.

Lemma insert_by_hdrel a x l :
  R a x -> HdRel R a l -> HdRel R a (insert_by leb x l).
Proof.
  intros Hax Hl. destruct l as [|y l]; simpl; [now constructor|].
  destruct (leb x y); constructor; [exact Hax|].
  now inversion Hl.
Qed.

Lemma insert_by_sorted x l : Sorted R l -> Sorted R (insert_by leb x l).
Proof.
  induction l as [|y l IH]; intros Hs; simpl.
  - repeat constructor.
  - destruct (leb x y) eqn:E.
    + constructor; [exact Hs | now constructor].
    + inversion Hs as [|? ? Hs' Hhd]; subst. constructor; [now apply IH|].
      apply insert_by_hdrel; [|exact Hhd].
      destruct (leb_total x y) as [H|H]; [congruence | exact H].
Qed.

Lemma sort_by_sorted l : Sorted R (sort_by leb l).
Proof.
  induction l as [|x l IH]; simpl; [constructor | now apply insert_by_sorted].
Qed.
End Sorting.

Lemma Sorted_refine {A} (R R' : A -> A -> Prop) (P : A -> Prop) l :
  (forall a b, P a -> P b -> R a b -> R' a b) ->
  Forall P l -> Sorted R l -> Sorted R' l.
Proof.
  intros HR HP Hs. induction Hs as [|a l Hs IH Hhd]; [constructor|].
  inversion HP as [|? ? Pa Pl]; subst. constructor; [now apply IH|].
  destruct Hhd as [|b l Hab]; constructor.
  inversion Pl; subst. now apply HR.
Qed.

Lemma null_leb_total a b : null_leb a b = true \/ null_leb b a = true.
Proof.
  destruct a as [x|], b as [y|]; simpl; auto.
  destruct (Z.leb_spec x y); [now left|]. right. apply Z.leb_le. lia.
Qed.

Lemma lft_desc_total a b : lft_desc a b = true \/ lft_desc b a = true.
Proof. unfold lft_desc. destruct (null_leb_total (lft a) (lft b)); auto. Qed.

Lemma name_asc_total a b : name_asc a b = true \/ name_asc b a = true.
Proof. apply String.leb_total. Qed.

(** ** Ancestors and descendants *)

Lemma is_ancestor_of_spec rn x :
  is_ancestor_of (bounds rn) x = true <-> contains_strictly x rn.
Proof.
  unfold is_ancestor_of, contains_strictly, bounds, Sql.lt, Sql.gt, Sql.cmp. simpl.
  split.
  - intros H. apply andb_prop in H. destruct H as [H1 H2].
    destruct (lft x) as [xl|], (lft rn) as [l|]; try discriminate.
    destruct (rgt x) as [xr|], (rgt rn) as [r|]; try discriminate.
    exists xl, xr, l, r. apply Z.ltb_lt in H1. apply Z.gtb_lt in H2.
    repeat split; assumption.
  - intros (xl & xr & l & r & -> & -> & -> & -> & H1 & H2).
    apply andb_true_intro. split; [now apply Z.ltb_lt | now apply Z.gtb_lt].
Qed.

Lemma is_descendant_of_spec rn x :
  is_descendant_of (bounds rn) x = true <-> contains_strictly rn x.
Proof.
  unfold is_descendant_of, contains_strictly, bounds, Sql.lt, Sql.gt, Sql.cmp. simpl.
  split.
  - intros H. apply andb_prop in H. destruct H as [H1 H2].
    destruct (lft x) as [xl|], (lft rn) as [l|]; try discriminate.
    destruct (rgt x) as [xr|], (rgt rn) as [r|]; try discriminate.
    exists l, r, xl, xr. apply Z.gtb_lt in H1. apply Z.ltb_lt in H2.
    repeat split; assumption.
  - intros (l & r & xl & xr & -> & -> & -> & -> & H1 & H2).
    apply andb_true_intro. split; [now apply Z.gtb_lt | now apply Z.ltb_lt].
Qed.

Lemma get_value_bounds_run n t rn :
  lookup n t = Some rn -> get_value_bounds n t = (Ok (bounds rn), t).
Proof.
  intros H. unfold get_value_bounds, bind, query. rewrite <- select_lookup in H.
  destruct (Sql.select (name_is n) t); simpl in H; [discriminate|].
  now injection H as ->.
Qed.

Lemma get_ancestors_of_run n order_by limit t rn :
  lookup n t = Some rn ->
  get_ancestors_of n order_by limit t =
  (Ok (map name (limit_rows limit
                   (sort_by order_by (filter (is_ancestor_of (bounds rn)) t)))), t).
Proof.
  intros H. unfold get_ancestors_of. rewrite bind_run, (get_value_bounds_run n t rn H).
  reflexivity.
Qed.

Lemma get_descendants_of_run n order_by limit ip t rn :
  lookup n t = Some rn ->
  get_descendants_of n order_by limit ip t =
  (Ok (map name (limit_rows limit
                   (sort_by order_by (filter (is_descendant_of (bounds rn)) t)))), t).
Proof.
  intros H. unfold get_descendants_of. rewrite bind_run, (get_value_bounds_run n t rn H).
  reflexivity.
Qed.

Lemma sorted_lft_desc (f : Row -> bool) t :
  (forall x, f x = true -> lft x <> None) ->
  Sorted lft_not_below (sort_by lft_desc (filter f t)).
Proof.
  intros Hf.
  apply (Sorted_refine (fun a b => lft_desc a b = true) lft_not_below
           (fun x => lft x <> None)).
  - intros a b Ha Hb H. unfold lft_desc in H. unfold lft_not_below.
    destruct (lft a) as [la|]; [|contradiction].
    destruct (lft b) as [lb|]; [|contradiction].
    exists la, lb. repeat split. now apply Z.leb_le.
  - apply Forall_forall. intros x Hx.
    apply (Permutation_in _ (sort_by_perm lft_desc _)) in Hx.
    apply filter_In in Hx. now apply Hf.
  - apply sort_by_sorted. apply lft_desc_total.
Qed.

Lemma query_answer_intro q (sel : Row -> bool) (selected : Row -> Prop) t :
  (forall x, sel x = true <-> selected x) ->
  (forall x, sel x = true -> lft x <> None) ->
  (forall order_by limit,
     q order_by limit t
     = (Ok (map name (limit_rows limit (sort_by order_by (filter sel t)))), t)) ->
  query_answer q selected t (sort_by lft_desc (filter sel t)).
Proof.
  intros Hsel Hlft Hq. unfold query_answer.
  split; [|split; [|split; [|split; [|split]]]].
  - exists sel. split; [exact Hsel | apply sort_by_perm].
  - intros x. rewrite <- Hsel, <- filter_In. split; intros H.
    + now apply (Permutation_in _ (sort_by_perm lft_desc _)).
    + now apply (Permutation_in _ (Permutation_sym (sort_by_perm lft_desc _))).
  - now apply sorted_lft_desc.
  - apply Hq.
  - intros k. apply Hq.
  - intros order_by limit. exists (sort_by order_by (filter sel t)). split; [|apply Hq].
    eapply perm_trans; [apply sort_by_perm|].
    apply Permutation_sym, sort_by_perm.
Qed.

(** C8. For a node with stored bounds, [get_ancestors_of] answers with the
    rows whose interval strictly contains the node's and
    [get_descendants_of] with the rows whose interval lies strictly inside
    it, each by [lft] descending under the default order and cut to the
    limit when one is given. *)
Theorem tree_queries n t rn l r ignore_permissions :
  lookup n t = Some rn ->
  lft rn = Some l ->
  rgt rn = Some r ->
  exists ancestors descendants,
    query_answer (get_ancestors_of n)
      (fun x => contains_strictly x rn) t ancestors /\
    query_answer (fun order_by limit =>
                    get_descendants_of n order_by limit ignore_permissions)
      (fun x => contains_strictly rn x) t descendants.
Proof.
  intros Hn _ _.
  exists (sort_by lft_desc (filter (is_ancestor_of (bounds rn)) t)),
         (sort_by lft_desc (filter (is_descendant_of (bounds rn)) t)).
  split.
  - apply query_answer_intro.
    + apply is_ancestor_of_spec.
    + intros x Hx. apply is_ancestor_of_spec in Hx.
      destruct Hx as (xl & _ & _ & _ & -> & _). discriminate.
    + intros order_by limit. now apply get_ancestors_of_run.
  - apply query_answer_intro.
    + apply is_descendant_of_spec.
    + intros x Hx. apply is_descendant_of_spec in Hx.
      destruct Hx as (_ & _ & xl & _ & _ & _ & -> & _). discriminate.
    + intros order_by limit. now apply get_descendants_of_run.
Qed.

Lemma tree_queries_witness :
  lookup "A" fixture = Some (row "A" "R" 2 5) /\
  exists ancestors descendants,
    query_answer (get_ancestors_of "A")
      (fun x => contains_strictly x (row "A" "R" 2 5)) fixture ancestors /\
    query_answer (fun order_by limit => get_descendants_of "A" order_by limit false)
      (fun x => contains_strictly (row "A" "R" 2 5) x) fixture descendants.
Proof.
  split; [reflexivity|].
  apply (tree_queries "A" fixture (row "A" "R" 2 5) 2 5 false); reflexivity.
Defined.

Example ancestors_nearest_first :
  get_ancestors_of "B1" lft_desc None fixture = (Ok ["B"; "R"], fixture)
  /\ get_ancestors_of "B1" lft_desc (Some 1%nat) fixture = (Ok ["B"], fixture)
  /\ get_descendants_of "R" lft_desc None false fixture
     = (Ok ["B1"; "B"; "A1"; "A"], fixture).
Proof. repeat split. Qed.

(** ** Moving a subtree *)

Lemma upd_name c f r : (forall x, name (f x) = name x) -> name (upd c f r) = name r.
Proof. intros H. unfold upd. destruct (c r); [apply H | reflexivity]. Qed.

Lemma upd_parent c f r : (forall x, parent (f x) = parent x) -> parent (upd c f r) = parent r.
Proof. intros H. unfold upd. destruct (c r); [apply H | reflexivity]. Qed.

Lemma dark_side_name ct doc r :
  name (dark_side ct doc r) = name r /\ parent (dark_side ct doc r) = parent r.
Proof. split; [apply upd_name | apply upd_parent]; reflexivity. Qed.

Lemma shift_left_name ct doc diff r :
  name (shift_left ct doc diff r) = name r /\
  parent (shift_left ct doc diff r) = parent r.
Proof.
  unfold shift_left. split.
  - rewrite !upd_name; reflexivity.
  - rewrite !upd_parent; reflexivity.
Qed.

Lemma shift_right_name ct p np diff r :
  name (shift_right ct p np diff r) = name r /\
  parent (shift_right ct p np diff r) = parent r.
Proof.
  unfold shift_right. split.
  - rewrite !upd_name; reflexivity.
  - rewrite !upd_parent; reflexivity.
Qed.

Lemma bring_back_name ct nd r :
  name (bring_back ct nd r) = name r /\ parent (bring_back ct nd r) = parent r.
Proof. split; [apply upd_name | apply upd_parent]; reflexivity. Qed.

Lemma move_node_detach_run ct doc t :
  move_node_detach ct doc t = (Ok tt, map (dark_side ct doc) t).
Proof. reflexivity. Qed.

Lemma move_node_compact_run ct doc diff t :
  move_node_compact ct doc diff t = (Ok tt, map (shift_left ct doc diff) t).
Proof.
  unfold move_node_compact, bind, execute, Sql.update. rewrite map_map. reflexivity.
Qed.

Lemma move_node_reattach_run ct nd t :
  move_node_reattach ct nd t = (Ok tt, map (bring_back ct nd) t).
Proof. reflexivity. Qed.

Lemma move_node_make_room_parent ct (doc : Doc) diff t p rp pr a :
  parent doc = Some p -> p <> "" ->
  lookup p t = Some rp -> rgt rp = Some pr -> lft doc = Some a ->
  move_node_make_room ct doc diff t
  = (Ok (pr - a), map (shift_right ct p (bounds rp) diff) t).
Proof.
  intros Hp Hne Hl Hr Ha. unfold move_node_make_room.
  rewrite Hp, (truthy_str_nonempty p Hne). simpl or_empty.
  rewrite bind_run. destruct (select_bounds_lookup _ _ _ Hl) as [rest ->].
  unfold first_row. rewrite bind_run. unfold ret at 1.
  unfold bind, execute, int_of, ret, Sql.update. rewrite !map_map.
  unfold shift_right, upd, bounds. rewrite Hr, Ha. cbn [fst snd]. reflexivity.
Qed.

Lemma move_node_make_room_root ct (doc : Doc) diff t m a :
  truthy_str (parent doc) = false ->
  max_rgt t = Some m -> lft doc = Some a ->
  move_node_make_room ct doc diff t = (Ok (m + 1 - a), t).
Proof.
  intros Hp Hm Ha. unfold move_node_make_room. rewrite Hp.
  unfold bind, query, int_of, ret. rewrite Hm, Ha. reflexivity.
Qed.

Lemma valid_table_b_sound t : valid_table_b t = true -> valid_table t.
Proof.
  intros H r Hin. unfold valid_table_b in H. rewrite forallb_forall in H.
  specialize (H r Hin). unfold valid_row, Sql.lt, Sql.cmp in *.
  destruct (lft r) as [l|]; [|discriminate].
  destruct (rgt r) as [h|]; [|now rewrite andb_false_r in H].
  apply andb_prop in H. destruct H as [H1 H2].
  apply Z.ltb_lt in H1, H2. exists l, h. auto.
Qed.

Lemma dark_side_moved ct (doc : Doc) r a b l h :
  lft doc = Some a -> rgt doc = Some b ->
  lft r = Some l -> rgt r = Some h -> a <= l -> h <= b ->
  bounds (dark_side ct doc r) = (Some (- l), Some (- h)).
Proof.
  intros Ha Hb Hl Hh H1 H2. unfold dark_side, upd, bounds, Sql.ge, Sql.le, Sql.cmp.
  rewrite Ha, Hb, Hl, Hh. zcases; try lia. reflexivity.
Qed.

Lemma dark_side_other ct (doc : Doc) r a b l h :
  lft doc = Some a -> rgt doc = Some b ->
  lft r = Some l -> rgt r = Some h -> ~ (a <= l /\ h <= b) ->
  dark_side ct doc r = r.
Proof.
  intros Ha Hb Hl Hh H. unfold dark_side, upd, Sql.ge, Sql.le, Sql.cmp.
  rewrite Ha, Hb, Hl, Hh. zcases; try lia; reflexivity.
Qed.

Lemma shift_left_dark ct (doc : Doc) diff x a b l h :
  lft doc = Some a -> rgt doc = Some b -> 0 <= b ->
  lft x = Some l -> rgt x = Some h -> l < 0 -> h < 0 ->
  shift_left ct doc diff x = x.
Proof.
  intros Ha Hb Hb0 Hl Hh Hl0 Hh0.
  unfold shift_left, upd, Sql.lt, Sql.gt, Sql.cmp.
  rewrite Ha, Hb, Hl. zcases; try lia.
  rewrite Hl, Hh. zcases; try lia; reflexivity.
Qed.

Lemma shift_right_dark ct p np diff x l h :
  name x <> p ->
  (forall k, snd np = Some k -> 0 <= k) ->
  lft x = Some l -> rgt x = Some h -> l < 0 -> h < 0 ->
  shift_right ct p np diff x = x.
Proof.
  intros Hn Hnp Hl Hh Hl0 Hh0.
  unfold shift_right, upd, name_is, Sql.lt, Sql.gt, Sql.cmp.
  apply String.eqb_neq in Hn. rewrite Hn, Hl.
  destruct (snd np) as [k|] eqn:E.
  - specialize (Hnp k eq_refl). zcases; try lia.
    rewrite Hl, Hh. destruct (fst np); zcases; try lia; reflexivity.
  - rewrite Hl, Hh. destruct (fst np); rewrite ?andb_false_r; reflexivity.
Qed.

Lemma bring_back_dark ct nd x l h :
  lft x = Some l -> rgt x = Some h -> l < 0 ->
  bounds (bring_back ct nd x) = (Some (- l + nd), Some (- h + nd)).
Proof.
  intros Hl Hh Hl0. unfold bring_back, upd, bounds, Sql.lt, Sql.cmp.
  rewrite Hl. zcases; try lia. rewrite ?Hl, ?Hh. reflexivity.
Qed.


Lemma lookup_unique t x :
  NoDup (map name t) -> In x t -> lookup (name x) t = Some x.
Proof.
  unfold lookup. induction t as [|y t IH]; intros Hnd Hin; [contradiction|].
  simpl in *. inversion Hnd as [|? ? Hnotin Hnd']; subst.
  unfold name_is at 1. destruct (String.eqb_spec (name y) (name x)) as [E|E].
  - destruct Hin as [->|Hin]; [reflexivity|].
    exfalso. apply Hnotin. rewrite E. now apply in_map.
  - destruct Hin as [->|Hin]; [congruence | now apply IH].
Qed.

Lemma moved_row_translated ct (doc : Doc) g1 g2 nd a b r l h :
  lft doc = Some a -> rgt doc = Some b -> 0 < a ->
  valid_row r -> lft r = Some l -> rgt r = Some h -> a <= l -> h <= b ->
  (forall x l' h', name x = name r -> lft x = Some l' -> rgt x = Some h' ->
                   l' < 0 -> h' < 0 -> g1 x = x) ->
  (forall x l' h', name x = name r -> lft x = Some l' -> rgt x = Some h' ->
                   l' < 0 -> h' < 0 -> g2 x = x) ->
  bounds (bring_back ct nd (g2 (g1 (dark_side ct doc r)))) = (Some (l + nd), Some (h + nd)).
Proof.
  intros Ha Hb Ha0 (l0 & h0 & Hl0 & Hh0 & Hv) Hl Hh H1 H2 Hg1 Hg2.
  rewrite Hl in Hl0. rewrite Hh in Hh0. injection Hl0 as <-. injection Hh0 as <-.
  pose proof (dark_side_moved ct doc r a b l h Ha Hb Hl Hh H1 H2) as Hd.
  unfold bounds in Hd. injection Hd as Hdl Hdh.
  destruct (dark_side_name ct doc r) as [Hn _].
  rewrite (Hg1 _ (- l) (- h) Hn Hdl Hdh) by lia.
  rewrite (Hg2 _ (- l) (- h) Hn Hdl Hdh) by lia.
  rewrite (bring_back_dark ct nd _ (- l) (- h) Hdl Hdh) by lia.
  f_equal; f_equal; lia.
Qed.

Lemma max_rgt_exists t x h : In x t -> rgt x = Some h -> exists m, max_rgt t = Some m.
Proof.
  intros Hin Hh. unfold max_rgt. destruct (Sql.max (map rgt t)) as [m|] eqn:E.
  - now exists m.
  - rewrite sql_max_none in E. specialize (E (rgt x) (in_map rgt t x Hin)). congruence.
Qed.

Lemma move_node_check_passes (doc : Doc) t rd p rp :
  NoDup (map name t) ->
  lookup (name doc) t = Some rd ->
  parent doc = Some p -> p <> "" ->
  lookup p t = Some rp -> encloses (lft rp) (rgt rp) rd = false ->
  move_node_check doc t = (Ok tt, t).
Proof.
  intros Hnd Hrd Hp Hne Hrp Henc.
  rewrite (move_node_check_run doc t p rp Hp Hne Hrp), validate_loop_run.
  destruct (existsb _ t) eqn:E; [|reflexivity].
  apply existsb_exists in E. destruct E as (x & Hin & Hx).
  apply andb_prop in Hx. destruct Hx as [Hx1 Hx2].
  apply String.eqb_eq in Hx1.
  pose proof (lookup_unique t x Hnd Hin) as Hu. rewrite Hx1, Hrd in Hu.
  injection Hu as ->. congruence.
Qed.




Example move_under_sibling :
  bounds_of (snd (update_move_node "t1"
                    (mkRow "A" (Some "B") (Some "R") (Some 2) (Some 5) "t0") fixture))
  = [("R", Some 1, Some 10); ("A", Some 5, Some 8); ("A1", Some 6, Some 7);
     ("B", Some 2, Some 9); ("B1", Some 3, Some 4)].
Proof. reflexivity. Qed.

Example move_to_root :
  bounds_of (snd (update_move_node "t1"
                    (mkRow "A" (Some "") (Some "R") (Some 2) (Some 5) "t0") fixture))
  = [("R", Some 1, Some 6); ("A", Some 7, Some 10); ("A1", Some 8, Some 9);
     ("B", Some 2, Some 5); ("B1", Some 3, Some 4)].
Proof. reflexivity. Qed.

(** ** Rebuilding: the writes of a rebuild *)

Lemma filter_map_comm {A B} (g : A -> B) (f : B -> bool) l :
  filter f (map g l) = map g (filter (fun a => f (g a)) l).
Proof.
  induction l as [|x l IH]; simpl; [reflexivity|].
  destruct (f (g x)); simpl; now rewrite IH.
Qed.

Lemma insert_by_map {A B} (g : A -> B) (leb : B -> B -> bool) x l :
  insert_by leb (g x) (map g l) = map g (insert_by (fun a b => leb (g a) (g b)) x l).
Proof.
  induction l as [|y l IH]; simpl; [reflexivity|].
  destruct (leb (g x) (g y)); simpl; [reflexivity | now rewrite IH].
Qed.

Lemma sort_by_map {A B} (g : A -> B) (leb : B -> B -> bool) l :
  sort_by leb (map g l) = map g (sort_by (fun a b => leb (g a) (g b)) l).
Proof.
  induction l as [|x l IH]; simpl; [reflexivity|].
  now rewrite IH, insert_by_map.
Qed.

Lemma children_of_skel n t : children_of n t = sk_children n (skel t).
Proof.
  unfold children_of, sk_children, skel, Sql.select.
  rewrite filter_map_comm, map_map. reflexivity.
Qed.

Lemma root_names_skel t : root_names t = sk_roots (skel t).
Proof.
  unfold root_names, sk_roots, skel, Sql.select, name_asc.
  rewrite filter_map_comm, sort_by_map, map_map. reflexivity.
Qed.

Lemma write_row_fields ct w r :
  name (write_row ct w r) = name r /\ parent (write_row ct w r) = parent r.
Proof. split; [apply upd_name | apply upd_parent]; reflexivity. Qed.

Lemma skel_map g t :
  (forall r, name (g r) = name r /\ parent (g r) = parent r) ->
  skel (map g t) = skel t.
Proof.
  intros H. unfold skel. rewrite map_map. apply map_ext.
  intros r. destruct (H r) as [-> ->]. reflexivity.
Qed.

Lemma apply_writes_skel ct ws t : skel (apply_writes ct ws t) = skel t.
Proof.
  unfold apply_writes. revert t. induction ws as [|w ws IH]; intros t; simpl.
  - reflexivity.
  - rewrite IH. apply skel_map. intros r. apply write_row_fields.
Qed.

Lemma apply_writes_app ct ws ws' t :
  apply_writes ct (ws ++ ws') t = apply_writes ct ws' (apply_writes ct ws t).
Proof. unfold apply_writes. apply fold_left_app. Qed.

Lemma apply_writes_rows ct ws t : apply_writes ct ws t = map (row_after ct ws) t.
Proof.
  unfold apply_writes, row_after. revert t.
  induction ws as [|w ws IH]; intros t; simpl.
  - symmetry. apply map_id.
  - rewrite IH, map_map. reflexivity.
Qed.

Lemma row_after_fields ct ws r :
  name (row_after ct ws r) = name r /\
  parent (row_after ct ws r) = parent r /\
  bounds (row_after ct ws r) =
    match last_write (name r) ws with
    | Some lr => (Some (fst lr), Some (snd lr))
    | None => bounds r
    end.
Proof.
  unfold row_after. revert r. induction ws as [|w ws IH]; intros r; simpl.
  - repeat split.
  - destruct (IH (write_row ct w r)) as (Hn & Hp & Hb).
    destruct (write_row_fields ct w r) as [Hn' Hp'].
    rewrite Hn, Hp, Hb, Hn', Hp'. repeat split.
    destruct (last_write (name r) ws); [reflexivity|].
    unfold write_row, upd, name_is.
    destruct (name r =? fst w)%string; reflexivity.
Qed.

Lemma for_each_refines ct f g sk :
  refines ct f g sk ->
  forall ns c t, skel t = sk ->
    match list_writes g ns c with
    | Some (ws, c') => for_each f ns c t = (Ok c', apply_writes ct ws t)
    | None => exists t', for_each f ns c t = (Raise RecursionError, t')
    end.
Proof.
  intros Hf. induction ns as [|n ns IH]; intros c t Hsk; simpl.
  - reflexivity.
  - rewrite bind_run. pose proof (Hf n c t Hsk) as Hn.
    destruct (g n c) as [[ws c']|].
    + rewrite Hn.
      specialize (IH c' (apply_writes ct ws t)).
      rewrite apply_writes_skel in IH. specialize (IH Hsk).
      destruct (list_writes g ns c') as [[ws' c'']|].
      * now rewrite apply_writes_app.
      * exact IH.
    + destruct Hn as [t' ->]. now exists t'.
Qed.

Lemma rebuild_node_refines ct fuel sk :
  refines ct (rebuild_node fuel ct) (node_writes fuel sk) sk.
Proof.
  induction fuel as [|fuel IH]; intros n c t Hsk; simpl.
  - now exists t.
  - unfold bind, query. rewrite children_of_skel, Hsk.
    pose proof (for_each_refines ct _ _ sk IH (sk_children n sk) (c + 1) t Hsk) as H.
    destruct (list_writes (node_writes fuel sk) (sk_children n sk) (c + 1))
      as [[ws right_]|].
    + rewrite H. unfold bind, execute, ret.
      rewrite apply_writes_app. reflexivity.
    + destruct H as [t' ->]. now exists t'.
Qed.

Lemma rebuild_tree_run ct fuel t :
  match tree_writes fuel (skel t) with
  | Some (ws, _) => rebuild_tree fuel ct t = (Ok tt, apply_writes ct ws t)
  | None => exists t', rebuild_tree fuel ct t = (Raise RecursionError, t')
  end.
Proof.
  unfold rebuild_tree, tree_writes, bind, query. cbv zeta.
  rewrite root_names_skel.
  pose proof (for_each_refines ct _ _ (skel t) (rebuild_node_refines ct fuel (skel t))
                (sk_roots (skel t)) 1 t eq_refl) as H.
  destruct (list_writes (node_writes fuel (skel t)) (sk_roots (skel t)) 1)
    as [[ws c]|].
  - now rewrite H.
  - destruct H as [t' ->]. now exists t'.
Qed.

(** C7. Rebuilding a rebuilt table succeeds again and gives every row the
    bounds it already has. *)
Theorem rebuild_twice fuel ct ct' t t1 :
  rebuild_tree fuel ct t = (Ok tt, t1) ->
  exists t2,
    rebuild_tree fuel ct' t1 = (Ok tt, t2) /\
    Forall2 (fun r1 r2 => name r2 = name r1 /\ parent r2 = parent r1 /\
                          bounds r2 = bounds r1) t1 t2.
Proof.
  intros H1.
  pose proof (rebuild_tree_run ct fuel t) as R1.
  destruct (tree_writes fuel (skel t)) as [[ws c]|] eqn:E.
  - rewrite H1 in R1. injection R1 as ->.
    pose proof (rebuild_tree_run ct' fuel (apply_writes ct ws t)) as R2.
    rewrite apply_writes_skel, E in R2.
    exists (apply_writes ct' ws (apply_writes ct ws t)). split; [exact R2|].
    rewrite (apply_writes_rows ct' ws). apply Forall2_map_r.
    intros r1 Hin. rewrite apply_writes_rows in Hin.
    apply in_map_iff in Hin. destruct Hin as (r0 & <- & _).
    destruct (row_after_fields ct ws r0) as (Hn0 & _ & Hb0).
    destruct (row_after_fields ct' ws (row_after ct ws r0)) as (Hn1 & Hp1 & Hb1).
    split; [exact Hn1|]. split; [exact Hp1|].
    rewrite Hb1, Hn0, Hb0. now destruct (last_write (name r0) ws).
  - destruct R1 as [t' R1]. rewrite H1 in R1. discriminate.
Qed.

Lemma rebuild_twice_witness :
  exists t1,
    rebuild_tree 10 "t1" fixture = (Ok tt, t1) /\
    exists t2,
      rebuild_tree 10 "t2" t1 = (Ok tt, t2) /\
      Forall2 (fun r1 r2 => name r2 = name r1 /\ parent r2 = parent r1 /\
                            bounds r2 = bounds r1) t1 t2.
Proof.
  eexists. split; [reflexivity|].
  apply (rebuild_twice 10 "t1" "t2" fixture). reflexivity.
Defined.

(** ** The forest of parent keys *)

Section Forest.
Variable sk : Skel.
Hypothesis keys_unique : NoDup (map fst sk).
Hypothesis keys_nonempty : ~ In "" (map fst sk).

Lemma sk_parent_in x p : In (x, p) sk -> sk_parent sk x = Some p.
Proof.
  unfold sk_parent. clear keys_nonempty. induction sk as [|[y q] s IH]; intros Hin.
  - contradiction.
  - simpl in *. inversion keys_unique as [|? ? Hnotin Hnd]; subst.
    destruct (String.eqb_spec y x) as [E|E].
    + destruct Hin as [Hin|Hin]; [now injection Hin as _ -> |].
      exfalso. apply Hnotin. subst y. now apply (in_map fst s (x, p)).
    + destruct Hin as [Hin|Hin]; [congruence | now apply IH].
Qed.

Lemma sk_parent_key x p : sk_parent sk x = Some p -> In x (map fst sk).
Proof.
  unfold sk_parent. destruct (find _ sk) as [e|] eqn:E; [|discriminate].
  intros _. apply find_some in E. destruct E as [Hin He].
  apply String.eqb_eq in He. subst x. now apply in_map.
Qed.

Lemma sk_parent_nonempty x p : sk_parent sk x = Some p -> x <> "".
Proof. intros H E. subst x. apply keys_nonempty. now apply (sk_parent_key "" p). Qed.

Lemma sk_children_parent n c : In c (sk_children n sk) -> sk_parent sk c = Some (Some n).
Proof.
  unfold sk_children. intros H. apply in_map_iff in H.
  destruct H as ([x p] & Hx & Hin). simpl in Hx. subst x.
  apply filter_In in Hin. destruct Hin as [Hin Hp]. simpl in Hp.
  destruct p as [p|]; [|discriminate].
  apply String.eqb_eq in Hp. subst p. now apply sk_parent_in.
Qed.

Lemma sk_roots_level r : In r (sk_roots sk) -> level sk r 0.
Proof.
  unfold sk_roots. intros H. apply in_map_iff in H.
  destruct H as ([x p] & Hx & Hin). simpl in Hx. subst x.
  apply (Permutation_in _ (sort_by_perm _ _)) in Hin.
  apply filter_In in Hin. destruct Hin as [Hin Hp]. simpl in Hp.
  apply (level_root sk r p); [now apply sk_parent_in|].
  destruct p as [p|]; [|now left].
  apply String.eqb_eq in Hp. subst p. now right.
Qed.

Lemma level_fun n k k' : level sk n k -> level sk n k' -> k = k'.
Proof.
  intros H. revert k'. induction H as [n p Hp Hroot | n p k Hp Hne Hl IH]; intros k' H'.
  - inversion H' as [|? q ? Hq Hqne]; subst; [reflexivity|].
    rewrite Hp in Hq. injection Hq as ->.
    destruct Hroot as [E|E]; [discriminate | now injection E as ->].
  - inversion H' as [? q Hq Hroot | ? q ? Hq Hqne Hl']; subst.
    + rewrite Hp in Hq. injection Hq as <-.
      destruct Hroot as [E|E]; [discriminate | now injection E as ->].
    + rewrite Hp in Hq. injection Hq as <-. f_equal. now apply IH.
Qed.

Lemma level_child_of n c k :
  level sk n k -> In c (sk_children n sk) -> level sk c (S k).
Proof.
  intros Hl Hc. apply (level_child sk c n k); [now apply sk_children_parent | | exact Hl].
  inversion Hl as [? p Hp _ | ? p ? Hp _ _]; subst; now apply (sk_parent_nonempty n _ Hp).
Qed.

Lemma under_level n x k :
  under sk n x -> level sk n k ->
  exists j, level sk x (k + j) /\ (j = 0%nat -> x = n).
Proof.
  intros Hu Hl. induction Hu as [|x p Hp Hu IH].
  - exists 0%nat. rewrite Nat.add_0_r. now split.
  - destruct IH as (j & Hj & _). exists (S j). split; [|discriminate].
    rewrite Nat.add_succ_r. apply (level_child sk x p); [exact Hp | | exact Hj].
    inversion Hj as [? q Hq _ | ? q ? Hq _ _]; subst; now apply (sk_parent_nonempty p _ Hq).
Qed.

Lemma under_inv n x :
  under sk n x -> x = n \/ exists p, sk_parent sk x = Some (Some p) /\ under sk n p.
Proof. intros H. destruct H as [|x p Hp Hu]; [now left | right; eauto]. Qed.

Lemma under_disjoint c1 c2 x m :
  level sk c1 m -> level sk c2 m -> under sk c1 x -> under sk c2 x -> c1 = c2.
Proof.
  intros H1 H2 Hu1. induction Hu1 as [|x p Hp Hu1 IH]; intros Hu2.
  - destruct (under_level c2 c1 m Hu2 H2) as (j & Hj & Hz).
    pose proof (level_fun c1 _ _ H1 Hj) as E. apply Hz. lia.
  - destruct (under_inv c2 x Hu2) as [E | (q & Hq & Hu2')].
    + subst x.
      destruct (under_level c1 c2 m (under_child sk c1 c2 p Hp Hu1) H1) as (j & Hj & Hz).
      pose proof (level_fun c2 _ _ H2 Hj) as E. symmetry. apply Hz. lia.
    + rewrite Hp in Hq. injection Hq as <-. now apply IH.
Qed.

(** No key lies deeper than the table is long. *)
Lemma level_chain n k :
  level sk n k ->
  exists l, List.length l = S k /\ NoDup l /\ incl l (map fst sk) /\
            forall x, In x l -> exists j, (j <= k)%nat /\ level sk x j.
Proof.
  intros H. induction H as [n p Hp Hroot | n p k Hp Hne Hl IH].
  - exists [n]. repeat split.
    + constructor; [intros [] | constructor].
    + intros x [<-|[]]. now apply (sk_parent_key n p).
    + intros x [<-|[]]. exists 0%nat. split; [lia|]. now apply (level_root sk n p).
  - destruct IH as (l & Hlen & Hnd & Hincl & Hlev).
    exists (n :: l). repeat split.
    + simpl. now rewrite Hlen.
    + constructor; [|exact Hnd]. intros Hin.
      destruct (Hlev n Hin) as (j & Hj & Hnj).
      pose proof (level_fun n _ _ Hnj (level_child sk n p k Hp Hne Hl)). lia.
    + intros x [<-|Hin]; [now apply (sk_parent_key n (Some p)) | now apply Hincl].
    + intros x [<-|Hin].
      * exists (S k). split; [lia|]. now apply (level_child sk n p k).
      * destruct (Hlev x Hin) as (j & Hj & Hxj). exists j. split; [lia | exact Hxj].
Qed.

Lemma level_bound n k : level sk n k -> (k < List.length sk)%nat.
Proof.
  intros H. destruct (level_chain n k H) as (l & Hlen & Hnd & Hincl & _).
  pose proof (NoDup_incl_length Hnd Hincl) as Hle.
  rewrite length_map in Hle. lia.
Qed.

End Forest.

(** ** The trace of a rebuild visits every key once *)

Lemma NoDup_map_filter {A B} (g : A -> B) (f : A -> bool) l :
  NoDup (map g l) -> NoDup (map g (filter f l)).
Proof.
  induction l as [|x l IH]; simpl; intros H; [constructor|].
  inversion H as [|? ? Hnotin Hnd]; subst.
  destruct (f x); simpl; [|now apply IH].
  constructor; [|now apply IH].
  intros Hin. apply Hnotin. apply in_map_iff in Hin.
  destruct Hin as (y & Hy & Hin). apply filter_In in Hin.
  rewrite <- Hy. apply in_map. tauto.
Qed.

Lemma list_writes_total g ns :
  (forall n c, In n ns -> exists ws c', g n c = Some (ws, c')) ->
  forall c, exists ws c', list_writes g ns c = Some (ws, c').
Proof.
  induction ns as [|n ns IH]; intros Hg c; simpl.
  - eauto.
  - destruct (Hg n c (or_introl eq_refl)) as (ws & c' & ->).
    destruct (IH (fun m d Hm => Hg m d (or_intror Hm)) c') as (ws' & c'' & ->).
    eauto.
Qed.

Section Trace.
Variable sk : Skel.
Hypothesis keys_unique : NoDup (map fst sk).
Hypothesis keys_nonempty : ~ In "" (map fst sk).

Lemma sk_children_nodup n : NoDup (sk_children n sk).
Proof. unfold sk_children. now apply NoDup_map_filter. Qed.

Lemma sk_roots_nodup : NoDup (sk_roots sk).
Proof.
  unfold sk_roots.
  eapply Permutation_NoDup.
  - apply Permutation_map, Permutation_sym, sort_by_perm.
  - now apply NoDup_map_filter.
Qed.

Lemma under_parent c n x :
  sk_parent sk c = Some (Some n) -> under sk c x -> under sk n x.
Proof.
  intros Hc Hu. induction Hu as [|x p Hp Hu IH].
  - exact (under_child sk n c n Hc (under_self sk n)).
  - exact (under_child sk n x p Hp IH).
Qed.

Lemma list_writes_good g ns m :
  NoDup ns ->
  (forall n, In n ns -> level sk n m) ->
  (forall n c ws c', In n ns -> g n c = Some (ws, c') -> good_trace sk n ws) ->
  forall c ws c',
    list_writes g ns c = Some (ws, c') ->
    NoDup (map fst ws) /\
    forall w, In w ws -> exists n, In n ns /\ under sk n (fst w).
Proof.
  induction ns as [|n ns IH]; intros Hnd Hlev Hg c ws c' H; simpl in H.
  - injection H as <- <-. split; [constructor | intros w []].
  - destruct (g n c) as [[ws1 c1]|] eqn:E1; [|discriminate].
    destruct (list_writes g ns c1) as [[ws2 c2]|] eqn:E2; [|discriminate].
    injection H as <- <-.
    inversion Hnd as [|? ? Hnotin Hnd']; subst.
    destruct (Hg n c ws1 c1 (or_introl eq_refl) E1) as [Hnd1 Hu1].
    destruct (IH Hnd' (fun x Hx => Hlev x (or_intror Hx))
                (fun x d w d' Hx => Hg x d w d' (or_intror Hx)) c1 ws2 c2 E2)
      as [Hnd2 Hu2].
    split.
    + rewrite map_app. apply NoDup_app; [exact Hnd1 | exact Hnd2 |].
      intros a Ha1 Ha2.
      apply in_map_iff in Ha1. destruct Ha1 as (w1 & Hw1 & Hin1).
      apply in_map_iff in Ha2. destruct Ha2 as (w2 & Hw2 & Hin2).
      destruct (Hu2 w2 Hin2) as (n' & Hn' & Hun').
      pose proof (Hu1 w1 Hin1) as Hun. rewrite Hw1 in Hun. rewrite Hw2 in Hun'.
      pose proof (under_disjoint sk keys_nonempty n n' a m
                    (Hlev n (or_introl eq_refl)) (Hlev n' (or_intror Hn')) Hun Hun').
      subst n'. contradiction.
    + intros w Hw. apply in_app_or in Hw. destruct Hw as [Hw|Hw].
      * exists n. split; [now left | now apply Hu1].
      * destruct (Hu2 w Hw) as (n' & Hn' & Hun'). exists n'. split; [now right | exact Hun'].
Qed.

Lemma node_writes_good fuel n k left ws next :
  level sk n k ->
  node_writes fuel sk n left = Some (ws, next) ->
  good_trace sk n ws.
Proof.
  revert n k left ws next.
  induction fuel as [|fuel IH]; intros n k left ws next Hl H; simpl in H; [discriminate|].
  destruct (list_writes (node_writes fuel sk) (sk_children n sk) (left + 1))
    as [[wsc right_]|] eqn:E; [|discriminate].
  injection H as <- <-.
  destruct (list_writes_good (node_writes fuel sk) (sk_children n sk) (S k)
              (sk_children_nodup n)
              (fun c Hc => level_child_of sk keys_unique keys_nonempty n c k Hl Hc)
              (fun c d w d' Hc Hw =>
                 IH c (S k) d w d'
                    (level_child_of sk keys_unique keys_nonempty n c k Hl Hc) Hw)
              (left + 1) wsc right_ E) as [Hnd Hu].
  split.
  - rewrite map_app. apply NoDup_app; [exact Hnd | repeat constructor; intros [] |].
    intros a Ha [<-|[]].
    apply in_map_iff in Ha. destruct Ha as (w & Hw & Hin).
    destruct (Hu w Hin) as (c & Hc & Huc). rewrite Hw in Huc.
    destruct (under_level sk keys_nonempty c n (S k) Huc
                (level_child_of sk keys_unique keys_nonempty n c k Hl Hc))
      as (j & Hj & _).
    pose proof (level_fun sk n _ _ Hl Hj). lia.
  - intros w Hw. apply in_app_or in Hw. destruct Hw as [Hw|[<-|[]]].
    + destruct (Hu w Hw) as (c & Hc & Huc).
      apply (under_parent c n); [|exact Huc].
      now apply (sk_children_parent sk keys_unique).
    + apply under_self.
Qed.

Lemma node_writes_total fuel n k left :
  level sk n k ->
  (List.length sk <= fuel + k)%nat ->
  exists ws next, node_writes fuel sk n left = Some (ws, next).
Proof.
  revert n k left.
  induction fuel as [|fuel IH]; intros n k left Hl Hfuel.
  - pose proof (level_bound sk n k Hl). lia.
  - simpl.
    destruct (list_writes_total (node_writes fuel sk) (sk_children n sk)) with (c := left + 1)
      as (ws & c' & ->).
    + intros c d Hc. apply (IH c (S k) d); [|lia].
      now apply (level_child_of sk keys_unique keys_nonempty n c k).
    + eauto.
Qed.

Lemma tree_writes_total fuel :
  (List.length sk <= fuel)%nat ->
  exists ws last, tree_writes fuel sk = Some (ws, last).
Proof.
  intros Hfuel. unfold tree_writes. apply list_writes_total.
  intros r c Hr. apply (node_writes_total fuel r 0%nat c); [|lia].
  now apply sk_roots_level.
Qed.

Lemma tree_writes_good fuel ws last :
  tree_writes fuel sk = Some (ws, last) ->
  NoDup (map fst ws) /\
  forall w, In w ws -> In (fst w) (map fst sk).
Proof.
  intros H. unfold tree_writes in H.
  destruct (list_writes_good (node_writes fuel sk) (sk_roots sk) 0%nat
              sk_roots_nodup
              (fun r Hr => sk_roots_level sk keys_unique r Hr)
              (fun r d w d' Hr Hw =>
                 node_writes_good fuel r 0%nat d w d'
                   (sk_roots_level sk keys_unique r Hr) Hw)
              1 ws last H) as [Hnd Hu].
  split; [exact Hnd|].
  intros w Hw. destruct (Hu w Hw) as (r & Hr & Hur).
  apply (sk_roots_level sk keys_unique) in Hr.
  destruct (under_level sk keys_nonempty r (fst w) 0%nat Hur Hr) as (j & Hj & _).
  inversion Hj as [? p Hp _ | ? p ? Hp _ _]; subst; now apply (sk_parent_key sk (fst w) _ Hp).
Qed.

End Trace.

(** ** The numbering of a rebuilt table *)

Lemma agrees_app t ws ws' : agrees t (ws ++ ws') -> agrees t ws /\ agrees t ws'.
Proof.
  intros H. split; intros n l r Hin; apply H, in_or_app; [now left | now right].
Qed.

Lemma writes_euler_list t g ns :
  (forall n c ws c', In n ns -> g n c = Some (ws, c') -> agrees t ws -> euler t n c c') ->
  forall c ws c', list_writes g ns c = Some (ws, c') -> agrees t ws ->
                  euler_list t ns c c'.
Proof.
  induction ns as [|n ns IH]; intros Hg c ws c' H Ha; simpl in H.
  - injection H as <- <-. constructor.
  - destruct (g n c) as [[ws1 c1]|] eqn:E1; [|discriminate].
    destruct (list_writes g ns c1) as [[ws2 c2]|] eqn:E2; [|discriminate].
    injection H as <- <-. apply agrees_app in Ha. destruct Ha as [Ha1 Ha2].
    apply (euler_cons t n ns c c1 c2).
    + exact (Hg n c ws1 c1 (or_introl eq_refl) E1 Ha1).
    + exact (IH (fun m d w d' Hm => Hg m d w d' (or_intror Hm)) c1 ws2 c2 E2 Ha2).
Qed.

Lemma writes_euler t fuel n left ws next :
  node_writes fuel (skel t) n left = Some (ws, next) -> agrees t ws ->
  euler t n left next.
Proof.
  revert n left ws next.
  induction fuel as [|fuel IH]; intros n left ws next H Ha; simpl in H; [discriminate|].
  destruct (list_writes (node_writes fuel (skel t)) (sk_children n (skel t)) (left + 1))
    as [[wsc right_]|] eqn:E; [|discriminate].
  injection H as <- <-. apply agrees_app in Ha. destruct Ha as [Hac Han].
  destruct (Han n left right_ (or_introl eq_refl)) as (row & Hrow & Hl & Hr).
  apply (euler_node t n row left right_ Hrow Hl Hr).
  rewrite children_of_skel.
  exact (writes_euler_list t _ _ (fun c d w d' _ => IH c d w d') (left + 1) wsc right_ E Hac).
Qed.

Lemma last_write_absent n ws : ~ In n (map fst ws) -> last_write n ws = None.
Proof.
  induction ws as [|w ws IH]; simpl; intros H; [reflexivity|].
  rewrite IH by tauto.
  destruct (String.eqb_spec n (fst w)); [|reflexivity].
  exfalso. apply H. left. congruence.
Qed.

Lemma last_write_nodup n lr ws :
  NoDup (map fst ws) -> In (n, lr) ws -> last_write n ws = Some lr.
Proof.
  induction ws as [|w ws IH]; simpl; intros Hnd Hin; [contradiction|].
  inversion Hnd as [|? ? Hnotin Hnd']; subst.
  destruct Hin as [->|Hin].
  - simpl in Hnotin. rewrite (last_write_absent n ws Hnotin). simpl.
    now rewrite String.eqb_refl.
  - now rewrite (IH Hnd' Hin).
Qed.

Lemma lookup_some n t : In n (map name t) -> exists row, lookup n t = Some row.
Proof.
  intros H. apply in_map_iff in H. destruct H as (r & Hr & Hin).
  unfold lookup. destruct (find (name_is n) t) as [row|] eqn:E; [eauto|].
  pose proof (find_none _ _ E r Hin) as Hn. unfold name_is in Hn.
  rewrite Hr, String.eqb_refl in Hn. discriminate.
Qed.

Lemma apply_writes_agrees ct ws t :
  NoDup (map fst ws) ->
  (forall w, In w ws -> In (fst w) (map name t)) ->
  agrees (apply_writes ct ws t) ws.
Proof.
  intros Hnd Hkeys n l r Hin.
  destruct (lookup_some n t (Hkeys _ Hin)) as (row & Hrow).
  destruct (lookup_In _ _ _ Hrow) as [_ Hname].
  exists (row_after ct ws row).
  rewrite apply_writes_rows, lookup_map, Hrow
    by (intros x; apply (row_after_fields ct ws x)).
  split; [reflexivity|].
  destruct (row_after_fields ct ws row) as (_ & _ & Hb).
  rewrite Hname, (last_write_nodup n (l, r) ws Hnd Hin) in Hb.
  unfold bounds in Hb. simpl in Hb. now injection Hb.
Qed.

Lemma euler_span t :
  (forall n c c', euler t n c c' -> c + 2 <= c') /\
  (forall ns c c', euler_list t ns c c' -> c <= c').
Proof.
  split.
  - apply (euler_mut t (fun _ c c' => c + 2 <= c') (fun _ c c' => c <= c')); intros; lia.
  - apply (euler_list_mut t (fun _ c c' => c + 2 <= c') (fun _ c c' => c <= c')); intros; lia.
Qed.

Lemma euler_bounds t n c c' :
  euler t n c c' ->
  exists row, lookup n t = Some row /\ lft row = Some c /\ rgt row = Some (c' - 1) /\
              c < c' - 1.
Proof.
  intros H. inversion H as [? row l r Hrow Hl Hr Hc]; subst.
  exists row. replace (r + 1 - 1) with r by lia. repeat split; try assumption.
  pose proof (proj2 (euler_span t) _ _ _ Hc). lia.
Qed.

Lemma euler_list_within t ns c c' :
  euler_list t ns c c' ->
  Forall (fun n => exists row l r, lookup n t = Some row /\ lft row = Some l /\
                                   rgt row = Some r /\ c <= l /\ l < r /\ r < c') ns.
Proof.
  revert c. induction ns as [|n ns IH]; intros c H; [constructor|].
  inversion H as [|? ? ? c1 ? Hn Hns]; subst.
  pose proof (proj1 (euler_span t) _ _ _ Hn) as S1.
  pose proof (proj2 (euler_span t) _ _ _ Hns) as S2.
  constructor.
  - destruct (euler_bounds t n c c1 Hn) as (row & Hrow & Hl & Hr & Hlt).
    exists row, c, (c1 - 1). repeat split; try assumption; lia.
  - specialize (IH c1 Hns). eapply Forall_impl; [|exact IH].
    intros m (row & l & r & Hrow & Hl & Hr & H1 & H2 & H3).
    exists row, l, r. repeat split; try assumption; lia.
Qed.

Lemma euler_list_ordered t ns c c' :
  euler_list t ns c c' -> ForallOrdPairs (before t) ns.
Proof.
  revert c. induction ns as [|n ns IH]; intros c H; [constructor|].
  inversion H as [|? ? ? c1 ? Hn Hns]; subst.
  constructor; [|exact (IH c1 Hns)].
  destruct (euler_bounds t n c c1 Hn) as (row & Hrow & Hl & Hr & Hlt).
  pose proof (euler_list_within t ns c1 c' Hns) as W.
  eapply Forall_impl; [|exact W].
  intros m (rm & l & r & Hrm & Hml & Hmr & H1 & H2 & H3).
  exists row, rm, (c1 - 1), l. repeat split; try assumption. lia.
Qed.

Lemma Sorted_map {A B} (g : A -> B) (R : B -> B -> Prop) l :
  Sorted (fun a b => R (g a) (g b)) l -> Sorted R (map g l).
Proof.
  induction 1 as [|a l Hs IH Hhd]; simpl; constructor; [exact IH|].
  destruct Hhd; simpl; now constructor.
Qed.

Lemma root_names_spec t n :
  In n (root_names t) <-> exists r, In r t /\ name r = n /\ is_root r = true.
Proof.
  unfold root_names, Sql.select. rewrite in_map_iff. split.
  - intros (r & Hr & Hin).
    apply (Permutation_in _ (sort_by_perm name_asc _)) in Hin.
    apply filter_In in Hin. destruct Hin as [Hin Hp].
    exists r. repeat split; try assumption.
    unfold is_root, Sql.coalesce_str. now destruct (parent r).
  - intros (r & Hin & Hr & Hroot). exists r. split; [exact Hr|].
    apply (Permutation_in _ (Permutation_sym (sort_by_perm name_asc _))).
    apply filter_In. split; [exact Hin|].
    unfold is_root, Sql.coalesce_str in Hroot. now destruct (parent r).
Qed.

Lemma root_names_sorted t : Sorted (fun a b => String.leb a b = true) (root_names t).
Proof.
  unfold root_names. apply Sorted_map.
  apply (sort_by_sorted name_asc name_asc_total).
Qed.

Lemma skel_keys t : map fst (skel t) = map name t.
Proof. unfold skel. rewrite map_map. reflexivity. Qed.

(** C2 (amended). With unique, non-empty keys and a recursion limit no
    smaller than the table, [rebuild_tree] succeeds and numbers the forest
    in depth-first pre-order with one counter that starts at 1: the roots
    are taken in lexicographic order of their keys, a node gets [lft] on
    entry and [rgt] after its children, the children are taken in the order
    the store lists them, and the roots get disjoint ranges in the order of
    their enumeration. *)
Theorem rebuild_numbers_in_preorder fuel ct t :
  NoDup (map name t) ->
  (forall r, In r t -> name r <> "") ->
  (List.length t <= fuel)%nat ->
  exists t' last,
    rebuild_tree fuel ct t = (Ok tt, t') /\
    Forall2 (fun r r' => name r' = name r /\ parent r' = parent r) t t' /\
    Sorted (fun a b => String.leb a b = true) (root_names t) /\
    (forall n, In n (root_names t) <-> exists r, In r t /\ name r = n /\ is_root r = true) /\
    (forall n, children_of n t' = children_of n t) /\
    euler_list t' (root_names t) 1 last /\
    ForallOrdPairs (before t') (root_names t).
Proof.
  intros Hnd Hne Hfuel.
  assert (Hu : NoDup (map fst (skel t))) by now rewrite skel_keys.
  assert (He : ~ In "" (map fst (skel t))).
  { rewrite skel_keys. intros H. apply in_map_iff in H.
    destruct H as (r & Hr & Hin). exact (Hne r Hin Hr). }
  assert (Hlen : (List.length (skel t) <= fuel)%nat).
  { unfold skel. now rewrite length_map. }
  destruct (tree_writes_total (skel t) Hu He fuel Hlen) as (ws & last & Hw).
  destruct (tree_writes_good (skel t) Hu He fuel ws last Hw) as [Hwnd Hwkeys].
  pose proof (rebuild_tree_run ct fuel t) as Hrun. rewrite Hw in Hrun.
  assert (Hsk : skel (apply_writes ct ws t) = skel t) by apply apply_writes_skel.
  assert (Ha : agrees (apply_writes ct ws t) ws).
  { apply apply_writes_agrees; [exact Hwnd|].
    intros w Hin. rewrite <- skel_keys. now apply Hwkeys. }
  assert (Heul : euler_list (apply_writes ct ws t) (root_names t) 1 last).
  { rewrite root_names_skel, <- Hsk.
    apply (writes_euler_list _ (node_writes fuel (skel (apply_writes ct ws t))) _
             (fun n c w c' _ => writes_euler _ fuel n c w c') 1 ws last);
      [|exact Ha].
    rewrite Hsk. exact Hw. }
  exists (apply_writes ct ws t), last.
  split; [exact Hrun|]. split.
  { rewrite apply_writes_rows. apply Forall2_map_r. intros r _.
    destruct (row_after_fields ct ws r) as (H1 & H2 & _). now split. }
  split; [apply root_names_sorted|].
  split; [apply root_names_spec|].
  split; [intros n; now rewrite !children_of_skel, Hsk|].
  split; [exact Heul|].
  exact (euler_list_ordered _ _ _ _ Heul).
Qed.

Lemma rebuild_numbers_in_preorder_witness :
  NoDup (map name forest_fixture) /\
  (forall r, In r forest_fixture -> name r <> "") /\
  exists t' last,
    rebuild_tree 4 "t1" forest_fixture = (Ok tt, t') /\
    Forall2 (fun r r' => name r' = name r /\ parent r' = parent r) forest_fixture t' /\
    Sorted (fun a b => String.leb a b = true) (root_names forest_fixture) /\
    (forall n, In n (root_names forest_fixture) <->
               exists r, In r forest_fixture /\ name r = n /\ is_root r = true) /\
    (forall n, children_of n t' = children_of n forest_fixture) /\
    euler_list t' (root_names forest_fixture) 1 last /\
    ForallOrdPairs (before t') (root_names forest_fixture).
Proof.
  assert (Hnd : NoDup (map name forest_fixture)).
  { simpl. repeat constructor; simpl; intuition discriminate. }
  assert (Hne : forall r, In r forest_fixture -> name r <> "").
  { intros r Hin. simpl in Hin.
    repeat (destruct Hin as [<-|Hin]; [discriminate|]). contradiction. }
  split; [exact Hnd|]. split; [exact Hne|].
  apply (rebuild_numbers_in_preorder 4 "t1" forest_fixture Hnd Hne). simpl. lia.
Defined.

Example rebuild_forest :
  bounds_of (snd (rebuild_tree 4 "t1" forest_fixture))
  = [("R", Some 3, Some 8); ("b", Some 4, Some 5); ("a", Some 6, Some 7);
     ("Q", Some 1, Some 2)].
Proof. reflexivity. Qed.

(** C2 as first stated fails: siblings are not numbered in the order of
    their keys when the store lists them otherwise. *)
Lemma rebuild_children_not_by_key :
  ~ (forall fuel ct t t' p c1 c2 r1 r2 l1 l2,
       rebuild_tree fuel ct t = (Ok tt, t') ->
       In c1 (children_of p t) -> In c2 (children_of p t) ->
       String.ltb c1 c2 = true ->
       lookup c1 t' = Some r1 -> lookup c2 t' = Some r2 ->
       lft r1 = Some l1 -> lft r2 = Some l2 ->
       l1 < l2).
Proof.
  intros H.
  assert (Ha : In "a" (children_of "R" forest_fixture)) by (simpl; auto).
  assert (Hb : In "b" (children_of "R" forest_fixture)) by (simpl; auto).
  pose proof (H 4%nat "t1" forest_fixture _ "R" "a" "b"
                (mkRow "a" (Some "R") (Some "R") (Some 6) (Some 7) "t1")
                (mkRow "b" (Some "R") (Some "R") (Some 4) (Some 5) "t1")
                6 4 eq_refl Ha Hb eq_refl eq_refl eq_refl eq_refl eq_refl).
  lia.
Qed.

(** * Further properties of the code *)

(** ** Outcomes of update_add_node *)

Lemma add_node_target_outcome (doc : Doc) p t :
  add_node_target doc p t =
  if (p =? "")%string
  then (Ok (or_one (Some (next_root_right t))), t)
  else match lookup p t with
       | None => (Raise IndexError, t)
       | Some rp =>
           if existsb (fun x => name_is (name doc) x && encloses (lft rp) (rgt rp) x) t
           then (Raise NestedSetRecursionError, t)
           else (Ok (or_one (rgt rp)), t)
       end.
Proof.
  destruct (String.eqb_spec p "") as [->|Hne]; [reflexivity|].
  destruct (lookup p t) as [rp|] eqn:E.
  - rewrite (add_node_target_run doc t p rp Hne E), validate_loop_run.
    now destruct (existsb _ t).
  - unfold add_node_target.
    destruct (String.eqb_spec p ""); [contradiction|]. simpl negb. cbv iota.
    unfold bind. rewrite (select_bounds_missing p t E). reflexivity.
Qed.

(** X1. An insertion is all or nothing: it either completes, giving the node
    [(k, k + 1)] and widening the other rows at [k], or it raises IndexError
    because the parent key has no row, or NestedSetRecursionError because a
    row of the node's key encloses the parent's bounds, and in both cases
    the table is as it was.  The occupancy check never makes it fail. *)
Theorem update_add_node_all_or_nothing ct (doc : Doc) p t :
  (exists k t', update_add_node ct doc p t = (Ok k, t') /\
                Forall2 (insert_effect (name doc) k) t t') \/
  (p <> "" /\ lookup p t = None /\
   update_add_node ct doc p t = (Raise IndexError, t)) \/
  (p <> "" /\
   (exists rp x, lookup p t = Some rp /\ In x t /\ name x = name doc /\
                 encloses (lft rp) (rgt rp) x = true) /\
   update_add_node ct doc p t = (Raise NestedSetRecursionError, t)).
Proof.
  pose proof (add_node_target_outcome doc p t) as Ht.
  assert (Hok : forall k, add_node_target doc p t = (Ok k, t) ->
                  exists k t', update_add_node ct doc p t = (Ok k, t') /\
                               Forall2 (insert_effect (name doc) k) t t').
  { intros k Hk. exists k, (map (place_row ct (name doc) k) t). split.
    - now apply update_add_node_run.
    - apply Forall2_map_r. intros x _. apply place_row_effect. }
  assert (Hfail : forall e, add_node_target doc p t = (Raise e, t) ->
                    update_add_node ct doc p t = (Raise e, t)).
  { intros e He. unfold update_add_node. now rewrite bind_run, He. }
  destruct (String.eqb_spec p "") as [E|Hne].
  - left. now apply (Hok _ Ht).
  - destruct (lookup p t) as [rp|] eqn:El.
    + destruct (existsb _ t) eqn:Ex.
      * right. right. split; [exact Hne|]. split; [|now apply Hfail].
        apply existsb_exists in Ex. destruct Ex as (x & Hin & Hx).
        apply andb_prop in Hx. destruct Hx as [Hx1 Hx2].
        apply String.eqb_eq in Hx1. exists rp, x. auto.
      * left. now apply (Hok _ Ht).
    + right. left. split; [exact Hne|]. split; [reflexivity | now apply Hfail].
Qed.

(** ** Failures of update_move_node *)

Lemma update_rows_none (c : Row -> bool) f (t : Table) :
  (forall r, c r = false) -> Sql.update c f t = t.
Proof.
  intros H. unfold Sql.update. rewrite <- (map_id t) at 2.
  apply map_ext. intros r. now rewrite H.
Qed.

Lemma sql_cmp_null op a : Sql.cmp op a None = false.
Proof. now destruct a. Qed.

(** X2. Moving a node under a parent key that has no row raises IndexError
    before anything is written. *)
Theorem move_node_missing_parent ct (doc : Doc) p t :
  parent doc = Some p -> p <> "" -> lookup p t = None ->
  update_move_node ct doc t = (Raise IndexError, t).
Proof.
  intros Hp Hne Hl. unfold update_move_node. rewrite bind_run.
  unfold move_node_check. rewrite Hp, (truthy_str_nonempty p Hne). simpl or_empty.
  rewrite bind_run, (select_bounds_missing p t Hl). reflexivity.
Qed.

Lemma move_node_missing_parent_witness :
  update_move_node "t1" (mkRow "A" (Some "Z") (Some "R") (Some 2) (Some 5) "t0") fixture
  = (Raise IndexError, fixture).
Proof.
  apply (move_node_missing_parent "t1" _ "Z" fixture); [reflexivity | discriminate | reflexivity].
Defined.

(** X3. Moving a document that lacks one of its bounds in memory raises
    TypeError and writes nothing: the detaching statement compares with
    NULL and selects no row. *)
Theorem move_node_missing_bound ct (doc : Doc) t :
  lft doc = None \/ rgt doc = None ->
  move_node_check doc t = (Ok tt, t) ->
  update_move_node ct doc t = (Raise TypeError, t).
Proof.
  intros Hb Hc. unfold update_move_node. rewrite bind_run, Hc.
  rewrite bind_run. unfold move_node_detach, execute.
  rewrite update_rows_none.
  - unfold int_of. destruct Hb as [H|H]; rewrite H.
    + now destruct (rgt doc).
    + reflexivity.
  - intros r. destruct Hb as [H|H]; rewrite H; unfold Sql.ge, Sql.le;
      rewrite sql_cmp_null; [reflexivity | apply andb_false_r].
Qed.

Lemma move_node_missing_bound_witness :
  update_move_node "t1" (mkRow "A" (Some "") (Some "R") None (Some 5) "t0") fixture
  = (Raise TypeError, fixture).
Proof.
  apply (move_node_missing_bound "t1" _ fixture); [now left | reflexivity].
Defined.

Lemma move_node_make_room_null ct (doc : Doc) diff t p rp :
  parent doc = Some p -> p <> "" ->
  lookup p t = Some rp -> rgt rp = None ->
  move_node_make_room ct doc diff t
  = (Raise TypeError, map (shift_right ct p (bounds rp) diff) t).
Proof.
  intros Hp Hne Hl Hr. unfold move_node_make_room.
  rewrite Hp, (truthy_str_nonempty p Hne). simpl or_empty.
  rewrite bind_run. destruct (select_bounds_lookup _ _ _ Hl) as [rest ->].
  unfold first_row. rewrite bind_run. unfold ret at 1.
  unfold bind, execute, int_of, raise, Sql.update. rewrite !map_map.
  unfold shift_right, upd, bounds. rewrite Hr. cbn [fst snd]. reflexivity.
Qed.

Lemma shift_left_keeps_null_rgt ct (doc : Doc) diff x :
  rgt x = None -> rgt (shift_left ct doc diff x) = None.
Proof.
  intros H. unfold shift_left, upd.
  assert (G : forall v, Sql.gt None v = false) by reflexivity.
  destruct (Sql.gt (lft x) (rgt doc)); cbn [rgt lft set_modified set_rgt set_lft];
    rewrite H; cbn [Sql.sub option_map]; rewrite G, andb_false_r;
    cbn [rgt lft set_modified set_rgt set_lft]; congruence.
Qed.

(** X4. A move is not atomic by itself: when the new parent's row has no
    right bound, the loop check passes, the subtree is detached and the gap
    closed, and only then TypeError is raised; every row of the subtree is
    left with its bounds negated. *)
Theorem move_node_fails_after_detach ct (doc : Doc) t a b p rp :
  NoDup (map name t) ->
  lft doc = Some a -> rgt doc = Some b -> 0 < a -> a <= b ->
  parent doc = Some p -> p <> "" ->
  lookup p t = Some rp -> rgt rp = None ->
  exists t',
    update_move_node ct doc t = (Raise TypeError, t') /\
    Forall2 (fun r r' =>
               name r' = name r /\
               forall l h, lft r = Some l -> rgt r = Some h ->
                           a <= l -> l <= h -> h <= b ->
                           bounds r' = (Some (- l), Some (- h))) t t'.
Proof.
  intros Hnd Ha Hb Ha0 Hab Hp Hne Hrp Hnull.
  set (diff := b - a + 1).
  assert (Hcheck : move_node_check doc t = (Ok tt, t)).
  { rewrite (move_node_check_run doc t p rp Hp Hne Hrp), validate_loop_run, Hnull.
    assert (E : existsb (fun x => name_is (name doc) x && encloses (lft rp) None x) t = false).
    { clear. induction t as [|x t IH]; simpl; [reflexivity|].
      unfold encloses at 1, Sql.ge. rewrite sql_cmp_null, !andb_false_r. exact IH. }
    now rewrite E. }
  assert (Hrp2 : lookup p (map (shift_left ct doc diff) (map (dark_side ct doc) t))
                 = Some (shift_left ct doc diff (dark_side ct doc rp))).
  { rewrite lookup_map by (intros r; apply shift_left_name).
    rewrite lookup_map by (intros r; apply dark_side_name).
    now rewrite Hrp. }
  assert (Hnull2 : rgt (shift_left ct doc diff (dark_side ct doc rp)) = None).
  { apply shift_left_keeps_null_rgt. unfold dark_side, upd, Sql.le.
    rewrite Hnull. simpl. rewrite andb_false_r. exact Hnull. }
  exists (map (fun r => shift_right ct p
                          (bounds (shift_left ct doc diff (dark_side ct doc rp))) diff
                          (shift_left ct doc diff (dark_side ct doc r))) t).
  split.
  - unfold update_move_node. rewrite bind_run, Hcheck.
    rewrite bind_run, move_node_detach_run. unfold int_of. rewrite Ha, Hb.
    rewrite bind_run. unfold ret at 1. rewrite bind_run. unfold ret at 1.
    rewrite bind_run, move_node_compact_run. fold diff.
    rewrite bind_run.
    rewrite (move_node_make_room_null ct doc diff _ p _ Hp Hne Hrp2 Hnull2).
    now rewrite !map_map.
  - apply Forall2_map_r. intros r Hin. split.
    + destruct (shift_right_name ct p
                  (bounds (shift_left ct doc diff (dark_side ct doc rp))) diff
                  (shift_left ct doc diff (dark_side ct doc r))) as [-> _].
      destruct (shift_left_name ct doc diff (dark_side ct doc r)) as [-> _].
      apply dark_side_name.
    + intros l h Hl Hh H1 H2 H3.
      pose proof (dark_side_moved ct doc r a b l h Ha Hb Hl Hh H1 H3) as Hd.
      unfold bounds in Hd. injection Hd as Hdl Hdh.
      destruct (dark_side_name ct doc r) as [Hn _].
      assert (Hb0 : 0 <= b) by lia.
      assert (Hl0 : - l < 0) by lia.
      assert (Hh0 : - h < 0) by lia.
      rewrite (shift_left_dark ct doc diff _ a b (- l) (- h) Ha Hb Hb0 Hdl Hdh Hl0 Hh0).
      rewrite (shift_right_dark ct p _ diff _ (- l) (- h)); try assumption.
      * unfold bounds. now rewrite Hdl, Hdh.
      * rewrite Hn. intros E.
        pose proof (lookup_unique t r Hnd Hin) as Hu. rewrite E, Hrp in Hu.
        injection Hu as Hu. subst rp. congruence.
      * unfold bounds. simpl. rewrite Hnull2. discriminate.
Qed.

Lemma move_node_fails_after_detach_witness :
  let t := fixture ++ [new_row "N" "R"] in
  exists t',
    update_move_node "t1" (mkRow "A" (Some "N") (Some "R") (Some 2) (Some 5) "t0") t
    = (Raise TypeError, t') /\
    Forall2 (fun r r' =>
               name r' = name r /\
               forall l h, lft r = Some l -> rgt r = Some h ->
                           2 <= l -> l <= h -> h <= 5 ->
                           bounds r' = (Some (- l), Some (- h))) t t'.
Proof.
  intros t.
  apply (move_node_fails_after_detach "t1" _ t 2 5 "N" (new_row "N" "R"));
    try reflexivity; try lia; try discriminate.
  simpl. repeat constructor; simpl; intuition discriminate.
Defined.

(** ** Moving a subtree to the root level *)

Lemma update_move_node_to_root_run ct (doc : Doc) t a b m :
  lft doc = Some a -> rgt doc = Some b ->
  truthy_str (parent doc) = false ->
  max_rgt (map (shift_left ct doc (b - a + 1)) (map (dark_side ct doc) t)) = Some m ->
  update_move_node ct doc t
  = (Ok tt, map (fun r => bring_back ct (m + 1 - a)
                            (shift_left ct doc (b - a + 1) (dark_side ct doc r))) t).
Proof.
  intros Ha Hb Hp Hm. unfold update_move_node. rewrite bind_run.
  unfold move_node_check. rewrite Hp. unfold ret at 1.
  rewrite bind_run, move_node_detach_run. unfold int_of. rewrite Ha, Hb.
  rewrite bind_run. unfold ret at 1. rewrite bind_run. unfold ret at 1.
  rewrite bind_run, move_node_compact_run.
  rewrite bind_run, (move_node_make_room_root ct doc _ _ m a Hp Hm Ha).
  rewrite move_node_reattach_run, !map_map. reflexivity.
Qed.

Lemma outside_row_closed_gap ct (doc : Doc) x a b l h :
  lft doc = Some a -> rgt doc = Some b -> 0 < a -> a <= b ->
  lft x = Some l -> rgt x = Some h -> 0 < l < h -> ~ (a <= l /\ h <= b) ->
  bounds (shift_left ct doc (b - a + 1) (dark_side ct doc x))
  = (Some (fst (closed_gap a b l h)), Some (snd (closed_gap a b l h))) /\
  0 < fst (closed_gap a b l h) /\ 0 < snd (closed_gap a b l h).
Proof.
  intros Ha Hb Ha0 Hab Hl Hh Hv Hout.
  rewrite (dark_side_other ct doc x a b l h Ha Hb Hl Hh Hout).
  unfold shift_left, upd, bounds, closed_gap, Sql.lt, Sql.gt, Sql.cmp.
  rewrite Ha, Hb, Hl. zcases; rewrite ?Hl, ?Hh; zcases; try lia;
    rewrite ?Hl, ?Hh; zcases; try lia; (split; [reflexivity | lia]).
Qed.

Lemma bring_back_positive ct nd x l :
  lft x = Some l -> 0 <= l -> bring_back ct nd x = x.
Proof.
  intros Hl H. unfold bring_back, upd, Sql.lt, Sql.cmp. rewrite Hl.
  zcases; [lia | reflexivity].
Qed.

(** The rows of a move to the root level, before the subtree is placed. *)
Lemma move_to_root_rows ct (doc : Doc) t a b nd :
  valid_table t ->
  lft doc = Some a -> rgt doc = Some b -> 0 < a -> a <= b ->
  forall r l h, In r t -> lft r = Some l -> rgt r = Some h ->
    (a <= l -> h <= b ->
     rgt (shift_left ct doc (b - a + 1) (dark_side ct doc r)) = Some (- h) /\
     bounds (bring_back ct nd (shift_left ct doc (b - a + 1) (dark_side ct doc r)))
     = (Some (l + nd), Some (h + nd))) /\
    (~ (a <= l /\ h <= b) ->
     rgt (shift_left ct doc (b - a + 1) (dark_side ct doc r))
     = Some (snd (closed_gap a b l h)) /\
     bounds (bring_back ct nd (shift_left ct doc (b - a + 1) (dark_side ct doc r)))
     = (Some (fst (closed_gap a b l h)), Some (snd (closed_gap a b l h)))).
Proof.
  intros Hv Ha Hb Ha0 Hab r l h Hin Hl Hh.
  destruct (Hv r Hin) as (l0 & h0 & Hl0 & Hh0 & Hlh).
  rewrite Hl in Hl0. rewrite Hh in Hh0. injection Hl0 as <-. injection Hh0 as <-.
  split.
  - intros H1 H2.
    pose proof (dark_side_moved ct doc r a b l h Ha Hb Hl Hh H1 H2) as Hd.
    unfold bounds in Hd. injection Hd as Hdl Hdh.
    assert (Hb0 : 0 <= b) by lia.
    assert (Hl0 : - l < 0) by lia.
    assert (Hh0 : - h < 0) by lia.
    rewrite (shift_left_dark ct doc _ _ a b (- l) (- h) Ha Hb Hb0 Hdl Hdh Hl0 Hh0).
    split; [exact Hdh|].
    rewrite (bring_back_dark ct nd _ (- l) (- h) Hdl Hdh Hl0).
    f_equal; f_equal; lia.
  - intros Hout.
    destruct (outside_row_closed_gap ct doc r a b l h Ha Hb Ha0 Hab Hl Hh Hlh Hout)
      as (Hbnd & Hf & Hs).
    unfold bounds in Hbnd. injection Hbnd as Hbl Hbh.
    split; [exact Hbh|].
    rewrite (bring_back_positive ct nd _ _ Hbl) by lia.
    unfold bounds. now rewrite Hbl, Hbh.
Qed.

Lemma move_row_names ct (doc : Doc) diff nd r :
  name (bring_back ct nd (shift_left ct doc diff (dark_side ct doc r))) = name r /\
  parent (bring_back ct nd (shift_left ct doc diff (dark_side ct doc r))) = parent r.
Proof.
  destruct (bring_back_name ct nd (shift_left ct doc diff (dark_side ct doc r))) as [-> ->].
  destruct (shift_left_name ct doc diff (dark_side ct doc r)) as [-> ->].
  apply dark_side_name.
Qed.

(** X5. Moving a subtree [(a, b)] to the root level in a table of valid
    bounds that has a row outside the subtree: the gap is closed (rows after
    the subtree shift left by its width, rows around it shrink by its width
    on the right, other rows stay), and the subtree is placed right after
    the largest right bound [m] that is left, its node at
    [(m + 1, m + 1 + b - a)]. *)
Theorem move_subtree_to_root ct (doc : Doc) t rd a b :
  valid_table t ->
  lookup (name doc) t = Some rd ->
  lft rd = Some a -> rgt rd = Some b ->
  lft doc = Some a -> rgt doc = Some b ->
  truthy_str (parent doc) = false ->
  (exists x, In x t /\ ~ in_subtree a b x) ->
  exists t' m,
    update_move_node ct doc t = (Ok tt, t') /\
    Forall2 (fun r r' =>
               name r' = name r /\ parent r' = parent r /\
               forall l h, lft r = Some l -> rgt r = Some h ->
                 (a <= l -> h <= b ->
                  bounds r' = (Some (l - a + (m + 1)), Some (h - a + (m + 1)))) /\
                 (~ (a <= l /\ h <= b) ->
                  bounds r' = (Some (fst (closed_gap a b l h)),
                               Some (snd (closed_gap a b l h))))) t t' /\
    (exists x l h, In x t /\ lft x = Some l /\ rgt x = Some h /\
                   ~ (a <= l /\ h <= b) /\ snd (closed_gap a b l h) = m) /\
    (forall x l h, In x t -> lft x = Some l -> rgt x = Some h ->
                   ~ (a <= l /\ h <= b) -> snd (closed_gap a b l h) <= m).
Proof.
  intros Hv Hrd Hra Hrb Ha Hb Hp (x0 & Hx0 & Hout0).
  destruct (lookup_In _ _ _ Hrd) as [Hrd_in _].
  assert (Hab : 0 < a < b).
  { destruct (Hv rd Hrd_in) as (l & h & Hl & Hh & H). congruence. }
  assert (Ha0 : 0 < a) by lia. assert (Hab' : a <= b) by lia.
  set (g := fun r => shift_left ct doc (b - a + 1) (dark_side ct doc r)).
  destruct (Hv x0 Hx0) as (l0 & h0 & Hl0 & Hh0 & Hv0).
  assert (Hout0' : ~ (a <= l0 /\ h0 <= b)).
  { intros [H1 H2]. apply Hout0. exists l0, h0. auto. }
  destruct (move_to_root_rows ct doc t a b 0 Hv Ha Hb Ha0 Hab' x0 l0 h0 Hx0 Hl0 Hh0)
    as [_ Hx0g]. destruct (Hx0g Hout0') as [Hx0r _].
  destruct (max_rgt_exists (map (shift_left ct doc (b - a + 1)) (map (dark_side ct doc) t))
              _ _ (in_map _ _ _ (in_map _ _ _ Hx0)) Hx0r) as (m & Hm).
  pose proof Hm as Hmax. unfold max_rgt in Hmax. apply sql_max_some in Hmax.
  destruct Hmax as [Hm_in Hm_le].
  assert (Himg : forall r l h, In r t -> lft r = Some l -> rgt r = Some h ->
                   In (rgt (g r)) (map rgt (map (shift_left ct doc (b - a + 1))
                                              (map (dark_side ct doc) t)))).
  { intros r l h Hin _ _. rewrite !map_map. apply in_map_iff. exists r. now split. }
  assert (Hpos : 0 < m).
  { destruct (outside_row_closed_gap ct doc x0 a b l0 h0 Ha Hb Ha0 Hab' Hl0 Hh0 Hv0 Hout0')
      as (_ & _ & Hs).
    pose proof (Himg x0 l0 h0 Hx0 Hl0 Hh0) as Hi. unfold g in Hi. rewrite Hx0r in Hi.
    specialize (Hm_le _ Hi). lia. }
  exists (map (fun r => bring_back ct (m + 1 - a) (g r)) t), m.
  split; [exact (update_move_node_to_root_run ct doc t a b m Ha Hb Hp Hm)|].
  split; [|split].
  - apply Forall2_map_r. intros r Hin. unfold g.
    destruct (move_row_names ct doc (b - a + 1) (m + 1 - a) r) as [Hn Hpar].
    split; [exact Hn|]. split; [exact Hpar|].
    intros l h Hl Hh.
    destruct (move_to_root_rows ct doc t a b (m + 1 - a) Hv Ha Hb Ha0 Hab' r l h Hin Hl Hh)
      as [Hin_s Hout_s].
    split.
    + intros H1 H2. destruct (Hin_s H1 H2) as [_ ->]. f_equal; f_equal; lia.
    + intros Hout. now destruct (Hout_s Hout) as [_ ->].
  - rewrite !map_map in Hm_in. apply in_map_iff in Hm_in.
    destruct Hm_in as (r & Hr & Hin).
    destruct (Hv r Hin) as (l & h & Hl & Hh & Hlh).
    destruct (move_to_root_rows ct doc t a b 0 Hv Ha Hb Ha0 Hab' r l h Hin Hl Hh)
      as [Hin_s Hout_s].
    assert (Hdec : (a <= l /\ h <= b) \/ ~ (a <= l /\ h <= b)) by lia.
    destruct Hdec as [[H1 H2]|Hout].
    + destruct (Hin_s H1 H2) as [Hr' _]. rewrite Hr' in Hr. injection Hr as Hr. lia.
    + destruct (Hout_s Hout) as [Hr' _]. rewrite Hr' in Hr. injection Hr as Hr.
      exists r, l, h. auto.
  - intros x l h Hin Hl Hh Hout.
    destruct (move_to_root_rows ct doc t a b 0 Hv Ha Hb Ha0 Hab' x l h Hin Hl Hh)
      as [_ Hout_s].
    destruct (Hout_s Hout) as [Hr' _].
    apply Hm_le. rewrite <- Hr'. now apply (Himg x l h).
Qed.

Lemma move_subtree_to_root_witness :
  let doc := mkRow "A" (Some "") (Some "R") (Some 2) (Some 5) "t0" in
  valid_table fixture /\
  exists t' m,
    update_move_node "t1" doc fixture = (Ok tt, t') /\
    Forall2 (fun r r' =>
               name r' = name r /\ parent r' = parent r /\
               forall l h, lft r = Some l -> rgt r = Some h ->
                 (2 <= l -> h <= 5 ->
                  bounds r' = (Some (l - 2 + (m + 1)), Some (h - 2 + (m + 1)))) /\
                 (~ (2 <= l /\ h <= 5) ->
                  bounds r' = (Some (fst (closed_gap 2 5 l h)),
                               Some (snd (closed_gap 2 5 l h))))) fixture t' /\
    (exists x l h, In x fixture /\ lft x = Some l /\ rgt x = Some h /\
                   ~ (2 <= l /\ h <= 5) /\ snd (closed_gap 2 5 l h) = m) /\
    (forall x l h, In x fixture -> lft x = Some l -> rgt x = Some h ->
                   ~ (2 <= l /\ h <= 5) -> snd (closed_gap 2 5 l h) <= m).
Proof.
  intros doc.
  assert (Hv : valid_table fixture) by (apply valid_table_b_sound; reflexivity).
  split; [exact Hv|].
  apply (move_subtree_to_root "t1" doc fixture (row "A" "R" 2 5) 2 5 Hv);
    try reflexivity.
  exists (row "R" "" 1 10). split; [simpl; auto|].
  intros (l & h & Hl & Hh & H1 & H2). simpl in Hl, Hh.
  injection Hl as <-. injection Hh as <-. lia.
Defined.

(** X6. When every row of the table lies in the moved subtree, a move to the
    root level takes the largest right bound while all rows are negated, and
    the node ends with a negative left bound. *)
Theorem move_whole_table_to_root ct (doc : Doc) t rd a b :
  valid_table t ->
  lookup (name doc) t = Some rd ->
  lft rd = Some a -> rgt rd = Some b ->
  lft doc = Some a -> rgt doc = Some b ->
  truthy_str (parent doc) = false ->
  (forall x, In x t -> in_subtree a b x) ->
  exists t' rd' l',
    update_move_node ct doc t = (Ok tt, t') /\
    lookup (name doc) t' = Some rd' /\ lft rd' = Some l' /\ l' < 0.
Proof.
  intros Hv Hrd Hra Hrb Ha Hb Hp Hall.
  destruct (lookup_In _ _ _ Hrd) as [Hrd_in _].
  assert (Hab : 0 < a < b).
  { destruct (Hv rd Hrd_in) as (l & h & Hl & Hh & H). congruence. }
  assert (Ha0 : 0 < a) by lia. assert (Hab' : a <= b) by lia.
  pose proof (move_to_root_rows ct doc t a b) as Hrows.
  destruct (Hrows 0 Hv Ha Hb Ha0 Hab' rd a b Hrd_in Hra Hrb) as [Hrd_s _].
  destruct (Hrd_s (Z.le_refl a) (Z.le_refl b)) as [Hrd_r _].
  destruct (max_rgt_exists (map (shift_left ct doc (b - a + 1)) (map (dark_side ct doc) t))
              _ _ (in_map _ _ _ (in_map _ _ _ Hrd_in)) Hrd_r) as (m & Hm).
  assert (Hneg : m < -1).
  { pose proof Hm as Hmax. unfold max_rgt in Hmax. apply sql_max_some in Hmax.
    destruct Hmax as [Hm_in _]. rewrite !map_map in Hm_in.
    apply in_map_iff in Hm_in. destruct Hm_in as (r & Hr & Hin).
    destruct (Hall r Hin) as (l & h & Hl & Hh & H1 & H2).
    destruct (Hv r Hin) as (l1 & h1 & Hl1 & Hh1 & Hlh).
    rewrite Hl in Hl1. rewrite Hh in Hh1. injection Hl1 as <-. injection Hh1 as <-.
    destruct (Hrows 0 Hv Ha Hb Ha0 Hab' r l h Hin Hl Hh) as [Hs _].
    destruct (Hs H1 H2) as [Hr' _]. rewrite Hr' in Hr. injection Hr as Hr. lia. }
  destruct (Hrows (m + 1 - a) Hv Ha Hb Ha0 Hab' rd a b Hrd_in Hra Hrb) as [Hs _].
  destruct (Hs (Z.le_refl a) (Z.le_refl b)) as [_ Hbnd].
  unfold bounds in Hbnd. injection Hbnd as Hl' _.
  eexists. eexists. exists (a + (m + 1 - a)).
  split; [exact (update_move_node_to_root_run ct doc t a b m Ha Hb Hp Hm)|].
  split; [|split; [exact Hl' | lia]].
  rewrite lookup_map by (intros r; apply move_row_names). now rewrite Hrd.
Qed.

Lemma move_whole_table_to_root_witness :
  let doc := mkRow "R" None (Some "") (Some 1) (Some 10) "t0" in
  valid_table fixture /\
  (forall x, In x fixture -> in_subtree 1 10 x) /\
  exists t' rd' l',
    update_move_node "t1" doc fixture = (Ok tt, t') /\
    lookup "R" t' = Some rd' /\ lft rd' = Some l' /\ l' < 0.
Proof.
  intros doc.
  assert (Hv : valid_table fixture) by (apply valid_table_b_sound; reflexivity).
  assert (Hall : forall x, In x fixture -> in_subtree 1 10 x).
  { intros x Hin. simpl in Hin.
    repeat (destruct Hin as [<-|Hin];
            [unfold in_subtree; simpl; eexists; eexists;
             split; [reflexivity | split; [reflexivity | lia]]|]).
    contradiction. }
  split; [exact Hv|]. split; [exact Hall|].
  exact (move_whole_table_to_root "t1" doc fixture (row "R" "" 1 10) 1 10
           Hv eq_refl eq_refl eq_refl eq_refl eq_refl eq_refl Hall).
Defined.

Example move_only_root :
  bounds_of (snd (update_move_node "t1" (mkRow "R" None (Some "") (Some 1) (Some 10) "t0")
                    fixture))
  = [("R", Some (-3), Some 6); ("A", Some (-2), Some 1); ("A1", Some (-1), Some 0);
     ("B", Some 2, Some 5); ("B1", Some 3, Some 4)].
Proof. reflexivity. Qed.

(** ** Insertion and the invariants of the table *)

Lemma widened_mono k x y :
  x < y ->
  exists x' y', widened k (Some x) = Some x' /\ widened k (Some y) = Some y' /\
                x' < y' /\ x <= x' /\ y <= y'.
Proof.
  intros H. unfold widened, Sql.ge, Sql.cmp, Sql.add. simpl.
  destruct (Z.geb_spec x k), (Z.geb_spec y k); eexists; eexists;
    (split; [reflexivity | split; [reflexivity | lia]]).
Qed.

Lemma place_row_other ct n k r :
  name r <> n ->
  bounds (place_row ct n k r) = (widened k (lft r), widened k (rgt r)).
Proof.
  intros H. destruct (place_row_fields ct n k r) as (_ & _ & _ & Hb).
  unfold name_is in Hb. apply String.eqb_neq in H. now rewrite H in Hb.
Qed.

Lemma place_row_self ct n k r :
  name r = n -> bounds (place_row ct n k r) = (Some k, Some (k + 1)).
Proof.
  intros H. destruct (place_row_fields ct n k r) as (_ & _ & _ & Hb).
  unfold name_is in Hb. apply String.eqb_eq in H. now rewrite H in Hb.
Qed.

Lemma place_row_keeps_containment ct n k a d :
  name a <> n -> name d <> n -> contains_strictly a d ->
  contains_strictly (place_row ct n k a) (place_row ct n k d).
Proof.
  intros Ha Hd (al & ar & dl & dr & Hal & Har & Hdl & Hdr & H1 & H2).
  pose proof (place_row_other ct n k a Ha) as Ba.
  pose proof (place_row_other ct n k d Hd) as Bd.
  rewrite Hal, Har in Ba. rewrite Hdl, Hdr in Bd.
  destruct (widened_mono k al dl H1) as (al' & dl' & Eal & Edl & Hl & _).
  destruct (widened_mono k dr ar H2) as (dr' & ar' & Edr & Ear & Hr & _).
  rewrite Eal, Ear in Ba. rewrite Edl, Edr in Bd.
  unfold bounds in Ba, Bd. injection Ba as Bal Bar. injection Bd as Bdl Bdr.
  exists al', ar', dl', dr'. repeat split; assumption.
Qed.

Lemma lookup_map_inv n (g : Row -> Row) t r' :
  (forall r, name (g r) = name r) ->
  lookup n (map g t) = Some r' ->
  exists r, lookup n t = Some r /\ r' = g r.
Proof.
  intros Hg H. rewrite (lookup_map n g t Hg) in H.
  destruct (lookup n t) as [r|]; [|discriminate].
  injection H as <-. now exists r.
Qed.

(** X7. Inserting a fresh leaf keeps the invariants: when the rows other
    than the new one have valid bounds and lie strictly inside their
    parents' rows, and the new row names an existing parent and has no
    children yet, then after the insertion every row has valid bounds and
    lies strictly inside its parent's row. *)
Theorem insert_keeps_invariants ct (doc : Doc) p t rp pl pr rdoc :
  NoDup (map name t) ->
  p <> "" ->
  lookup p t = Some rp -> lft rp = Some pl -> rgt rp = Some pr -> 0 < pl < pr ->
  lookup (name doc) t = Some rdoc -> parent rdoc = Some p -> lft rdoc = None ->
  (forall r, In r t -> name r <> name doc -> valid_row r) ->
  (forall d rd q rq,
     lookup d t = Some rd -> parent rd = Some q -> lookup q t = Some rq ->
     d <> name doc -> contains_strictly rq rd) ->
  (forall r, In r t -> parent r <> Some (name doc)) ->
  exists t',
    update_add_node ct doc p t = (Ok pr, t') /\ nested t' /\ valid_table t'.
Proof.
  intros Hnd Hne Hp Hpl Hpr Hplr Hdoc Hdocp Hdocl Hvalid Hnest Hleaf.
  set (g := place_row ct (name doc) pr).
  assert (Hg : forall r, name (g r) = name r)
    by (intros r; apply (place_row_fields ct (name doc) pr r)).
  assert (Ht : add_node_target doc p t = (Ok pr, t)).
  { rewrite add_node_target_outcome.
    destruct (String.eqb_spec p ""); [contradiction|]. rewrite Hp.
    destruct (existsb _ t) eqn:E.
    - apply existsb_exists in E. destruct E as (x & Hin & Hx).
      apply andb_prop in Hx. destruct Hx as [Hx1 Hx2].
      apply String.eqb_eq in Hx1.
      pose proof (lookup_unique t x Hnd Hin) as Hu. rewrite Hx1, Hdoc in Hu.
      injection Hu as <-. unfold encloses, Sql.le, Sql.cmp in Hx2.
      rewrite Hdocl in Hx2. discriminate.
    - rewrite Hpr. simpl. destruct (Z.eqb_spec pr 0); [lia | reflexivity]. }
  assert (Hrp_other : name rp <> name doc).
  { intros E. destruct (lookup_In _ _ _ Hp) as [Hin _].
    pose proof (lookup_unique t rp Hnd Hin) as Hu. rewrite E, Hdoc in Hu.
    injection Hu as <-. congruence. }
  exists (map g t). split; [exact (update_add_node_run ct doc p t pr t Ht)|]. split.
  - intros d rd' q rq' Hd Hpar Hq.
    destruct (lookup_map_inv d g t rd' Hg Hd) as (rd & Hrd & ->).
    destruct (lookup_map_inv q g t rq' Hg Hq) as (rq & Hrq & ->).
    destruct (lookup_In _ _ _ Hrd) as [Hrd_in Hrd_name].
    destruct (lookup_In _ _ _ Hrq) as [Hrq_in Hrq_name].
    assert (Hpar' : parent rd = Some q).
    { rewrite <- Hpar. symmetry. apply (place_row_fields ct (name doc) pr rd). }
    assert (Hq_other : name rq <> name doc).
    { rewrite Hrq_name. intros E. apply (Hleaf rd Hrd_in). now rewrite Hpar', E. }
    destruct (String.eqb_spec d (name doc)) as [Ed|Ed].
    + rewrite Ed, Hdoc in Hrd. injection Hrd as <-.
      rewrite Hdocp in Hpar'. injection Hpar' as <-.
      rewrite Hp in Hrq. injection Hrq as <-.
      assert (Hself : name rdoc = name doc) by congruence.
      pose proof (place_row_self ct (name doc) pr rdoc Hself) as Bd.
      pose proof (place_row_other ct (name doc) pr rp Hrp_other) as Bp.
      rewrite Hpl, Hpr, (widened_lt pr pl), (widened_ge pr pr) in Bp by lia.
      unfold bounds in Bd, Bp. injection Bd as Bdl Bdr. injection Bp as Bpl Bpr.
      exists pl, (pr + 2), pr, (pr + 1). unfold g. repeat split; try assumption; lia.
    + apply place_row_keeps_containment; try assumption.
      * now rewrite Hrd_name.
      * exact (Hnest d rd q rq Hrd Hpar' Hrq Ed).
  - intros r' Hin. apply in_map_iff in Hin. destruct Hin as (r & <- & Hin).
    destruct (String.eqb_spec (name r) (name doc)) as [E|E].
    + pose proof (place_row_self ct (name doc) pr r E) as B.
      unfold bounds in B. injection B as Bl Br.
      exists pr, (pr + 1). unfold g. repeat split; try assumption; lia.
    + destruct (Hvalid r Hin E) as (l & h & Hl & Hh & Hlh).
      pose proof (place_row_other ct (name doc) pr r E) as B.
      destruct (widened_mono pr l h ltac:(lia)) as (l' & h' & El & Eh & H1 & H2 & _).
      rewrite Hl, Hh, El, Eh in B. unfold bounds in B. injection B as Bl Br.
      exists l', h'. unfold g. repeat split; try assumption; lia.
Qed.

Lemma insert_keeps_invariants_witness :
  let t := fixture ++ [mkRow "C" (Some "B") None None None "t0"] in
  exists t',
    update_add_node "t1" (mkRow "C" (Some "B") None None None "t0") "B" t = (Ok 9, t') /\
    nested t' /\ valid_table t'.
Proof.
  intros t.
  assert (Hnd : NoDup (map name t)).
  { simpl. repeat constructor; simpl; intuition discriminate. }
  assert (Hne : "B" <> "") by discriminate.
  assert (Hlr : 0 < 6 < 9) by lia.
  assert (Hvalid : forall r, In r t -> name r <> "C" -> valid_row r).
  { intros r Hin Hn. simpl in Hin.
    repeat (destruct Hin as [<-|Hin];
            [first [ exfalso; apply Hn; reflexivity
                   | eexists; eexists; split; [reflexivity | split; [reflexivity | lia]] ]|]).
    contradiction. }
  assert (Hnest : forall d rd q rq,
             lookup d t = Some rd -> parent rd = Some q -> lookup q t = Some rq ->
             d <> "C" -> contains_strictly rq rd).
  { intros d rd q rq Hd Hpar Hq Hdc.
    destruct (lookup_In _ _ _ Hd) as [Hin Hname]. simpl in Hin.
    repeat (destruct Hin as [<-|Hin];
            [simpl in Hpar, Hname;
             first [ exfalso; apply Hdc; now rewrite <- Hname
                   | injection Hpar as <-; vm_compute in Hq;
                     first [ discriminate Hq
                           | injection Hq as <-; apply contains_strictly_b_sound;
                             reflexivity ] ]|]).
    contradiction. }
  assert (Hleaf : forall r, In r t -> parent r <> Some "C").
  { intros r Hin. simpl in Hin.
    repeat (destruct Hin as [<-|Hin]; [discriminate|]). contradiction. }
  exact (insert_keeps_invariants "t1" (mkRow "C" (Some "B") None None None "t0") "B" t
           (row "B" "R" 6 9) 6 9 (mkRow "C" (Some "B") None None None "t0")
           Hnd Hne eq_refl eq_refl eq_refl Hlr eq_refl eq_refl eq_refl
           Hvalid Hnest Hleaf).
Defined.

Lemma next_root_right_above t r h :
  In r t -> is_root r = true -> rgt r = Some h -> 0 < h ->
  h < or_one (Some (next_root_right t)).
Proof.
  intros Hin Hroot Hr Hpos. unfold next_root_right.
  assert (Hi : In (Some h) (map rgt (Sql.select is_root t))).
  { apply in_map_iff. exists r. split; [exact Hr|]. apply filter_In. now split. }
  destruct (Sql.max (map rgt (Sql.select is_root t))) as [m|] eqn:E.
  - destruct (sql_max_some _ _ E) as [_ Hle]. specialize (Hle h Hi).
    simpl. destruct (Z.eqb_spec (m + 1) 0); lia.
  - rewrite sql_max_none in E. specialize (E _ Hi). discriminate.
Qed.

(** X8. Inserting a root into a forest appends it: when the other rows have
    valid bounds, lie strictly inside their parents' rows, and each is a
    root or below a root, the new node gets [(k, k + 1)] with [k] above
    every right bound of the table, and no other row changes its bounds. *)
Theorem insert_root_appends ct (doc : Doc) t :
  NoDup (map name t) ->
  nested t ->
  (forall r, In r t -> name r <> name doc -> valid_row r) ->
  (forall r, In r t ->
     is_root r = true \/
     exists n rn, descendant t (name r) n /\ lookup n t = Some rn /\ is_root rn = true) ->
  exists k t',
    update_add_node ct doc "" t = (Ok k, t') /\
    Forall2 (fun r r' =>
               name r' = name r /\ parent r' = parent r /\
               (name r = name doc -> bounds r' = (Some k, Some (k + 1))) /\
               (name r <> name doc -> bounds r' = bounds r)) t t' /\
    (forall r h, In r t -> name r <> name doc -> rgt r = Some h -> h < k).
Proof.
  intros Hnd Hnest Hvalid Hforest.
  set (k := or_one (Some (next_root_right t))).
  assert (Hbelow : forall r l h, In r t -> name r <> name doc ->
                     lft r = Some l -> rgt r = Some h -> l < k /\ h < k).
  { intros r l h Hin Hn Hl Hh.
    destruct (Hvalid r Hin Hn) as (l0 & h0 & Hl0 & Hh0 & Hlh).
    rewrite Hl in Hl0. rewrite Hh in Hh0. injection Hl0 as <-. injection Hh0 as <-.
    assert (Hk : h < k); [|lia].
    destruct (Hforest r Hin) as [Hroot | (n & rn & Hdesc & Hrn & Hroot)].
    - apply (next_root_right_above t r h Hin Hroot Hh). lia.
    - destruct (descendant_contained t (name r) n rn Hnest Hdesc Hrn) as (rd & Hrd & Hc).
      rewrite (lookup_unique t r Hnd Hin) in Hrd. injection Hrd as <-.
      destruct Hc as (al & ar & dl & dr & Hal & Har & Hdl & Hdr & H1 & H2).
      rewrite Hh in Hdr. injection Hdr as <-.
      destruct (lookup_In _ _ _ Hrn) as [Hrn_in _].
      pose proof (next_root_right_above t rn ar Hrn_in Hroot Har ltac:(lia)).
      fold k in H. lia. }
  exists k, (map (place_row ct (name doc) k) t).
  split; [apply update_add_node_run, add_node_target_root|]. split.
  - apply Forall2_map_r. intros r Hin.
    destruct (place_row_fields ct (name doc) k r) as (Hn & Hp & _ & _).
    split; [exact Hn|]. split; [exact Hp|]. split.
    + intros E. now apply place_row_self.
    + intros E. rewrite (place_row_other ct (name doc) k r E).
      destruct (Hvalid r Hin E) as (l & h & Hl & Hh & Hlh).
      destruct (Hbelow r l h Hin E Hl Hh) as [H1 H2].
      unfold bounds. now rewrite Hl, Hh, (widened_lt k l H1), (widened_lt k h H2).
  - intros r h Hin E Hh.
    destruct (Hvalid r Hin E) as (l & h0 & Hl & Hh0 & Hlh).
    rewrite Hh in Hh0. injection Hh0 as <-.
    now destruct (Hbelow r l h Hin E Hl Hh).
Qed.

Lemma insert_root_appends_witness :
  let t := fixture ++ [new_row "S" ""] in
  exists k t',
    update_add_node "t1" (new_row "S" "") "" t = (Ok k, t') /\
    Forall2 (fun r r' =>
               name r' = name r /\ parent r' = parent r /\
               (name r = "S" -> bounds r' = (Some k, Some (k + 1))) /\
               (name r <> "S" -> bounds r' = bounds r)) t t' /\
    (forall r h, In r t -> name r <> "S" -> rgt r = Some h -> h < k).
Proof.
  intros t.
  assert (Hnd : NoDup (map name t)).
  { simpl. repeat constructor; simpl; intuition discriminate. }
  assert (Hnest : nested t) by (apply nested_b_sound; reflexivity).
  assert (Hvalid : forall r, In r t -> name r <> "S" -> valid_row r).
  { intros r Hin Hn. simpl in Hin.
    repeat (destruct Hin as [<-|Hin];
            [first [ exfalso; apply Hn; reflexivity
                   | eexists; eexists; split; [reflexivity | split; [reflexivity | lia]] ]|]).
    contradiction. }
  assert (HR : lookup "R" t = Some (row "R" "" 1 10)) by reflexivity.
  assert (HA : descendant t "A" "R")
    by (apply (descendant_child t "A" "R" (row "A" "R" 2 5)); reflexivity).
  assert (HB : descendant t "B" "R")
    by (apply (descendant_child t "B" "R" (row "B" "R" 6 9)); reflexivity).
  assert (Hforest : forall r, In r t ->
            is_root r = true \/
            exists n rn, descendant t (name r) n /\ lookup n t = Some rn /\
                         is_root rn = true).
  { intros r Hin. simpl in Hin.
    destruct Hin as [<-|[<-|[<-|[<-|[<-|[<-|[]]]]]]].
    - now left.
    - right. exists "R", (row "R" "" 1 10). auto.
    - right. exists "R", (row "R" "" 1 10). split; [|auto].
      apply (descendant_step t "A1" "A" "R" (row "A1" "A" 3 4)); auto.
    - right. exists "R", (row "R" "" 1 10). auto.
    - right. exists "R", (row "R" "" 1 10). split; [|auto].
      apply (descendant_step t "B1" "B" "R" (row "B1" "B" 7 8)); auto.
    - now left. }
  exact (insert_root_appends "t1" (new_row "S" "") t Hnd Hnest Hvalid Hforest).
Defined.

(** ** The read queries *)

Lemma min_lft_row (ps : list Row) :
  ps <> [] ->
  (forall x, In x ps -> exists l, lft x = Some l) ->
  exists r0 l0, In r0 ps /\ lft r0 = Some l0 /\
                forall x l, In x ps -> lft x = Some l -> l0 <= l.
Proof.
  induction ps as [|p ps IH]; intros Hne Hl; [contradiction|].
  destruct (Hl p (or_introl eq_refl)) as (lp & Hlp).
  destruct ps as [|q ps'].
  - exists p, lp. split; [now left|]. split; [exact Hlp|].
    intros x l [<-|[]] Hx. rewrite Hlp in Hx. injection Hx as <-. lia.
  - destruct IH as (r0 & l0 & Hin & Hr0 & Hmin); [discriminate | |].
    { intros x Hx. apply Hl. now right. }
    destruct (Z.le_gt_cases lp l0) as [Hle|Hgt].
    + exists p, lp. split; [now left|]. split; [exact Hlp|].
      intros x l [<-|Hx] Hxl.
      * rewrite Hlp in Hxl. injection Hxl as <-. lia.
      * specialize (Hmin x l Hx Hxl). lia.
    + exists r0, l0. split; [now right|]. split; [exact Hr0|].
      intros x l [<-|Hx] Hxl.
      * rewrite Hlp in Hxl. injection Hxl as <-. lia.
      * exact (Hmin x l Hx Hxl).
Qed.

Lemma no_container_spec t r :
  (List.length (Sql.select (fun t2 => Sql.lt (lft t2) (lft r) && Sql.gt (rgt t2) (rgt r)) t)
   =? 0)%nat = true <->
  forall x, In x t -> ~ contains_strictly x r.
Proof.
  change (fun t2 : Row => Sql.lt (lft t2) (lft r) && Sql.gt (rgt t2) (rgt r))
    with (is_ancestor_of (bounds r)).
  unfold Sql.select. split.
  - intros H x Hin Hc. apply Nat.eqb_eq in H.
    apply is_ancestor_of_spec in Hc.
    assert (Hx : In x (filter (is_ancestor_of (bounds r)) t)) by (apply filter_In; now split).
    destruct (filter (is_ancestor_of (bounds r)) t); [contradiction | discriminate].
  - intros H. destruct (filter (is_ancestor_of (bounds r)) t) as [|x l] eqn:E; [reflexivity|].
    exfalso. assert (Hx : In x (filter (is_ancestor_of (bounds r)) t)) by (rewrite E; now left).
    apply filter_In in Hx. destruct Hx as [Hin Hx].
    apply is_ancestor_of_spec in Hx. exact (H x Hin Hx).
Qed.

(** X9. [get_root_of] answers None exactly when no row has [rgt > lft];
    otherwise it answers the key of a row of non-empty width that no row of
    the table strictly contains. *)
Theorem get_root_of_answer t :
  (get_root_of t = (Ok None, t) /\
   forall r l h, In r t -> lft r = Some l -> rgt r = Some h -> h <= l) \/
  (exists r l h,
     get_root_of t = (Ok (Some (name r)), t) /\
     In r t /\ lft r = Some l /\ rgt r = Some h /\ l < h /\
     forall x, In x t -> ~ contains_strictly x r).
Proof.
  unfold get_root_of, bind, query, ret, Sql.select.
  set (top := fun t1 : Row =>
                (List.length (filter (fun t2 => Sql.lt (lft t2) (lft t1)
                                                && Sql.gt (rgt t2) (rgt t1)) t) =? 0)%nat
                && Sql.gt (rgt t1) (lft t1)).
  destruct (filter top t) as [|r rest] eqn:E; simpl.
  - left. split; [reflexivity|].
    intros r l h Hin Hl Hh. destruct (Z.le_gt_cases h l) as [|Hgt]; [assumption|].
    exfalso.
    set (pw := fun x : Row => Sql.gt (rgt x) (lft x)).
    assert (Hr : In r (filter pw t)).
    { apply filter_In. split; [exact Hin|]. unfold pw, Sql.gt, Sql.cmp.
      rewrite Hl, Hh. apply Z.gtb_lt. lia. }
    assert (Hpw : forall x, In x (filter pw t) ->
                    exists xl xh, lft x = Some xl /\ rgt x = Some xh /\ xl < xh).
    { intros x Hx. apply filter_In in Hx. destruct Hx as [_ Hx].
      unfold pw, Sql.gt, Sql.cmp in Hx.
      destruct (rgt x) as [xh|]; [|discriminate].
      destruct (lft x) as [xl|]; [|discriminate].
      apply Z.gtb_lt in Hx. eauto. }
    destruct (min_lft_row (filter pw t)) as (r0 & l0 & Hin0 & Hl0 & Hmin).
    { intros En. rewrite En in Hr. contradiction. }
    { intros x Hx. destruct (Hpw x Hx) as (xl & _ & Hxl & _). eauto. }
    assert (Htop : In r0 (filter top t)).
    { apply filter_In. pose proof Hin0 as Hin0'. apply filter_In in Hin0'.
      destruct Hin0' as [Hin0t Hpw0]. split; [exact Hin0t|].
      unfold top. apply andb_true_intro. split; [|exact Hpw0].
      apply (no_container_spec t r0). intros x Hx Hc.
      destruct Hc as (xl & xh & l0' & h0 & Hxl & Hxh & Hl0' & Hh0 & H1 & H2).
      rewrite Hl0 in Hl0'. injection Hl0' as <-.
      destruct (Hpw r0 Hin0) as (l0'' & h0' & Hl0'' & Hh0' & Hlt).
      rewrite Hl0 in Hl0''. injection Hl0'' as <-.
      rewrite Hh0 in Hh0'. injection Hh0' as <-.
      assert (Hxpw : In x (filter pw t)).
      { apply filter_In. split; [exact Hx|]. unfold pw, Sql.gt, Sql.cmp.
        rewrite Hxl, Hxh. apply Z.gtb_lt. lia. }
      specialize (Hmin x xl Hxpw Hxl). lia. }
    rewrite E in Htop. contradiction.
  - right.
    assert (Hr : In r (filter top t)) by (rewrite E; now left).
    apply filter_In in Hr. destruct Hr as [Hin Hr]. unfold top in Hr.
    apply andb_prop in Hr. destruct Hr as [Hnone Hw].
    unfold Sql.gt, Sql.cmp in Hw.
    destruct (rgt r) as [h|] eqn:Hh; [|discriminate].
    destruct (lft r) as [l|] eqn:Hl; [|discriminate].
    apply Z.gtb_lt in Hw.
    exists r, l, h. repeat split; try assumption.
    apply (no_container_spec t r). unfold Sql.select. now rewrite Hl, Hh.
Qed.

Example get_root_of_fixture : get_root_of fixture = (Ok (Some "R"), fixture).
Proof. reflexivity. Qed.

Lemma in_query_names (sel : Row -> bool) order_by t n :
  NoDup (map name t) ->
  forall r, lookup n t = Some r ->
  (In n (map name (sort_by order_by (filter sel t))) <-> sel r = true).
Proof.
  intros Hnd r Hr. destruct (lookup_In _ _ _ Hr) as [Hin Hname].
  rewrite in_map_iff. split.
  - intros (x & Hx & Hxin).
    apply (Permutation_in _ (sort_by_perm order_by _)) in Hxin.
    apply filter_In in Hxin. destruct Hxin as [Hxin Hsel].
    pose proof (lookup_unique t x Hnd Hxin) as Hu. rewrite Hx, Hr in Hu.
    now injection Hu as ->.
  - intros Hsel. exists r. split; [exact Hname|].
    apply (Permutation_in _ (Permutation_sym (sort_by_perm order_by _))).
    apply filter_In. now split.
Qed.

(** X10. The two tree queries are converse: with unique keys, [a] is among
    the ancestors listed for [d] exactly when [d] is among the descendants
    listed for [a], whatever the orders asked for. *)
Theorem ancestors_descendants_converse a d t ra rd order_by order_by' ignore_permissions :
  NoDup (map name t) ->
  lookup a t = Some ra ->
  lookup d t = Some rd ->
  exists anc desc,
    get_ancestors_of d order_by None t = (Ok anc, t) /\
    get_descendants_of a order_by' None ignore_permissions t = (Ok desc, t) /\
    (In a anc <-> In d desc).
Proof.
  intros Hnd Ha Hd.
  eexists. eexists.
  split; [exact (get_ancestors_of_run d order_by None t rd Hd)|].
  split; [exact (get_descendants_of_run a order_by' None ignore_permissions t ra Ha)|].
  simpl limit_rows.
  rewrite (in_query_names _ order_by t a Hnd ra Ha).
  rewrite (in_query_names _ order_by' t d Hnd rd Hd).
  rewrite is_ancestor_of_spec, is_descendant_of_spec. reflexivity.
Qed.

Lemma ancestors_descendants_converse_witness :
  exists anc desc,
    get_ancestors_of "A1" lft_desc None fixture = (Ok anc, fixture) /\
    get_descendants_of "R" name_asc None false fixture = (Ok desc, fixture) /\
    (In "R" anc <-> In "A1" desc).
Proof.
  apply (ancestors_descendants_converse "R" "A1" fixture
           (row "R" "" 1 10) (row "A1" "A" 3 4)); try reflexivity.
  simpl. repeat constructor; simpl; intuition discriminate.
Defined.

(** X11. Under the nesting invariant, [get_ancestors] lists every key that
    the parent keys lead to from the node and that has a row. *)
Theorem get_ancestors_lists_ancestry (doc : Doc) t n rn :
  nested t ->
  descendant t (name doc) n ->
  lookup n t = Some rn ->
  exists anc, get_ancestors doc t = (Ok anc, t) /\ In n anc.
Proof.
  intros Hnest Hdesc Hrn.
  destruct (descendant_contained t (name doc) n rn Hnest Hdesc Hrn) as (rd & Hrd & Hc).
  destruct (lookup_In _ _ _ Hrn) as [Hin Hname].
  eexists. split; [exact (get_ancestors_of_run (name doc) lft_desc None t rd Hrd)|].
  simpl limit_rows. apply in_map_iff. exists rn. split; [exact Hname|].
  apply (Permutation_in _ (Permutation_sym (sort_by_perm lft_desc _))).
  apply filter_In. split; [exact Hin|]. now apply is_ancestor_of_spec.
Qed.

Lemma get_ancestors_lists_ancestry_witness :
  nested fixture /\ descendant fixture "A1" "R" /\
  exists anc, get_ancestors (row "A1" "A" 3 4) fixture = (Ok anc, fixture) /\ In "R" anc.
Proof.
  assert (Hn : nested fixture) by (apply nested_b_sound; reflexivity).
  assert (Hd : descendant fixture "A1" "R").
  { apply (descendant_step fixture "A1" "A" "R" (row "A1" "A" 3 4)); try reflexivity.
    apply (descendant_child fixture "A" "R" (row "A" "R" 2 5)); reflexivity. }
  split; [exact Hn|]. split; [exact Hd|].
  exact (get_ancestors_lists_ancestry (row "A1" "A" 3 4) fixture "R" (row "R" "" 1 10)
           Hn Hd eq_refl).
Defined.

(** ** What a rebuild leaves alone *)

Lemma row_after_untouched ct ws r :
  ~ In (name r) (map fst ws) -> row_after ct ws r = r.
Proof.
  unfold row_after. revert r. induction ws as [|w ws IH]; intros r H; simpl; [reflexivity|].
  assert (E : write_row ct w r = r).
  { unfold write_row, upd, name_is.
    destruct (String.eqb_spec (name r) (fst w)) as [E|E]; [|reflexivity].
    exfalso. apply H. left. now symmetry. }
  rewrite E. apply IH. intros Hin. apply H. now right.
Qed.

Lemma tree_writes_under sk fuel ws last :
  NoDup (map fst sk) -> ~ In "" (map fst sk) ->
  tree_writes fuel sk = Some (ws, last) ->
  forall w, In w ws -> exists k, level sk (fst w) k.
Proof.
  intros Hu He H w Hw. unfold tree_writes in H.
  destruct (list_writes_good sk He (node_writes fuel sk) (sk_roots sk) 0%nat
              (sk_roots_nodup sk Hu)
              (fun r Hr => sk_roots_level sk Hu r Hr)
              (fun r d w d' Hr Hw =>
                 node_writes_good sk Hu He fuel r 0%nat d w d'
                   (sk_roots_level sk Hu r Hr) Hw)
              1 ws last H) as [_ Hunder].
  destruct (Hunder w Hw) as (r & Hr & Hur).
  destruct (under_level sk He r (fst w) 0%nat Hur (sk_roots_level sk Hu r Hr))
    as (j & Hj & _).
  now exists (0 + j)%nat.
Qed.

Lemma sk_parent_lookup t x p :
  sk_parent (skel t) x = Some p <-> exists r, lookup x t = Some r /\ parent r = p.
Proof.
  unfold sk_parent, lookup, skel. induction t as [|y t IH]; simpl.
  - split; [discriminate | intros (r & H & _); discriminate].
  - unfold name_is at 1. destruct (name y =? x)%string; simpl.
    + split.
      * intros H. injection H as <-. now exists y.
      * intros (r & H & <-). now injection H as ->.
    + exact IH.
Qed.

Lemma orphan_has_no_level t r p :
  NoDup (map name t) -> In r t ->
  parent r = Some p -> p <> "" -> lookup p t = None ->
  forall k, ~ level (skel t) (name r) k.
Proof.
  intros Hnd Hin Hp Hne Hnone k Hl.
  pose proof (lookup_unique t r Hnd Hin) as Hr.
  inversion Hl as [? q Hq Hroot | ? q ? Hq Hqne Hlq]; subst.
  - apply sk_parent_lookup in Hq. destruct Hq as (r' & Hr' & <-).
    rewrite Hr in Hr'. injection Hr' as <-. rewrite Hp in Hroot.
    destruct Hroot as [E|E]; [discriminate | injection E as ->; contradiction].
  - apply sk_parent_lookup in Hq. destruct Hq as (r' & Hr' & Hpar).
    rewrite Hr in Hr'. injection Hr' as <-. rewrite Hp in Hpar. injection Hpar as <-.
    inversion Hlq as [? q' Hq' _ | ? q' ? Hq' _ _]; subst;
      apply sk_parent_lookup in Hq'; destruct Hq' as (rp & Hrp & _); congruence.
Qed.

(** X12. A rebuild writes only rows that the parent keys connect to a root:
    a row that is not so connected, in particular a row whose parent key
    names no row, is left exactly as it was. *)
Theorem rebuild_leaves_orphans fuel ct t t' :
  NoDup (map name t) ->
  (forall r, In r t -> name r <> "") ->
  rebuild_tree fuel ct t = (Ok tt, t') ->
  Forall2 (fun r r' =>
             ((forall k, ~ level (skel t) (name r) k) -> r' = r) /\
             (forall p, parent r = Some p -> p <> "" -> lookup p t = None -> r' = r))
          t t'.
Proof.
  intros Hnd Hne Hrun.
  assert (Hu : NoDup (map fst (skel t))) by now rewrite skel_keys.
  assert (He : ~ In "" (map fst (skel t))).
  { rewrite skel_keys. intros H. apply in_map_iff in H.
    destruct H as (r & Hr & Hin). exact (Hne r Hin Hr). }
  pose proof (rebuild_tree_run ct fuel t) as R.
  destruct (tree_writes fuel (skel t)) as [[ws last]|] eqn:E.
  - rewrite Hrun in R. injection R as ->.
    rewrite apply_writes_rows. apply Forall2_map_r. intros r Hin.
    assert (Hno : (forall k, ~ level (skel t) (name r) k) -> row_after ct ws r = r).
    { intros Hlev. apply row_after_untouched. intros Hw.
      apply in_map_iff in Hw. destruct Hw as (w & Hw & Hwin).
      destruct (tree_writes_under (skel t) fuel ws last Hu He E w Hwin) as (k & Hk).
      rewrite Hw in Hk. exact (Hlev k Hk). }
    split; [exact Hno|].
    intros p Hp Hpne Hnone. apply Hno.
    exact (orphan_has_no_level t r p Hnd Hin Hp Hpne Hnone).
  - destruct R as [t'' R]. rewrite Hrun in R. discriminate.
Qed.

Lemma rebuild_leaves_orphans_witness :
  let t := fixture ++ [row "O" "gone" 3 8] in
  exists t',
    rebuild_tree 10 "t1" t = (Ok tt, t') /\
    Forall2 (fun r r' =>
               ((forall k, ~ level (skel t) (name r) k) -> r' = r) /\
               (forall p, parent r = Some p -> p <> "" -> lookup p t = None -> r' = r))
            t t'.
Proof.
  intros t. eexists. split; [reflexivity|].
  apply (rebuild_leaves_orphans 10 "t1" t).
  - simpl. repeat constructor; simpl; intuition discriminate.
  - intros r Hin. simpl in Hin.
    repeat (destruct Hin as [<-|Hin]; [discriminate|]). contradiction.
  - reflexivity.
Defined.

(** ** The intervals of a rebuilt forest *)

Lemma list_writes_trace_ok sk g ns c ws c' :
  (forall n d w d', In n ns -> g n d = Some (w, d') ->
     trace_ok sk d d' w /\ d + 2 <= d' /\ In (n, (d, d' - 1)) w) ->
  list_writes g ns c = Some (ws, c') ->
  trace_ok sk c c' ws /\ c <= c' /\
  forall n, In n ns -> exists l r, In (n, (l, r)) ws /\ c <= l /\ r < c'.
Proof.
  revert c ws c'. induction ns as [|n ns IH]; intros c ws c' Hg H; simpl in H.
  - injection H as <- <-. split; [|split; [lia | intros n []]].
    split; [|split]; intros x; intros; contradiction.
  - destruct (g n c) as [[ws1 c1]|] eqn:E1; [|discriminate].
    destruct (list_writes g ns c1) as [[ws2 c2]|] eqn:E2; [|discriminate].
    injection H as <- <-.
    destruct (Hg n c ws1 c1 (or_introl eq_refl) E1) as ((R1 & L1 & C1) & S1 & I1).
    destruct (IH c1 ws2 c2 (fun m d w d' Hm => Hg m d w d' (or_intror Hm)) E2)
      as ((R2 & L2 & C2) & S2 & I2).
    split; [split; [|split]|split].
    + intros x l r Hin. apply in_app_or in Hin. destruct Hin as [Hin|Hin].
      * specialize (R1 x l r Hin). lia.
      * specialize (R2 x l r Hin). lia.
    + intros x l r y l' r' Hx Hy H1 H2.
      apply in_app_or in Hx. apply in_app_or in Hy.
      destruct Hx as [Hx|Hx], Hy as [Hy|Hy].
      * exact (L1 x l r y l' r' Hx Hy H1 H2).
      * specialize (R1 x l r Hx). specialize (R2 y l' r' Hy). lia.
      * specialize (R2 x l r Hx). specialize (R1 y l' r' Hy). lia.
      * exact (L2 x l r y l' r' Hx Hy H1 H2).
    + intros p l r Hp ch Hch. apply in_app_or in Hp. destruct Hp as [Hp|Hp].
      * destruct (C1 p l r Hp ch Hch) as (l' & r' & Hin & Hlr).
        exists l', r'. split; [apply in_or_app; now left | exact Hlr].
      * destruct (C2 p l r Hp ch Hch) as (l' & r' & Hin & Hlr).
        exists l', r'. split; [apply in_or_app; now right | exact Hlr].
    + lia.
    + intros m [<-|Hm].
      * exists c, (c1 - 1). split; [apply in_or_app; now left | lia].
      * destruct (I2 m Hm) as (l & r & Hin & Hlr).
        exists l, r. split; [apply in_or_app; now right | lia].
Qed.

Lemma node_writes_trace_ok sk fuel n k c ws c' :
  NoDup (map fst sk) -> ~ In "" (map fst sk) ->
  level sk n k ->
  node_writes fuel sk n c = Some (ws, c') ->
  trace_ok sk c c' ws /\ c + 2 <= c' /\ In (n, (c, c' - 1)) ws.
Proof.
  intros Hu He. revert n k c ws c'.
  induction fuel as [|fuel IH]; intros n k c ws c' Hl H; [discriminate|].
  pose proof (node_writes_good sk Hu He (S fuel) n k c ws c' Hl H) as [_ Hunder].
  simpl in H.
  destruct (list_writes (node_writes fuel sk) (sk_children n sk) (c + 1))
    as [[wsc right_]|] eqn:E; [|discriminate].
  injection H as <- <-.
  destruct (list_writes_trace_ok sk (node_writes fuel sk) (sk_children n sk)
              (c + 1) wsc right_
              (fun m d w d' Hm Hw =>
                 IH m (S k) d w d' (level_child_of sk Hu He n m k Hl Hm) Hw) E)
    as ((R & L & C) & S & I).
  replace (right_ + 1 - 1) with right_ by lia.
  split; [split; [|split]|split].
  - intros x l r Hin. apply in_app_or in Hin. destruct Hin as [Hin|[Hin|[]]].
    + specialize (R x l r Hin). lia.
    + injection Hin as <- <- <-. lia.
  - intros x l r y l' r' Hx Hy H1 H2.
    pose proof (Hunder (x, (l, r)) Hx) as Hux. simpl in Hux.
    apply in_app_or in Hx. apply in_app_or in Hy.
    destruct Hy as [Hy|[Hy|[]]].
    + destruct Hx as [Hx|[Hx|[]]].
      * exact (L x l r y l' r' Hx Hy H1 H2).
      * injection Hx as <- <- <-. specialize (R y l' r' Hy). lia.
    + injection Hy as <- <- <-. exact Hux.
  - intros p l r Hp ch Hch. apply in_app_or in Hp. destruct Hp as [Hp|[Hp|[]]].
    + destruct (C p l r Hp ch Hch) as (l' & r' & Hin & Hlr).
      exists l', r'. split; [apply in_or_app; now left | exact Hlr].
    + injection Hp as <- <- <-.
      destruct (I ch Hch) as (l' & r' & Hin & Hlr).
      exists l', r'. split; [apply in_or_app; now left | lia].
  - lia.
  - apply in_or_app. right. now left.
Qed.

Lemma tree_writes_trace_ok sk fuel ws last :
  NoDup (map fst sk) -> ~ In "" (map fst sk) ->
  tree_writes fuel sk = Some (ws, last) ->
  trace_ok sk 1 last ws /\
  forall n, In n (sk_roots sk) -> exists l r, In (n, (l, r)) ws.
Proof.
  intros Hu He H. unfold tree_writes in H.
  destruct (list_writes_trace_ok sk (node_writes fuel sk) (sk_roots sk) 1 ws last
              (fun m d w d' Hm Hw =>
                 node_writes_trace_ok sk fuel m 0%nat d w d' Hu He
                   (sk_roots_level sk Hu m Hm) Hw) H) as (Hok & _ & I).
  split; [exact Hok|].
  intros n Hn. destruct (I n Hn) as (l & r & Hin & _). eauto.
Qed.

Lemma sk_parent_entry sk x p : sk_parent sk x = Some p -> In (x, p) sk.
Proof.
  unfold sk_parent. destruct (find _ sk) as [[y q]|] eqn:E; [|discriminate].
  simpl. intros H. injection H as <-. apply find_some in E.
  destruct E as [Hin He]. simpl in He. apply String.eqb_eq in He. now subst y.
Qed.

Lemma sk_roots_intro sk x p :
  sk_parent sk x = Some p -> p = None \/ p = Some "" -> In x (sk_roots sk).
Proof.
  intros Hp Hroot. apply sk_parent_entry in Hp. unfold sk_roots.
  apply in_map_iff. exists (x, p). split; [reflexivity|].
  apply (Permutation_in _ (Permutation_sym (sort_by_perm _ _))).
  apply filter_In. split; [exact Hp|]. simpl.
  destruct Hroot as [-> | ->]; reflexivity.
Qed.

Lemma sk_children_intro sk x p :
  sk_parent sk x = Some (Some p) -> In x (sk_children p sk).
Proof.
  intros Hp. apply sk_parent_entry in Hp. unfold sk_children.
  apply in_map_iff. exists (x, Some p). split; [reflexivity|].
  apply filter_In. split; [exact Hp|]. simpl. apply String.eqb_refl.
Qed.

(** Every key that the parent keys connect to a root is written. *)
Lemma tree_writes_complete sk fuel ws last :
  NoDup (map fst sk) -> ~ In "" (map fst sk) ->
  tree_writes fuel sk = Some (ws, last) ->
  forall x k, level sk x k -> exists l r, In (x, (l, r)) ws.
Proof.
  intros Hu He H x k Hl.
  destruct (tree_writes_trace_ok sk fuel ws last Hu He H) as ((_ & _ & C) & I).
  induction Hl as [x p Hp Hroot | x p k Hp Hne Hl IH].
  - apply I. exact (sk_roots_intro sk x p Hp Hroot).
  - destruct IH as (l & r & Hin).
    destruct (C p l r Hin x (sk_children_intro sk x p Hp)) as (l' & r' & Hin' & _).
    eauto.
Qed.

Lemma under_descendant t n x :
  under (skel t) n x -> x = n \/ descendant t x n.
Proof.
  intros H. induction H as [|x p Hp Hu IH]; [now left|]. right.
  apply sk_parent_lookup in Hp. destruct Hp as (rx & Hrx & Hpar).
  destruct IH as [->|IH].
  - exact (descendant_child t x n rx Hrx Hpar).
  - exact (descendant_step t x p n rx Hrx Hpar IH).
Qed.

(** The facts about a rebuilt forest in which every row is connected to a
    root. *)
Lemma rebuild_forest_facts fuel ct t :
  NoDup (map name t) ->
  (forall r, In r t -> name r <> "") ->
  (List.length t <= fuel)%nat ->
  (forall r, In r t -> exists k, level (skel t) (name r) k) ->
  exists t',
    rebuild_tree fuel ct t = (Ok tt, t') /\
    nested t' /\ valid_table t' /\
    (forall a d ra rd, lookup a t' = Some ra -> lookup d t' = Some rd ->
                       contains_strictly ra rd -> descendant t' d a).
Proof.
  intros Hnd Hne Hfuel Hlev.
  assert (Hu : NoDup (map fst (skel t))) by now rewrite skel_keys.
  assert (He : ~ In "" (map fst (skel t))).
  { rewrite skel_keys. intros H. apply in_map_iff in H.
    destruct H as (r & Hr & Hin). exact (Hne r Hin Hr). }
  assert (Hlen : (List.length (skel t) <= fuel)%nat).
  { unfold skel. now rewrite length_map. }
  destruct (tree_writes_total (skel t) Hu He fuel Hlen) as (ws & last & Hw).
  destruct (tree_writes_good (skel t) Hu He fuel ws last Hw) as [Hwnd Hwkeys].
  destruct (tree_writes_trace_ok (skel t) fuel ws last Hu He Hw) as ((R & L & C) & _).
  pose proof (tree_writes_complete (skel t) fuel ws last Hu He Hw) as Hcomplete.
  pose proof (rebuild_tree_run ct fuel t) as Hrun. rewrite Hw in Hrun.
  set (t' := apply_writes ct ws t) in *.
  assert (Hsk : skel t' = skel t) by apply apply_writes_skel.
  assert (Ha : agrees t' ws).
  { apply apply_writes_agrees; [exact Hwnd|].
    intros w Hin. rewrite <- skel_keys. now apply Hwkeys. }
  assert (Hnd' : NoDup (map name t')) by now rewrite <- skel_keys, Hsk, skel_keys.
  assert (F1 : forall x rx, lookup x t' = Some rx ->
                 exists l r, In (x, (l, r)) ws /\ lft rx = Some l /\ rgt rx = Some r).
  { intros x rx Hx. pose proof Hx as Hx0. unfold t' in Hx0.
    rewrite apply_writes_rows in Hx0.
    destruct (lookup_map_inv x _ t rx (fun r => proj1 (row_after_fields ct ws r)) Hx0)
      as (r0 & Hr0 & _).
    destruct (lookup_In _ _ _ Hr0) as [Hin0 Hname0].
    destruct (Hlev r0 Hin0) as (k & Hk). rewrite Hname0 in Hk.
    destruct (Hcomplete x k Hk) as (l & r & Hin).
    destruct (Ha x l r Hin) as (row & Hrow & Hl & Hr).
    rewrite Hx in Hrow. injection Hrow as <-.
    exists l, r. auto. }
  exists t'. split; [exact Hrun|]. split; [|split].
  - intros d rd q rq Hd Hpar Hq.
    destruct (F1 q rq Hq) as (l & r & Hqin & Hql & Hqr).
    assert (Hch : In d (sk_children q (skel t))).
    { apply sk_children_intro. rewrite <- Hsk. apply sk_parent_lookup. eauto. }
    destruct (C q l r Hqin d Hch) as (l' & r' & Hdin & H1 & H2).
    destruct (Ha d l' r' Hdin) as (row & Hrow & Hl & Hr).
    rewrite Hd in Hrow. injection Hrow as <-.
    exists l, r, l', r'. repeat split; assumption.
  - intros r Hin.
    destruct (F1 (name r) r (lookup_unique t' r Hnd' Hin)) as (l & h & Hw_in & Hl & Hh).
    destruct (R (name r) l h Hw_in) as (H1 & H2 & _).
    exists l, h. repeat split; try assumption; lia.
  - intros a d ra rd Hra Hrd (al & ar & dl & dr & Hal & Har & Hdl & Hdr & H1 & H2).
    destruct (F1 a ra Hra) as (al' & ar' & Hain & Hal' & Har').
    destruct (F1 d rd Hrd) as (dl' & dr' & Hdin & Hdl' & Hdr').
    rewrite Hal in Hal'. rewrite Har in Har'. rewrite Hdl in Hdl'. rewrite Hdr in Hdr'.
    injection Hal' as <-. injection Har' as <-. injection Hdl' as <-. injection Hdr' as <-.
    pose proof (L d dl dr a al ar Hdin Hain H1 H2) as Hunder.
    rewrite <- Hsk in Hunder.
    destruct (under_descendant t' a d Hunder) as [E|Hdesc]; [|exact Hdesc].
    subst d. rewrite Hra in Hrd. injection Hrd as <-. rewrite Hal in Hdl.
    injection Hdl as <-. lia.
Qed.

(** X13. A rebuild establishes the invariants: when keys are unique and not
    empty and the parent keys connect every row to a root, the rebuilt table
    has valid bounds throughout and every row lies strictly inside its
    parent's row. *)
Theorem rebuild_establishes_invariants fuel ct t :
  NoDup (map name t) ->
  (forall r, In r t -> name r <> "") ->
  (List.length t <= fuel)%nat ->
  (forall r, In r t -> exists k, level (skel t) (name r) k) ->
  exists t',
    rebuild_tree fuel ct t = (Ok tt, t') /\ nested t' /\ valid_table t'.
Proof.
  intros Hnd Hne Hfuel Hlev.
  destruct (rebuild_forest_facts fuel ct t Hnd Hne Hfuel Hlev) as (t' & H1 & H2 & H3 & _).
  exists t'. auto.
Qed.

(** X14. In such a rebuilt table containment is ancestry: the row of [a]
    strictly contains the row of [d] exactly when the parent keys lead from
    [d] to [a]. *)
Theorem rebuild_containment_is_ancestry fuel ct t :
  NoDup (map name t) ->
  (forall r, In r t -> name r <> "") ->
  (List.length t <= fuel)%nat ->
  (forall r, In r t -> exists k, level (skel t) (name r) k) ->
  exists t',
    rebuild_tree fuel ct t = (Ok tt, t') /\
    forall a d ra rd, lookup a t' = Some ra -> lookup d t' = Some rd ->
                      (contains_strictly ra rd <-> descendant t' d a).
Proof.
  intros Hnd Hne Hfuel Hlev.
  destruct (rebuild_forest_facts fuel ct t Hnd Hne Hfuel Hlev) as (t' & H1 & H2 & _ & H4).
  exists t'. split; [exact H1|].
  intros a d ra rd Hra Hrd. split.
  - exact (H4 a d ra rd Hra Hrd).
  - intros Hdesc.
    destruct (descendant_contained t' d a ra H2 Hdesc Hra) as (rd' & Hrd' & Hc).
    rewrite Hrd in Hrd'. now injection Hrd' as <-.
Qed.

Lemma fixture_connected :
  NoDup (map name fixture) /\
  (forall r, In r fixture -> name r <> "") /\
  (forall r, In r fixture -> exists k, level (skel fixture) (name r) k).
Proof.
  split; [simpl; repeat constructor; simpl; intuition discriminate|]. split.
  - intros r Hin. simpl in Hin.
    repeat (destruct Hin as [<-|Hin]; [discriminate|]). contradiction.
  - assert (HR : level (skel fixture) "R" 0).
    { apply (level_root (skel fixture) "R" (Some "")); [reflexivity | now right]. }
    assert (HA : level (skel fixture) "A" 1).
    { apply (level_child (skel fixture) "A" "R" 0); [reflexivity | discriminate | exact HR]. }
    assert (HB : level (skel fixture) "B" 1).
    { apply (level_child (skel fixture) "B" "R" 0); [reflexivity | discriminate | exact HR]. }
    intros r Hin. simpl in Hin.
    destruct Hin as [<-|[<-|[<-|[<-|[<-|[]]]]]].
    + now exists 0%nat.
    + now exists 1%nat.
    + exists 2%nat.
      apply (level_child (skel fixture) "A1" "A" 1); [reflexivity | discriminate | exact HA].
    + now exists 1%nat.
    + exists 2%nat.
      apply (level_child (skel fixture) "B1" "B" 1); [reflexivity | discriminate | exact HB].
Qed.

Lemma rebuild_establishes_invariants_witness :
  exists t',
    rebuild_tree 5 "t1" fixture = (Ok tt, t') /\ nested t' /\ valid_table t'.
Proof.
  destruct fixture_connected as (Hnd & Hne & Hlev).
  apply (rebuild_establishes_invariants 5 "t1" fixture Hnd Hne); [simpl; lia | exact Hlev].
Defined.

Lemma rebuild_containment_is_ancestry_witness :
  exists t',
    rebuild_tree 5 "t1" fixture = (Ok tt, t') /\
    forall a d ra rd, lookup a t' = Some ra -> lookup d t' = Some rd ->
                      (contains_strictly ra rd <-> descendant t' d a).
Proof.
  destruct fixture_connected as (Hnd & Hne & Hlev).
  apply (rebuild_containment_is_ancestry 5 "t1" fixture Hnd Hne); [simpl; lia | exact Hlev].
Defined.

(** ** The document class *)

Lemma children_of_none n t :
  (forall r, In r t -> parent r <> Some n) -> children_of n t = [].
Proof.
  intros H. unfold children_of, Sql.select.
  induction t as [|x t IH]; simpl; [reflexivity|].
  destruct (parent x) as [p|] eqn:E.
  - destruct (String.eqb_spec p n) as [->|Hne].
    + exfalso. exact (H x (or_introl eq_refl) E).
    + apply IH. intros r Hr. apply H. now right.
  - apply IH. intros r Hr. apply H. now right.
Qed.

Lemma children_of_some n t r :
  In r t -> parent r = Some n -> (0 <? List.length (children_of n t))%nat = true.
Proof.
  intros Hin Hp. unfold children_of, Sql.select.
  assert (Hi : In r (filter (fun r => match parent r with
                                      | Some p => (p =? n)%string
                                      | None => false
                                      end) t)).
  { apply filter_In. split; [exact Hin|]. rewrite Hp. apply String.eqb_refl. }
  destruct (filter _ t); [contradiction | reflexivity].
Qed.

Lemma declared_field (cls : NestedSet) :
  declares_parent_column cls -> trash_parent_field cls = parent_column cls.
Proof.
  intros [Hf Hne]. unfold trash_parent_field. rewrite Hf.
  rewrite (truthy_str_nonempty _ Hne). reflexivity.
Qed.

(** For a class that declares the parent column, [on_trash] is the root
    check on the document's parent followed by the detaching steps. *)
Lemma on_trash_declared ct (cls : NestedSet) (doc : Doc) allow_root_deletion on_rollback t :
  declares_parent_column cls ->
  on_trash ct cls doc allow_root_deletion on_rollback t =
  if negb (truthy_str (parent doc)) && negb allow_root_deletion
  then Some (Thrown ValidationError, t)
  else Some (trash_detach ct doc on_rollback t).
Proof.
  intros H. unfold on_trash. rewrite (declared_field cls H), String.eqb_refl.
  reflexivity.
Qed.

Lemma truthy_str_false v : v = None \/ v = Some "" -> truthy_str v = false.
Proof. intros [-> | ->]; reflexivity. Qed.

(** X15. [on_trash] refuses before it writes.  For a class that declares the
    parent column, a document without a parent is refused with
    ValidationError unless root deletion is allowed, and a document that
    passes this check and that some row names as its parent is refused with
    NestedSetChildExistsError.  For a class that leaves the attribute unset,
    the check reads the field named by the scrubbed doctype followed by
    [_parent]; when that is not the parent column and the document has no
    such field, every document is refused with ValidationError unless root
    deletion is allowed.  In all three cases the table is as it was. *)
Theorem on_trash_refusals ct (cls : NestedSet) (doc : Doc) allow_root_deletion on_rollback t :
  (declares_parent_column cls ->
   parent doc = None \/ parent doc = Some "" ->
   on_trash ct cls doc false on_rollback t = Some (Thrown ValidationError, t)) /\
  (nsm_parent_field cls = None \/ nsm_parent_field cls = Some "" ->
   String.append (scrubbed_doctype cls) "_parent" <> parent_column cls ->
   other_field cls (String.append (scrubbed_doctype cls) "_parent") = None ->
   on_trash ct cls doc false on_rollback t = Some (Thrown ValidationError, t)) /\
  (declares_parent_column cls ->
   (exists p, parent doc = Some p /\ p <> "") \/ allow_root_deletion = true ->
   forall r, In r t -> parent r = Some (name doc) ->
   on_trash ct cls doc allow_root_deletion on_rollback t
   = Some (Thrown NestedSetChildExistsError, t)).
Proof.
  split; [|split].
  - intros Hcls Hp. rewrite (on_trash_declared ct cls doc false on_rollback t Hcls).
    now rewrite (truthy_str_false _ Hp).
  - intros Hf Hne Hother. unfold on_trash, trash_parent_field.
    rewrite (truthy_str_false _ Hf). simpl negb. cbv iota zeta.
    destruct (String.eqb_spec (String.append (scrubbed_doctype cls) "_parent")
                (parent_column cls)) as [E|_]; [contradiction|].
    rewrite Hother. reflexivity.
  - intros Hcls Hok r Hin Hr.
    rewrite (on_trash_declared ct cls doc allow_root_deletion on_rollback t Hcls).
    assert (E : negb (truthy_str (parent doc)) && negb allow_root_deletion = false).
    { destruct Hok as [(p & -> & Hp) | ->]; [|apply andb_false_r].
      now rewrite (truthy_str_nonempty p Hp). }
    rewrite E. unfold trash_detach, validate_if_child_exists.
    now rewrite (children_of_some (name doc) t r Hin Hr).
Qed.

Lemma on_trash_refusals_witness :
  on_trash "t1" declared_class (row "R" "" 1 10) false false fixture
  = Some (Thrown ValidationError, fixture) /\
  on_trash "t1" undeclared_class (row "A1" "A" 3 4) false false fixture
  = Some (Thrown ValidationError, fixture) /\
  on_trash "t1" declared_class (row "A" "R" 2 5) false false fixture
  = Some (Thrown NestedSetChildExistsError, fixture).
Proof.
  assert (Hcls : declares_parent_column declared_class) by (split; [reflexivity | discriminate]).
  split; [|split].
  - exact (proj1 (on_trash_refusals "t1" declared_class (row "R" "" 1 10) false false fixture)
             Hcls (or_intror eq_refl)).
  - apply (proj1 (proj2 (on_trash_refusals "t1" undeclared_class (row "A1" "A" 3 4)
                           false false fixture))).
    + now left.
    + discriminate.
    + reflexivity.
  - apply (proj2 (proj2 (on_trash_refusals "t1" declared_class (row "A" "R" 2 5)
                           false false fixture)) Hcls) with (r := row "A1" "A" 3 4).
    + left. exists "R". split; [reflexivity | discriminate].
    + simpl. tauto.
    + reflexivity.
Defined.

(** The run of the detaching steps on a childless document whose parent
    changes to the empty string. *)
Lemma trash_detach_leaf_run ct (doc : Doc) on_rollback t rd a b :
  valid_table t ->
  lookup (name doc) t = Some rd ->
  lft rd = Some a -> rgt rd = Some b ->
  lft doc = Some a -> rgt doc = Some b ->
  (forall r, In r t -> parent r <> Some (name doc)) ->
  old_parent doc <> Some "" ->
  exists d' t',
    trash_detach ct doc on_rollback t = (Done d', t') /\
    lookup (name doc) t' = Some d' /\ old_parent d' = Some "" /\
    Forall2 (fun r r' =>
               name r' = name r /\ parent r' = parent r /\
               forall l h, lft r = Some l -> rgt r = Some h ->
                 ~ (a <= l /\ h <= b) ->
                 bounds r' = (Some (fst (closed_gap a b l h)),
                              Some (snd (closed_gap a b l h)))) t t'.
Proof.
  intros Hv Hrd Hra Hrb Ha Hb Hleaf Hold.
  destruct (lookup_In _ _ _ Hrd) as [Hrd_in Hrd_name].
  assert (Hab : 0 < a < b).
  { destruct (Hv rd Hrd_in) as (l & h & Hl & Hh & H). congruence. }
  assert (Ha0 : 0 < a) by lia. assert (Hab' : a <= b) by lia.
  set (doc1 := set_parent (Some "") doc).
  pose proof (move_to_root_rows ct doc1 t a b) as Hrows.
  destruct (Hrows 0 Hv Ha Hb Ha0 Hab' rd a b Hrd_in Hra Hrb) as [Hrd_s _].
  destruct (Hrd_s (Z.le_refl a) (Z.le_refl b)) as [Hrd_r _].
  destruct (max_rgt_exists (map (shift_left ct doc1 (b - a + 1)) (map (dark_side ct doc1) t))
              _ _ (in_map _ _ _ (in_map _ _ _ Hrd_in)) Hrd_r) as (m & Hm).
  set (g := fun r => bring_back ct (m + 1 - a)
                       (shift_left ct doc1 (b - a + 1) (dark_side ct doc1 r))).
  assert (Hmove : update_move_node ct doc1 t = (Ok tt, map g t)).
  { exact (update_move_node_to_root_run ct doc1 t a b m Ha Hb eq_refl Hm). }
  set (h := set_old_parent (Some "")).
  assert (Hg : forall r, name (g r) = name r /\ parent (g r) = parent r)
    by (intros r; apply move_row_names).
  assert (Hu : forall r, name (upd (name_is (name doc)) h r) = name r /\
                         parent (upd (name_is (name doc)) h r) = parent r).
  { intros r. unfold upd. now destruct (name_is (name doc) r). }
  assert (Hlook : lookup (name doc) (Sql.update (name_is (name doc)) h (map g t))
                  = Some (upd (name_is (name doc)) h (g rd))).
  { unfold Sql.update. fold (upd (name_is (name doc)) h).
    rewrite lookup_map by (intros r; apply Hu).
    rewrite lookup_map by (intros r; apply Hg). now rewrite Hrd. }
  assert (Hnsm : update_nsm ct doc1 t
                 = (Ok (upd (name_is (name doc)) h (g rd)),
                    Sql.update (name_is (name doc)) h (map g t))).
  { unfold update_nsm. simpl lft. simpl rgt. rewrite Ha. simpl truthy.
    destruct (Z.eqb_spec a 0); [lia|]. simpl andb. cbv iota.
    assert (E : option_string_eqb (old_parent doc1) (parent doc1) = false).
    { destruct (option_string_eqb (old_parent doc1) (parent doc1)) eqn:E; [|reflexivity].
      apply option_string_eqb_spec in E. simpl in E. contradiction. }
    rewrite E. simpl negb. cbv iota.
    rewrite bind_run, Hmove, nsm_finish_run. cbv zeta. simpl name. simpl parent.
    simpl or_empty. fold h. now rewrite Hlook. }
  exists (upd (name_is (name doc)) h (g rd)),
         (Sql.update (name_is (name doc)) h (map g t)).
  split; [|split; [exact Hlook|split]].
  - unfold trash_detach, validate_if_child_exists.
    rewrite (children_of_none (name doc) t Hleaf).
    change (0 <? List.length (@nil string))%nat with false. cbv iota zeta.
    fold doc1. now rewrite Hnsm.
  - unfold upd, name_is. destruct (Hg rd) as [-> _].
    rewrite Hrd_name, String.eqb_refl. reflexivity.
  - unfold Sql.update. rewrite map_map. apply Forall2_map_r. intros r Hin.
    change (if name_is (name doc) (g r) then h (g r) else g r)
      with (upd (name_is (name doc)) h (g r)).
    destruct (Hu (g r)) as [-> ->]. destruct (Hg r) as [-> ->].
    split; [reflexivity|]. split; [reflexivity|].
    intros l hh Hl Hh Hout.
    destruct (Hrows (m + 1 - a) Hv Ha Hb Ha0 Hab' r l hh Hin Hl Hh) as [_ Hout_s].
    destruct (Hout_s Hout) as [_ Hbnd]. fold (g r) in Hbnd.
    rewrite <- Hbnd. unfold upd, h. now destruct (name_is (name doc) (g r)).
Qed.

(** X16. [on_trash] detaches the node before the row is deleted: for a class
    that declares the parent column and a document with a parent (or with
    root deletion allowed), no children, a recorded old parent other than
    the empty string, and bounds [(a, b)] in step with its row in a table of
    valid bounds, it completes; the gap [(a, b)] is closed in every row
    outside it, keys and parent keys stay, and the old parent recorded on
    the node's row becomes the empty string. *)
Theorem on_trash_detaches ct (cls : NestedSet) (doc : Doc) allow_root_deletion on_rollback
  t rd a b :
  declares_parent_column cls ->
  valid_table t ->
  lookup (name doc) t = Some rd ->
  lft rd = Some a -> rgt rd = Some b ->
  lft doc = Some a -> rgt doc = Some b ->
  (exists p, parent doc = Some p /\ p <> "") \/ allow_root_deletion = true ->
  (forall r, In r t -> parent r <> Some (name doc)) ->
  old_parent doc <> Some "" ->
  exists d' t',
    on_trash ct cls doc allow_root_deletion on_rollback t = Some (Done d', t') /\
    lookup (name doc) t' = Some d' /\ old_parent d' = Some "" /\
    Forall2 (fun r r' =>
               name r' = name r /\ parent r' = parent r /\
               forall l h, lft r = Some l -> rgt r = Some h ->
                 ~ (a <= l /\ h <= b) ->
                 bounds r' = (Some (fst (closed_gap a b l h)),
                              Some (snd (closed_gap a b l h)))) t t'.
Proof.
  intros Hcls Hv Hrd Hra Hrb Ha Hb Hok Hleaf Hold.
  destruct (trash_detach_leaf_run ct doc on_rollback t rd a b Hv Hrd Hra Hrb Ha Hb Hleaf Hold)
    as (d' & t' & Hrun & Hrest).
  exists d', t'. split; [|exact Hrest].
  rewrite (on_trash_declared ct cls doc allow_root_deletion on_rollback t Hcls).
  assert (E : negb (truthy_str (parent doc)) && negb allow_root_deletion = false).
  { destruct Hok as [(p & -> & Hp) | ->]; [|apply andb_false_r].
    now rewrite (truthy_str_nonempty p Hp). }
  now rewrite E, Hrun.
Qed.

Lemma on_trash_detaches_witness :
  valid_table fixture /\
  exists d' t',
    on_trash "t1" declared_class (row "A1" "A" 3 4) false false fixture
    = Some (Done d', t') /\
    lookup "A1" t' = Some d' /\ old_parent d' = Some "" /\
    Forall2 (fun r r' =>
               name r' = name r /\ parent r' = parent r /\
               forall l h, lft r = Some l -> rgt r = Some h ->
                 ~ (3 <= l /\ h <= 4) ->
                 bounds r' = (Some (fst (closed_gap 3 4 l h)),
                              Some (snd (closed_gap 3 4 l h)))) fixture t'.
Proof.
  assert (Hv : valid_table fixture) by (apply valid_table_b_sound; reflexivity).
  assert (Hcls : declares_parent_column declared_class) by (split; [reflexivity | discriminate]).
  split; [exact Hv|].
  apply (on_trash_detaches "t1" declared_class (row "A1" "A" 3 4) false false fixture
           (row "A1" "A" 3 4) 3 4 Hcls Hv); try reflexivity.
  - left. exists "A". split; [reflexivity | discriminate].
  - intros r Hin. simpl in Hin.
    repeat (destruct Hin as [<-|Hin]; [discriminate|]). contradiction.
  - discriminate.
Defined.

Example on_trash_leaf :
  option_map (fun out => bounds_of (snd out))
    (on_trash "t1" declared_class (row "A1" "A" 3 4) false false fixture)
  = Some [("R", Some 1, Some 8); ("A", Some 2, Some 3); ("A1", Some 9, Some 10);
          ("B", Some 4, Some 7); ("B1", Some 5, Some 6)].
Proof. reflexivity. Qed.

(** Without the attribute the method reads [x_parent], which the document
    does not have, where [update_nsm] reads [parent_x]. *)
Example on_trash_without_attribute :
  on_trash "t1" undeclared_class (row "A1" "A" 3 4) false false fixture
  = Some (Thrown ValidationError, fixture).
Proof. reflexivity. Qed.

Lemma update_fixed (c : Row -> bool) f (t : Table) :
  (forall r, In r t -> c r = true -> f r = r) -> Sql.update c f t = t.
Proof.
  intros H. unfold Sql.update. induction t as [|x t IH]; simpl; [reflexivity|].
  rewrite IH by (intros r Hr; apply H; now right).
  destruct (c x) eqn:E; [|reflexivity].
  now rewrite (H x (or_introl eq_refl) E).
Qed.

Lemma set_old_parent_same v r : old_parent r = v -> set_old_parent v r = r.
Proof. intros <-. now destruct r. Qed.

Lemma update_nsm_inv ct (doc : Doc) t d' t' :
  update_nsm ct doc t = (Ok d', t') ->
  exists t1, nsm_finish doc t1 = (Ok d', t').
Proof.
  unfold update_nsm. rewrite bind_run.
  destruct ((if negb (truthy (lft doc)) && negb (truthy (rgt doc))
             then update_add_node ct doc (or_empty (parent doc));; ret tt
             else if negb (option_string_eqb (old_parent doc) (parent doc))
                  then update_move_node ct doc
                  else ret tt) t) as [[[]|e] t1]; [eauto | discriminate].
Qed.

Lemma nsm_finish_noop (doc : Doc) t :
  lookup (name doc) t = Some doc ->
  (forall r, In r t -> name r = name doc ->
             old_parent r = Some (or_empty (parent doc))) ->
  nsm_finish doc t = (Ok doc, t).
Proof.
  intros Hl Hold. rewrite nsm_finish_run. cbv zeta.
  rewrite update_fixed.
  - now rewrite Hl.
  - intros r Hin Hn. apply set_old_parent_same. apply Hold; [exact Hin|].
    unfold name_is in Hn. now apply String.eqb_eq.
Qed.

(** X17. Saving again changes nothing: after [update_nsm] has completed,
    running it on the document it returned leaves the table as it is and
    returns the same document, provided that document has a bound that is
    not unset and its parent column holds the key that was recorded: the
    declared parent, or the empty string when none was declared.  (A parent
    column that is NULL does not qualify.) *)
Theorem update_nsm_second_save ct ct' (doc : Doc) t d' t' p :
  parent doc = Some p \/ (parent doc = None /\ p = "") ->
  update_nsm ct doc t = (Ok d', t') ->
  parent d' = Some p ->
  ~ (unset (lft d') /\ unset (rgt d')) ->
  update_nsm ct' d' t' = (Ok d', t').
Proof.
  intros Hp Hrun Hpar Hb.
  assert (Ep : or_empty (parent doc) = p).
  { destruct Hp as [-> | [-> ->]]; reflexivity. }
  destruct (update_nsm_inv ct doc t d' t' Hrun) as (t1 & Hfin).
  rewrite nsm_finish_run in Hfin. cbv zeta in Hfin. rewrite Ep in Hfin.
  destruct (lookup (name doc) (Sql.update _ _ t1)) as [r|] eqn:El; [|discriminate].
  injection Hfin as -> <-.
  assert (Hold : forall r, In r (Sql.update (name_is (name doc)) (set_old_parent (Some p)) t1) ->
                   name r = name doc -> old_parent r = Some p).
  { intros r Hin Hn. unfold Sql.update in Hin. apply in_map_iff in Hin.
    destruct Hin as (x & <- & _). unfold name_is in *.
    destruct (String.eqb_spec (name x) (name doc)) as [E|E]; [reflexivity|].
    contradiction. }
  destruct (lookup_In _ _ _ El) as [Hin Hname].
  unfold update_nsm.
  assert (E1 : negb (truthy (lft d')) && negb (truthy (rgt d')) = false).
  { destruct (truthy (lft d')) eqn:T1; [reflexivity|].
    destruct (truthy (rgt d')) eqn:T2; [reflexivity|].
    exfalso. apply Hb. split; now apply truthy_unset. }
  assert (E2 : option_string_eqb (old_parent d') (parent d') = true).
  { apply option_string_eqb_spec. rewrite Hpar. exact (Hold d' Hin Hname). }
  rewrite E1, E2. simpl negb. cbv iota. unfold bind, ret.
  apply nsm_finish_noop.
  - now rewrite Hname.
  - rewrite Hname, Hpar. simpl or_empty. exact Hold.
Qed.

Lemma update_nsm_second_save_witness :
  let t := fixture ++ [new_row "C" "B"] in
  exists d' t',
    update_nsm "t1" (new_row "C" "B") t = (Ok d', t') /\
    update_nsm "t2" d' t' = (Ok d', t').
Proof.
  intros t. eexists. eexists. split; [reflexivity|].
  apply (update_nsm_second_save "t1" "t2" (new_row "C" "B") t _ _ "B");
    try reflexivity.
  - now left.
  - intros [[H|H] _]; discriminate H.
Defined.

(** ** Renaming *)

Lemma Forall2_map_both {A B C} (R : B -> C -> Prop) (f : A -> B) (g : A -> C) l :
  (forall x, In x l -> R (f x) (g x)) -> Forall2 R (map f l) (map g l).
Proof.
  induction l as [|x l IH]; intros H; simpl; constructor.
  - apply H. now left.
  - apply IH. intros y Hy. apply H. now right.
Qed.

(** X18. A rename without merge moves nothing: [after_rename] changes no
    bound, records the new key as old parent on the rows that have it as
    parent, and saving such a row afterwards leaves the table alone. *)
Theorem after_rename_keeps_children fuel ct ct' newdn t :
  NoDup (map name t) ->
  exists t',
    after_rename fuel ct newdn false t = (Ok tt, t') /\
    Forall2 (fun r r' => name r' = name r /\ parent r' = parent r /\
                         bounds r' = bounds r) t t' /\
    forall c, In c t' -> parent c = Some newdn ->
      old_parent c = Some newdn /\
      (truthy (lft c) = true \/ truthy (rgt c) = true ->
       update_nsm ct' c t' = (Ok c, t')).
Proof.
  intros Hnd.
  set (cond := fun r : Row => match parent r with
                              | Some p => (p =? newdn)%string
                              | None => false
                              end).
  set (u := upd cond (set_old_parent (Some newdn))).
  assert (Hu : forall r, name (u r) = name r /\ parent (u r) = parent r /\
                         bounds (u r) = bounds r).
  { intros r. unfold u, upd. now destruct (cond r). }
  exists (map u t). split; [reflexivity|]. split.
  - apply Forall2_map_r. intros r _. apply Hu.
  - intros c Hin Hpar.
    assert (Hnd' : NoDup (map name (map u t))).
    { rewrite map_map. erewrite map_ext; [exact Hnd|]. intros r. apply Hu. }
    assert (Hold : old_parent c = Some newdn).
    { apply in_map_iff in Hin. destruct Hin as (r & <- & _).
      destruct (Hu r) as (_ & Hp & _). rewrite Hp in Hpar.
      unfold u, upd, cond. rewrite Hpar, String.eqb_refl. reflexivity. }
    split; [exact Hold|].
    intros Hb. unfold update_nsm.
    assert (E1 : negb (truthy (lft c)) && negb (truthy (rgt c)) = false).
    { destruct Hb as [-> | ->]; [reflexivity | apply andb_false_r]. }
    assert (E2 : option_string_eqb (old_parent c) (parent c) = true).
    { apply option_string_eqb_spec. congruence. }
    rewrite E1, E2. simpl negb. cbv iota. unfold bind, ret.
    apply nsm_finish_noop.
    + exact (lookup_unique (map u t) c Hnd' Hin).
    + intros r Hr Hn. rewrite Hpar. simpl or_empty.
      pose proof (lookup_unique (map u t) r Hnd' Hr) as L1.
      pose proof (lookup_unique (map u t) c Hnd' Hin) as L2.
      rewrite Hn, L2 in L1. injection L1 as <-. exact Hold.
Qed.

Lemma after_rename_keeps_children_witness :
  exists t',
    after_rename 5 "t1" "A" false fixture = (Ok tt, t') /\
    Forall2 (fun r r' => name r' = name r /\ parent r' = parent r /\
                         bounds r' = bounds r) fixture t' /\
    forall c, In c t' -> parent c = Some "A" ->
      old_parent c = Some "A" /\
      (truthy (lft c) = true \/ truthy (rgt c) = true ->
       update_nsm "t2" c t' = (Ok c, t')).
Proof.
  apply (after_rename_keeps_children 5 "t1" "t2" "A" fixture).
  simpl. repeat constructor; simpl; intuition discriminate.
Defined.

(** X19. A rename with merge numbers the table as a rebuild does: when
    [rebuild_tree] completes on a table, [after_rename] with [merge]
    completes too and gives every row the bounds the rebuild gives it. *)
Theorem after_rename_merge_rebuilds fuel ct newdn t t1 :
  rebuild_tree fuel ct t = (Ok tt, t1) ->
  exists t2,
    after_rename fuel ct newdn true t = (Ok tt, t2) /\
    Forall2 (fun r1 r2 => name r2 = name r1 /\ parent r2 = parent r1 /\
                          bounds r2 = bounds r1) t1 t2.
Proof.
  intros H1.
  set (cond := fun r : Row => match parent r with
                              | Some p => (p =? newdn)%string
                              | None => false
                              end).
  set (u := upd cond (set_old_parent (Some newdn))).
  assert (Hu : forall r, name (u r) = name r /\ parent (u r) = parent r).
  { intros r. unfold u, upd. now destruct (cond r). }
  assert (Hub : forall r, bounds (u r) = bounds r).
  { intros r. unfold u, upd. now destruct (cond r). }
  pose proof (rebuild_tree_run ct fuel t) as R1.
  pose proof (rebuild_tree_run ct fuel (map u t)) as R2.
  rewrite (skel_map u t Hu) in R2.
  destruct (tree_writes fuel (skel t)) as [[ws c]|] eqn:E.
  - rewrite H1 in R1. injection R1 as ->.
    exists (apply_writes ct ws (map u t)). split.
    + unfold after_rename. rewrite bind_run. unfold execute at 1.
      fold cond. change (Sql.update cond (set_old_parent (Some newdn)) t) with (map u t).
      exact R2.
    + rewrite !apply_writes_rows, map_map. apply Forall2_map_both. intros r _.
      destruct (row_after_fields ct ws r) as (N1 & P1 & B1).
      destruct (row_after_fields ct ws (u r)) as (N2 & P2 & B2).
      destruct (Hu r) as [Hn Hp].
      rewrite N1, N2, P1, P2, B1, B2, Hn, Hp, Hub. repeat split.
  - destruct R1 as [t' R1]. rewrite H1 in R1. discriminate.
Qed.

Lemma after_rename_merge_rebuilds_witness :
  exists t1,
    rebuild_tree 5 "t1" forest_fixture = (Ok tt, t1) /\
    exists t2,
      after_rename 5 "t1" "R" true forest_fixture = (Ok tt, t2) /\
      Forall2 (fun r1 r2 => name r2 = name r1 /\ parent r2 = parent r1 /\
                            bounds r2 = bounds r1) t1 t2.
Proof.
  eexists. split; [reflexivity|].
  apply (after_rename_merge_rebuilds 5 "t1" "R" forest_fixture). reflexivity.
Defined.

(** ** A rebuild followed by the tree queries *)

Lemma rebuild_tree_skel fuel ct t t' :
  rebuild_tree fuel ct t = (Ok tt, t') -> skel t' = skel t.
Proof.
  intros H. pose proof (rebuild_tree_run ct fuel t) as R.
  destruct (tree_writes fuel (skel t)) as [[ws c]|].
  - rewrite H in R. injection R as ->. apply apply_writes_skel.
  - destruct R as [t0 R]. rewrite H in R. discriminate.
Qed.

(** X20. After a rebuild the descendants query follows the parent keys:
    when keys are unique and not empty and every row is connected to a
    root, [get_descendants_of] on the rebuilt table lists exactly the keys
    whose parent keys lead to the node, whatever the order asked for. *)
Theorem rebuild_then_descendants fuel ct t :
  NoDup (map name t) ->
  (forall r, In r t -> name r <> "") ->
  (List.length t <= fuel)%nat ->
  (forall r, In r t -> exists k, level (skel t) (name r) k) ->
  exists t',
    rebuild_tree fuel ct t = (Ok tt, t') /\
    forall a ra order_by ignore_permissions, lookup a t' = Some ra ->
      exists desc,
        get_descendants_of a order_by None ignore_permissions t' = (Ok desc, t') /\
        forall d, In d desc <-> descendant t' d a.
Proof.
  intros Hnd Hne Hfuel Hlev.
  destruct (rebuild_forest_facts fuel ct t Hnd Hne Hfuel Hlev) as (t' & H1 & H2 & _ & H4).
  exists t'. split; [exact H1|].
  assert (Hnd' : NoDup (map name t')).
  { rewrite <- skel_keys, (rebuild_tree_skel fuel ct t t' H1), skel_keys. exact Hnd. }
  intros a ra order_by ip Ha.
  eexists. split; [exact (get_descendants_of_run a order_by None ip t' ra Ha)|].
  simpl limit_rows. intros d. split.
  - intros Hin. apply in_map_iff in Hin. destruct Hin as (x & Hx & Hxin).
    apply (Permutation_in _ (sort_by_perm order_by _)) in Hxin.
    apply filter_In in Hxin. destruct Hxin as [Hxin Hsel].
    apply is_descendant_of_spec in Hsel.
    pose proof (lookup_unique t' x Hnd' Hxin) as Hu. rewrite Hx in Hu.
    exact (H4 a d ra x Ha Hu Hsel).
  - intros Hdesc.
    destruct (descendant_contained t' d a ra H2 Hdesc Ha) as (rd & Hrd & Hc).
    apply (in_query_names _ order_by t' d Hnd' rd Hrd).
    now apply is_descendant_of_spec.
Qed.

Lemma rebuild_then_descendants_witness :
  exists t',
    rebuild_tree 5 "t1" fixture = (Ok tt, t') /\
    forall a ra order_by ignore_permissions, lookup a t' = Some ra ->
      exists desc,
        get_descendants_of a order_by None ignore_permissions t' = (Ok desc, t') /\
        forall d, In d desc <-> descendant t' d a.
Proof.
  destruct fixture_connected as (Hnd & Hne & Hlev).
  apply (rebuild_then_descendants 5 "t1" fixture Hnd Hne); [simpl; lia | exact Hlev].
Defined.

Lemma descendant_inv t d n :
  descendant t d n ->
  exists rd m, lookup d t = Some rd /\ parent rd = Some m /\
               (m = n \/ descendant t m n).
Proof. intros H. destruct H as [d n rd Hl Hp | d m n rd Hl Hp Hd]; eauto 6. Qed.

Lemma null_leb_trans a b c :
  null_leb a b = true -> null_leb b c = true -> null_leb a c = true.
Proof.
  destruct a as [x|], b as [y|], c as [z|]; simpl; try easy.
  intros H1 H2. apply Z.leb_le in H1, H2. apply Z.leb_le. lia.
Qed.

(** A row whose [lft] is above that of every other row comes first under
    ORDER BY lft DESC. *)
Lemma sort_by_lft_desc_head (l : list Row) rp lp :
  In rp l -> lft rp = Some lp ->
  (forall x, In x l -> x = rp \/ exists lx, lft x = Some lx /\ lx < lp) ->
  exists tl, sort_by lft_desc l = rp :: tl.
Proof.
  intros Hin Hlp Hmax.
  pose proof (sort_by_perm lft_desc l) as Hperm.
  pose proof (sort_by_sorted lft_desc lft_desc_total l) as Hs.
  apply (Permutation_in _ (Permutation_sym Hperm)) in Hin.
  destruct (sort_by lft_desc l) as [|h tl]; [contradiction|].
  exists tl. f_equal.
  assert (Hh : In h l) by (apply (Permutation_in _ Hperm); now left).
  destruct (Hmax h Hh) as [E | (lx & Hlx & Hlt)]; [exact E|].
  destruct Hin as [E|Hin]; [exact E|]. exfalso.
  assert (T : forall a b c : Row,
              lft_desc a b = true -> lft_desc b c = true -> lft_desc a c = true).
  { intros a b c Hab Hbc. unfold lft_desc in *.
    exact (null_leb_trans _ _ _ Hbc Hab). }
  pose proof (Sorted_extends T Hs) as Hall.
  rewrite Forall_forall in Hall. specialize (Hall rp Hin).
  unfold lft_desc in Hall. rewrite Hlp, Hlx in Hall. simpl in Hall.
  apply Z.leb_le in Hall. lia.
Qed.

(** X21. After a rebuild the nearest ancestor is the parent: on the rebuilt
    table, [get_ancestors_of] with the default order and a limit of one
    answers with the parent key of the node, for every node that has a
    parent. *)
Theorem rebuild_then_parent_first fuel ct t :
  NoDup (map name t) ->
  (forall r, In r t -> name r <> "") ->
  (List.length t <= fuel)%nat ->
  (forall r, In r t -> exists k, level (skel t) (name r) k) ->
  exists t',
    rebuild_tree fuel ct t = (Ok tt, t') /\
    forall d rd p, lookup d t' = Some rd -> parent rd = Some p -> p <> "" ->
      get_ancestors_of d lft_desc (Some 1%nat) t' = (Ok [p], t').
Proof.
  intros Hnd Hne Hfuel Hlev.
  destruct (rebuild_forest_facts fuel ct t Hnd Hne Hfuel Hlev) as (t' & H1 & H2 & _ & H4).
  exists t'. split; [exact H1|].
  pose proof (rebuild_tree_skel fuel ct t t' H1) as Hsk.
  assert (Hkeys : map name t' = map name t) by now rewrite <- !skel_keys, Hsk.
  assert (Hnd' : NoDup (map name t')) by now rewrite Hkeys.
  intros d rd p Hd Hp Hpne.
  destruct (lookup_In _ _ _ Hd) as [Hdin Hdname].
  assert (Hrp : exists rp, lookup p t' = Some rp).
  { destruct (lookup p t') as [rp|] eqn:E; [eauto|]. exfalso.
    assert (Hk : In d (map name t)).
    { rewrite <- Hkeys, <- Hdname. now apply in_map. }
    apply in_map_iff in Hk. destruct Hk as (r0 & Hr0 & Hr0in).
    destruct (Hlev r0 Hr0in) as (k & Hk). rewrite Hr0, <- Hsk, <- Hdname in Hk.
    exact (orphan_has_no_level t' rd p Hnd' Hdin Hp Hpne E k Hk). }
  destruct Hrp as (rp & Hrp).
  destruct (lookup_In _ _ _ Hrp) as [Hrpin Hrpname].
  pose proof (H2 d rd p rp Hd Hp Hrp) as Hc.
  assert (Hpl : exists pl, lft rp = Some pl).
  { destruct Hc as (pl & _ & _ & _ & Hpl & _). eauto. }
  destruct Hpl as (pl & Hpl).
  rewrite (get_ancestors_of_run d lft_desc (Some 1%nat) t' rd Hd).
  destruct (sort_by_lft_desc_head (filter (is_ancestor_of (bounds rd)) t') rp pl)
    as [tl ->].
  - apply filter_In. split; [exact Hrpin | now apply is_ancestor_of_spec].
  - exact Hpl.
  - intros x Hx. apply filter_In in Hx. destruct Hx as [Hxin Hsel].
    apply is_ancestor_of_spec in Hsel.
    pose proof (lookup_unique t' x Hnd' Hxin) as Hux.
    pose proof (H4 (name x) d x rd Hux Hd Hsel) as Hdesc.
    destruct (descendant_inv t' d (name x) Hdesc) as (rd0 & m & Hd0 & Hp0 & Hm).
    rewrite Hd in Hd0. injection Hd0 as <-. rewrite Hp in Hp0. injection Hp0 as <-.
    destruct Hm as [Hm|Hm].
    + left. rewrite Hm, Hux in Hrp. now injection Hrp.
    + right.
      destruct (descendant_contained t' p (name x) x H2 Hm Hux) as (rp' & Hrp' & Hc').
      rewrite Hrp in Hrp'. injection Hrp' as <-.
      destruct Hc' as (xl & _ & pl' & _ & Hxl & _ & Hpl' & _ & Hlt & _).
      exists xl. split; [exact Hxl|]. rewrite Hpl in Hpl'. injection Hpl' as <-.
      exact Hlt.
  - simpl. now rewrite Hrpname.
Qed.

Lemma rebuild_then_parent_first_witness :
  exists t',
    rebuild_tree 5 "t1" fixture = (Ok tt, t') /\
    forall d rd p, lookup d t' = Some rd -> parent rd = Some p -> p <> "" ->
      get_ancestors_of d lft_desc (Some 1%nat) t' = (Ok [p], t').
Proof.
  destruct fixture_connected as (Hnd & Hne & Hlev).
  apply (rebuild_then_parent_first 5 "t1" fixture Hnd Hne); [simpl; lia | exact Hlev].
Defined.

(** ** Inserting a leaf and trashing it again *)

Lemma Forall2_map_l_inv {A B C} (R : B -> C -> Prop) (g : A -> B) l l' :
  Forall2 R (map g l) l' -> Forall2 (fun x y => R (g x) y) l l'.
Proof.
  revert l'. induction l as [|x l IH]; intros l' H; simpl in H.
  - inversion H. constructor.
  - inversion H as [|? y ? l2 Hxy Hrest]; subst. constructor; [exact Hxy | now apply IH].
Qed.

Lemma Forall2_impl_in {A B} (R R' : A -> B -> Prop) l l' :
  (forall x y, In x l -> R x y -> R' x y) -> Forall2 R l l' -> Forall2 R' l l'.
Proof.
  intros H F. induction F as [|x y l l' Hxy F IH]; constructor.
  - apply H; [now left | exact Hxy].
  - apply IH. intros a b Ha. apply H. now right.
Qed.

Lemma widened_some k v : exists v', widened k (Some v) = Some v'.
Proof.
  unfold widened, Sql.ge, Sql.cmp, Sql.add. simpl. destruct (v >=? k)%Z; eauto.
Qed.

(** Closing the gap [(k, k + 1)] undoes the widening at [k]. *)
Lemma closed_gap_widened k l h l' h' :
  l < h ->
  widened k (Some l) = Some l' -> widened k (Some h) = Some h' ->
  l <= l' /\ l' < h' /\
  ~ (k <= l' /\ h' <= k + 1) /\ closed_gap k (k + 1) l' h' = (l, h).
Proof.
  intros Hlh Hl Hh. unfold widened, Sql.ge, Sql.cmp, Sql.add in Hl, Hh. simpl in Hl, Hh.
  destruct (Z.geb_spec l k), (Z.geb_spec h k); injection Hl as <-; injection Hh as <-.
  all: split; [lia|]; split; [lia|]; split; [lia|].
  all: unfold closed_gap; zcases; simpl; try lia; f_equal; lia.
Qed.

(** X22. Inserting a leaf and trashing it again restores the numbering: for
    a class that declares the parent column, a document without bounds and
    without children is saved under a parent that has a row, then handed to
    [on_trash]; both steps complete, and every other row of the table ends
    with the bounds it had at the start when those were valid. *)
Theorem insert_then_trash_restores ct ct' (cls : NestedSet) (doc : Doc) p t rp pr
  on_rollback :
  declares_parent_column cls ->
  NoDup (map name t) ->
  lookup (name doc) t = Some doc ->
  lft doc = None -> rgt doc = None ->
  parent doc = Some p -> p <> "" ->
  lookup p t = Some rp -> rgt rp = Some pr ->
  (forall r, In r t -> name r <> name doc -> valid_row r) ->
  (forall r, In r t -> parent r <> Some (name doc)) ->
  exists d1 t1 d2 t2,
    update_nsm ct doc t = (Ok d1, t1) /\
    bounds d1 = (Some pr, Some (pr + 1)) /\
    on_trash ct' cls d1 false on_rollback t1 = Some (Done d2, t2) /\
    Forall2 (fun r r' => name r' = name r /\ parent r' = parent r /\
                         (name r <> name doc -> bounds r' = bounds r)) t t2.
Proof.
  intros Hcls Hnd Hdoc Hl Hr Hp Hpne Hrp Hpr Hvalid Hleaf.
  destruct (lookup_In _ _ _ Hdoc) as [Hdoc_in _].
  destruct (lookup_In _ _ _ Hrp) as [Hrp_in Hrp_name].
  assert (Hpd : p <> name doc).
  { intros E. rewrite E, Hdoc in Hrp. injection Hrp as <-. congruence. }
  assert (Hpr0 : 0 < pr).
  { destruct (Hvalid rp Hrp_in) as (l & h & _ & Hh & H); [congruence|].
    rewrite Hpr in Hh. injection Hh as <-. lia. }
  (* the insertion *)
  assert (Htarget : add_node_target doc p t = (Ok pr, t)).
  { rewrite add_node_target_outcome.
    destruct (String.eqb_spec p ""); [contradiction|]. rewrite Hrp.
    destruct (existsb _ t) eqn:Ex.
    - exfalso. apply existsb_exists in Ex. destruct Ex as (x & Hin & Hx).
      apply andb_prop in Hx. destruct Hx as [Hx1 Hx2].
      apply String.eqb_eq in Hx1.
      pose proof (lookup_unique t x Hnd Hin) as Hu. rewrite Hx1, Hdoc in Hu.
      injection Hu as <-. unfold encloses, Sql.le, Sql.cmp in Hx2.
      rewrite Hl in Hx2. discriminate.
    - rewrite Hpr. simpl. destruct (Z.eqb_spec pr 0); [lia | reflexivity]. }
  set (f := place_row ct (name doc) pr).
  set (u := upd (name_is (name doc)) (set_old_parent (Some p))).
  assert (Hf : forall r, name (f r) = name r /\ parent (f r) = parent r).
  { intros r. destruct (place_row_fields ct (name doc) pr r) as (H1 & H2 & _). now split. }
  assert (Hu : forall r, name (u r) = name r /\ parent (u r) = parent r /\
                         bounds (u r) = bounds r).
  { intros r. unfold u, upd. now destruct (name_is (name doc) r). }
  assert (Hg : forall r, name (u (f r)) = name r /\ parent (u (f r)) = parent r).
  { intros r. destruct (Hu (f r)) as (-> & -> & _). apply Hf. }
  set (t1 := map u (map f t)).
  set (d1 := u (f doc)).
  assert (Hlook : lookup (name doc) t1 = Some d1).
  { unfold t1. rewrite lookup_map by (intros r; apply Hu).
    rewrite lookup_map by (intros r; apply Hf). now rewrite Hdoc. }
  assert (Hsave : update_nsm ct doc t = (Ok d1, t1)).
  { unfold update_nsm. rewrite Hl, Hr. simpl truthy. simpl negb. simpl andb. cbv iota.
    rewrite Hp. simpl or_empty.
    rewrite bind_run, bind_run, (update_add_node_run ct doc p t pr t Htarget).
    unfold ret at 1. rewrite nsm_finish_run. cbv zeta. rewrite Hp. simpl or_empty.
    change (Sql.update (name_is (name doc)) (set_old_parent (Some p))
              (map (place_row ct (name doc) pr) t)) with t1.
    now rewrite Hlook. }
  assert (Hd1 : name d1 = name doc /\ parent d1 = Some p /\ old_parent d1 = Some p /\
                lft d1 = Some pr /\ rgt d1 = Some (pr + 1)).
  { destruct (place_row_fields ct (name doc) pr doc) as (H1 & H2 & _ & H4).
    unfold name_is in H4. rewrite String.eqb_refl in H4.
    unfold bounds in H4. injection H4 as H4 H5.
    unfold d1, u, upd, name_is. fold f. fold f in H1, H2, H4, H5.
    rewrite H1, String.eqb_refl. simpl. rewrite H1, H2, H4, H5, Hp. repeat split. }
  destruct Hd1 as (Hn1 & Hp1 & Ho1 & Hl1 & Hr1).
  (* the table after the insertion *)
  assert (Hb : forall r, In r t -> name r <> name doc ->
                 forall l h, lft r = Some l -> rgt r = Some h ->
                 lft (u (f r)) = widened pr (Some l) /\
                 rgt (u (f r)) = widened pr (Some h)).
  { intros r Hin Hne l h Hrl Hrh.
    destruct (Hu (f r)) as (_ & _ & Hbu).
    destruct (place_row_fields ct (name doc) pr r) as (_ & _ & _ & Hbf).
    fold f in Hbf. unfold name_is in Hbf.
    destruct (String.eqb_spec (name r) (name doc)); [contradiction|].
    rewrite Hbf, Hrl, Hrh in Hbu. unfold bounds in Hbu. now injection Hbu. }
  assert (Hv1 : valid_table t1).
  { intros r1 Hin1. unfold t1 in Hin1. rewrite map_map in Hin1.
    apply in_map_iff in Hin1. destruct Hin1 as (r & <- & Hin).
    destruct (String.eqb_spec (name r) (name doc)) as [E|E].
    - pose proof (lookup_unique t r Hnd Hin) as Hur. rewrite E, Hdoc in Hur.
      injection Hur as <-. fold d1. exists pr, (pr + 1). repeat split; try assumption; lia.
    - destruct (Hvalid r Hin E) as (l & h & Hrl & Hrh & H).
      destruct (Hb r Hin E l h Hrl Hrh) as [Hl' Hh'].
      destruct (widened_some pr l) as [l' Hwl]. destruct (widened_some pr h) as [h' Hwh].
      rewrite Hwl in Hl'. rewrite Hwh in Hh'.
      destruct (closed_gap_widened pr l h l' h' (proj2 H) Hwl Hwh) as (H1 & H2 & _).
      exists l', h'. repeat split; try assumption; lia. }
  (* the removal *)
  assert (Hleaf1 : forall r, In r t1 -> parent r <> Some (name d1)).
  { intros r1 Hin1. unfold t1 in Hin1. rewrite map_map in Hin1.
    apply in_map_iff in Hin1. destruct Hin1 as (r & <- & Hin).
    destruct (Hg r) as [_ ->]. rewrite Hn1. now apply Hleaf. }
  assert (Hold1 : old_parent d1 <> Some "").
  { rewrite Ho1. intros E. injection E as E. contradiction. }
  rewrite <- Hn1 in Hlook.
  destruct (trash_detach_leaf_run ct' d1 on_rollback t1 d1 pr (pr + 1)
              Hv1 Hlook Hl1 Hr1 Hl1 Hr1 Hleaf1 Hold1)
    as (d2 & t2 & Htrash & _ & _ & Hrows).
  exists d1, t1, d2, t2.
  split; [exact Hsave|]. split; [unfold bounds; now rewrite Hl1, Hr1|].
  split.
  { rewrite (on_trash_declared ct' cls d1 false on_rollback t1 Hcls), Hp1.
    rewrite (truthy_str_nonempty p Hpne). simpl. now rewrite Htrash. }
  unfold t1 in Hrows. rewrite map_map in Hrows. apply Forall2_map_l_inv in Hrows.
  refine (Forall2_impl_in _ _ _ _ _ Hrows).
  intros r r' Hin (Hn & Hpa & Hbnd).
  destruct (Hg r) as [Hgn Hgp]. rewrite Hgn in Hn. rewrite Hgp in Hpa.
  split; [exact Hn|]. split; [exact Hpa|].
  intros Hne. destruct (Hvalid r Hin Hne) as (l & h & Hrl & Hrh & Hlh).
  destruct (Hb r Hin Hne l h Hrl Hrh) as [Hl' Hh'].
  destruct (widened_some pr l) as [l' Hwl]. destruct (widened_some pr h) as [h' Hwh].
  rewrite Hwl in Hl'. rewrite Hwh in Hh'.
  destruct (closed_gap_widened pr l h l' h' (proj2 Hlh) Hwl Hwh) as (_ & _ & Hout & Hcg).
  rewrite (Hbnd l' h' Hl' Hh' Hout), Hcg. unfold bounds. simpl. now rewrite Hrl, Hrh.
Qed.

Lemma insert_then_trash_restores_witness :
  let t := fixture ++ [new_row "C" "B"] in
  exists d1 t1 d2 t2,
    update_nsm "t1" (new_row "C" "B") t = (Ok d1, t1) /\
    bounds d1 = (Some 9, Some (9 + 1)) /\
    on_trash "t2" declared_class d1 false false t1 = Some (Done d2, t2) /\
    Forall2 (fun r r' => name r' = name r /\ parent r' = parent r /\
                         (name r <> name (new_row "C" "B") -> bounds r' = bounds r)) t t2.
Proof.
  intros t.
  apply (insert_then_trash_restores "t1" "t2" declared_class (new_row "C" "B") "B" t
           (row "B" "R" 6 9) 9 false);
    try reflexivity.
  - split; [reflexivity | discriminate].
  - simpl. repeat constructor; simpl; intuition discriminate.
  - discriminate.
  - intros r Hin Hne. apply (valid_table_b_sound fixture); [reflexivity|].
    unfold t in Hin. apply in_app_or in Hin. destruct Hin as [Hin|[<-|[]]]; [exact Hin|].
    now contradiction Hne.
  - intros r Hin. unfold t in Hin. simpl in Hin.
    repeat (destruct Hin as [<-|Hin]; [discriminate|]). contradiction.
Defined.

Example insert_then_trash_fixture :
  let t := fixture ++ [new_row "C" "B"] in
  bounds_of (snd (update_nsm "t1" (new_row "C" "B") t))
  = [("R", Some 1, Some 12); ("A", Some 2, Some 5); ("A1", Some 3, Some 4);
     ("B", Some 6, Some 11); ("B1", Some 7, Some 8); ("C", Some 9, Some 10)] /\
  (forall d1 t1, update_nsm "t1" (new_row "C" "B") t = (Ok d1, t1) ->
     option_map (fun out => bounds_of (snd out))
       (on_trash "t2" declared_class d1 false false t1)
     = Some [("R", Some 1, Some 10); ("A", Some 2, Some 5); ("A1", Some 3, Some 4);
             ("B", Some 6, Some 9); ("B1", Some 7, Some 8); ("C", Some 11, Some 12)]).
Proof.
  split; [reflexivity|]. intros d1 t1 H. vm_compute in H. injection H as <- <-. reflexivity.
Qed.

(** ** Moving under a new parent *)

Lemma shift_left_keeps_valid ct (doc : Doc) x a b :
  lft doc = Some a -> rgt doc = Some b -> 0 < a -> a <= b ->
  valid_row x -> valid_row (shift_left ct doc (b - a + 1) x).
Proof.
  intros Ha Hb Ha0 Hab (l & h & Hl & Hh & Hv).
  unfold valid_row, shift_left, upd, Sql.lt, Sql.gt, Sql.cmp, Sql.sub.
  rewrite Ha, Hb, Hl. zcases; rewrite ?Hl, ?Hh; zcases; try lia;
    rewrite ?Hl, ?Hh; simpl; eexists; eexists;
    (split; [reflexivity | split; [reflexivity | lia]]).
Qed.

Lemma shift_right_parent ct p pl pr diff x :
  name x = p -> lft x = Some pl -> rgt x = Some pr -> pl < pr -> 0 <= diff ->
  bounds (shift_right ct p (Some pl, Some pr) diff x) = (Some pl, Some (pr + diff)).
Proof.
  intros Hn Hl Hr Hlt Hd.
  unfold shift_right, upd, name_is, bounds, Sql.lt, Sql.gt, Sql.cmp, Sql.add.
  rewrite Hn, String.eqb_refl. simpl. rewrite Hl.
  zcases; try lia. rewrite Hl. zcases; try lia. simpl. rewrite ?Hl, ?Hr. reflexivity.
Qed.

(** X23. Moving a node under a new parent puts it last inside that parent:
    in a table of valid bounds and unique keys, for a parent whose row is
    not within the node's interval [(a, b)], the move completes, the node
    keeps its width and gets the bounds [(k, k + b - a)], and the parent's
    right bound becomes [k + b - a + 1], so the parent's row strictly
    contains the node's. *)
Theorem move_under_parent_lands_last ct (doc : Doc) t rd a b p rp :
  valid_table t -> NoDup (map name t) ->
  lookup (name doc) t = Some rd ->
  lft rd = Some a -> rgt rd = Some b ->
  lft doc = Some a -> rgt doc = Some b ->
  parent doc = Some p -> p <> "" ->
  lookup p t = Some rp -> encloses (lft rp) (rgt rp) rd = false ->
  exists t' rd' rp' k,
    update_move_node ct doc t = (Ok tt, t') /\
    lookup (name doc) t' = Some rd' /\ lookup p t' = Some rp' /\
    bounds rd' = (Some k, Some (k + (b - a))) /\
    rgt rp' = Some (k + (b - a) + 1) /\
    contains_strictly rp' rd'.
Proof.
  intros Hv Hnd Hrd Hra Hrb Ha Hb Ep Hne Hrp Henc.
  destruct (lookup_In _ _ _ Hrd) as [Hrd_in Hrd_name].
  destruct (lookup_In _ _ _ Hrp) as [Hrp_in Hrp_name].
  assert (Hab : 0 < a < b).
  { destruct (Hv rd Hrd_in) as (l & h & Hl & Hh & H). congruence. }
  set (diff := b - a + 1).
  pose proof (Hv rp Hrp_in) as Hrp_valid.
  assert (Hrp_other : dark_side ct doc rp = rp).
  { destruct Hrp_valid as (pl & pr & Hpl & Hpr & Hp).
    apply (dark_side_other ct doc rp a b pl pr Ha Hb Hpl Hpr).
    intros [H1 H2]. unfold encloses, Sql.le, Sql.ge, Sql.cmp in Henc.
    rewrite Hra, Hrb, Hpl, Hpr in Henc.
    apply andb_false_iff in Henc. destruct Henc as [H|H].
    - apply Z.leb_gt in H. lia.
    - revert H. zcases; [discriminate | lia]. }
  destruct (shift_left_keeps_valid ct doc rp a b Ha Hb (proj1 Hab) ltac:(lia) Hrp_valid)
    as (pl' & pr' & Hnpl & Hnpr & Hnp). fold diff in Hnpl, Hnpr.
  assert (Hrp2 : lookup p (map (shift_left ct doc diff) (map (dark_side ct doc) t))
                 = Some (shift_left ct doc diff rp)).
  { rewrite lookup_map by (intros r; apply shift_left_name).
    rewrite lookup_map by (intros r; apply dark_side_name).
    rewrite Hrp. simpl. now rewrite Hrp_other. }
  set (g := fun r => bring_back ct (pr' - a)
                       (shift_right ct p (bounds (shift_left ct doc diff rp)) diff
                          (shift_left ct doc diff (dark_side ct doc r)))).
  assert (Hrun : update_move_node ct doc t = (Ok tt, map g t)).
  { unfold update_move_node. rewrite bind_run.
    rewrite (move_node_check_passes doc t rd p rp Hnd Hrd Ep Hne Hrp Henc).
    rewrite bind_run, move_node_detach_run. unfold int_of. rewrite Ha, Hb.
    rewrite bind_run. unfold ret at 1. rewrite bind_run. unfold ret at 1.
    rewrite bind_run, move_node_compact_run. fold diff.
    rewrite bind_run.
    rewrite (move_node_make_room_parent ct doc diff _ p _ pr' a Ep Hne Hrp2 Hnpr Ha).
    rewrite move_node_reattach_run, !map_map. reflexivity. }
  assert (Hg : forall r, name (g r) = name r).
  { intros r. unfold g.
    destruct (bring_back_name ct (pr' - a)
                (shift_right ct p (bounds (shift_left ct doc diff rp)) diff
                   (shift_left ct doc diff (dark_side ct doc r)))) as [-> _].
    destruct (shift_right_name ct p (bounds (shift_left ct doc diff rp)) diff
                (shift_left ct doc diff (dark_side ct doc r))) as [-> _].
    destruct (shift_left_name ct doc diff (dark_side ct doc r)) as [-> _].
    apply dark_side_name. }
  assert (Hnp_eq : bounds (shift_left ct doc diff rp) = (Some pl', Some pr')).
  { unfold bounds. now rewrite Hnpl, Hnpr. }
  assert (Hpd : name rd <> p).
  { intros E. rewrite Hrd_name in E. rewrite <- E, Hrd in Hrp. injection Hrp as <-.
    unfold encloses, Sql.le, Sql.ge, Sql.cmp in Henc. rewrite Hra, Hrb in Henc.
    revert Henc. zcases; try lia; discriminate. }
  (* the node *)
  assert (Hnode : bounds (g rd) = (Some (a + (pr' - a)), Some (b + (pr' - a)))).
  { unfold g.
    apply (moved_row_translated ct doc _ _ _ a b rd a b Ha Hb (proj1 Hab)
             (Hv rd Hrd_in) Hra Hrb (Z.le_refl a) (Z.le_refl b)).
    - intros x l' h' _ Hl' Hh' H1 H2.
      apply (shift_left_dark ct doc diff x a b l' h'); try assumption. lia.
    - intros x l' h' Hx Hl' Hh' H3 H4.
      apply (shift_right_dark ct p _ diff x l' h'); try assumption.
      + now rewrite Hx.
      + rewrite Hnp_eq. simpl. intros k Hk. injection Hk as <-. lia. }
  (* the new parent *)
  assert (Hparent : bounds (g rp) = (Some pl', Some (pr' + diff))).
  { unfold g. rewrite Hrp_other, Hnp_eq.
    pose proof (shift_right_parent ct p pl' pr' diff (shift_left ct doc diff rp)) as H.
    destruct (shift_left_name ct doc diff rp) as [Hn _].
    rewrite Hn in H. specialize (H Hrp_name Hnpl Hnpr ltac:(lia) ltac:(unfold diff; lia)).
    unfold bounds in H. injection H as H1 H2.
    rewrite (bring_back_positive ct (pr' - a) _ pl' H1) by lia.
    unfold bounds. now rewrite H1, H2. }
  exists (map g t), (g rd), (g rp), pr'.
  unfold bounds in Hnode, Hparent. injection Hnode as Hn1 Hn2. injection Hparent as Hp1 Hp2.
  split; [exact Hrun|]. split; [|split; [|split; [|split]]].
  - rewrite lookup_map by exact Hg. now rewrite Hrd.
  - rewrite lookup_map by exact Hg. now rewrite Hrp.
  - unfold bounds. rewrite Hn1, Hn2. f_equal; f_equal; lia.
  - rewrite Hp2. f_equal. unfold diff. lia.
  - exists pl', (pr' + diff), (a + (pr' - a)), (b + (pr' - a)).
    repeat split; try assumption; unfold diff; lia.
Qed.

Lemma move_under_parent_lands_last_witness :
  let doc := mkRow "A" (Some "B") (Some "R") (Some 2) (Some 5) "t0" in
  exists t' rd' rp' k,
    update_move_node "t1" doc fixture = (Ok tt, t') /\
    lookup "A" t' = Some rd' /\ lookup "B" t' = Some rp' /\
    bounds rd' = (Some k, Some (k + (5 - 2))) /\
    rgt rp' = Some (k + (5 - 2) + 1) /\
    contains_strictly rp' rd'.
Proof.
  intros doc.
  apply (move_under_parent_lands_last "t1" doc fixture (row "A" "R" 2 5) 2 5 "B"
           (row "B" "R" 6 9)); try reflexivity.
  - apply valid_table_b_sound. reflexivity.
  - simpl. repeat constructor; simpl; intuition discriminate.
  - discriminate.
Defined.

(** ** Inserting a node and asking for it *)

(** X24. An inserted node is found by the tree queries: after
    [update_add_node] has placed a row without bounds under a parent with
    valid bounds, in a table of unique keys, [get_descendants_of] the parent
    lists the node and [get_ancestors_of] the node lists the parent. *)
Theorem insert_then_found ct (doc : Doc) p t rp pl pr rdoc
  order_by order_by' ignore_permissions :
  NoDup (map name t) ->
  p <> "" ->
  lookup p t = Some rp -> lft rp = Some pl -> rgt rp = Some pr -> 0 < pl < pr ->
  lookup (name doc) t = Some rdoc -> lft rdoc = None ->
  exists t' desc anc,
    update_add_node ct doc p t = (Ok pr, t') /\
    get_descendants_of p order_by None ignore_permissions t' = (Ok desc, t') /\
    In (name doc) desc /\
    get_ancestors_of (name doc) order_by' None t' = (Ok anc, t') /\
    In p anc.
Proof.
  intros Hnd Hpne Hrp Hpl Hpr Hv Hdoc Hnull.
  destruct (lookup_In _ _ _ Hrp) as [Hrp_in Hrp_name].
  destruct (lookup_In _ _ _ Hdoc) as [Hdoc_in Hdoc_name].
  assert (Htarget : add_node_target doc p t = (Ok pr, t)).
  { rewrite add_node_target_outcome.
    destruct (String.eqb_spec p ""); [contradiction|]. rewrite Hrp.
    destruct (existsb _ t) eqn:Ex.
    - exfalso. apply existsb_exists in Ex. destruct Ex as (x & Hin & Hx).
      apply andb_prop in Hx. destruct Hx as [Hx1 Hx2].
      apply String.eqb_eq in Hx1.
      pose proof (lookup_unique t x Hnd Hin) as Hu. rewrite Hx1, Hdoc in Hu.
      injection Hu as <-. unfold encloses, Sql.le, Sql.cmp in Hx2.
      rewrite Hnull in Hx2. discriminate.
    - rewrite Hpr. simpl. destruct (Z.eqb_spec pr 0); [lia | reflexivity]. }
  set (f := place_row ct (name doc) pr).
  assert (Hf : forall r, name (f r) = name r).
  { intros r. apply (place_row_fields ct (name doc) pr r). }
  assert (Hnd' : NoDup (map name (map f t))).
  { rewrite map_map. erewrite map_ext; [exact Hnd | exact Hf]. }
  assert (Hp' : lookup p (map f t) = Some (f rp)).
  { rewrite lookup_map by exact Hf. now rewrite Hrp. }
  assert (Hd' : lookup (name doc) (map f t) = Some (f rdoc)).
  { rewrite lookup_map by exact Hf. now rewrite Hdoc. }
  assert (Hc : contains_strictly (f rp) (f rdoc)).
  { destruct (place_row_fields ct (name doc) pr rp) as (_ & _ & _ & Hbp).
    destruct (place_row_fields ct (name doc) pr rdoc) as (_ & _ & _ & Hbd).
    fold f in Hbp, Hbd. unfold name_is in Hbp, Hbd.
    rewrite Hdoc_name, String.eqb_refl in Hbd.
    destruct (String.eqb_spec (name rp) (name doc)) as [E|_].
    { exfalso. rewrite Hrp_name in E. rewrite E, Hdoc in Hrp. injection Hrp as ->.
      congruence. }
    rewrite Hpl, Hpr, (widened_lt pr pl), (widened_ge pr pr) in Hbp by lia.
    unfold bounds in Hbp, Hbd. injection Hbp as Hp1 Hp2. injection Hbd as Hd1 Hd2.
    exists pl, (pr + 2), pr, (pr + 1). repeat split; try assumption; lia. }
  eexists. eexists. eexists.
  split; [exact (update_add_node_run ct doc p t pr t Htarget)|]. fold f.
  split; [exact (get_descendants_of_run p order_by None ignore_permissions _ _ Hp')|].
  split.
  - simpl limit_rows. apply (in_query_names _ order_by _ (name doc) Hnd' _ Hd').
    now apply is_descendant_of_spec.
  - split; [exact (get_ancestors_of_run (name doc) order_by' None _ _ Hd')|].
    simpl limit_rows. apply (in_query_names _ order_by' _ p Hnd' _ Hp').
    now apply is_ancestor_of_spec.
Qed.

Lemma insert_then_found_witness :
  exists t' desc anc,
    update_add_node "t1" (new_row "C" "B") "B" (fixture ++ [new_row "C" "B"]) = (Ok 9, t') /\
    get_descendants_of "B" lft_desc None false t' = (Ok desc, t') /\
    In "C" desc /\
    get_ancestors_of "C" lft_desc None t' = (Ok anc, t') /\
    In "B" anc.
Proof.
  apply (insert_then_found "t1" (new_row "C" "B") "B" (fixture ++ [new_row "C" "B"])
           (row "B" "R" 6 9) 6 9 (new_row "C" "B") lft_desc lft_desc false);
    try reflexivity.
  - simpl. repeat constructor; simpl; intuition discriminate.
  - discriminate.
  - lia.
Defined.

(** ** Trashing a document that has no row *)

Lemma lookup_none_names n t :
  lookup n t = None -> forall r, In r t -> name_is n r = false.
Proof. intros H r Hin. exact (find_none _ _ H r Hin). Qed.

(** X25. The rollback flag decides what [on_trash] does when the document
    has no row: for a class that declares the parent column and a document
    without bounds and without children that passes the root check, the
    save ends in DoesNotExistError at the reload;
    with [on_rollback] set the error is swallowed and [on_trash] completes,
    otherwise it is raised again.  In both cases the table has been widened
    at the next root position. *)
Theorem on_trash_missing_row ct (cls : NestedSet) (doc : Doc) allow_root_deletion t :
  declares_parent_column cls ->
  lookup (name doc) t = None ->
  lft doc = None -> rgt doc = None ->
  (exists p, parent doc = Some p /\ p <> "") \/ allow_root_deletion = true ->
  (forall r, In r t -> parent r <> Some (name doc)) ->
  let t' := map (widen_row ct (or_one (Some (next_root_right t)))) t in
  (exists d, on_trash ct cls doc allow_root_deletion true t = Some (Done d, t')) /\
  on_trash ct cls doc allow_root_deletion false t
  = Some (Thrown (Engine DoesNotExistError), t').
Proof.
  intros Hcls Hnone Hl Hr Hok Hleaf t'.
  set (k := or_one (Some (next_root_right t))) in *.
  set (doc1 := set_parent (Some "") doc).
  assert (Htarget : add_node_target doc1 "" t = (Ok k, t)).
  { rewrite add_node_target_outcome. reflexivity. }
  pose proof (lookup_none_names _ _ Hnone) as Hnames.
  assert (Hplace : map (place_row ct (name doc1) k) t = t').
  { unfold t'. apply map_ext_in. intros r Hin. unfold place_row.
    destruct (widen_row_fields ct k r) as (Hn & _).
    unfold name_is. rewrite Hn. change (name doc1) with (name doc).
    specialize (Hnames r Hin). unfold name_is in Hnames. now rewrite Hnames. }
  assert (Hw : forall r, name (widen_row ct k r) = name r).
  { intros r. apply (widen_row_fields ct k r). }
  assert (Hfix : Sql.update (name_is (name doc)) (set_old_parent (Some "")) t' = t').
  { apply update_fixed. intros r Hin Hn. exfalso. unfold t' in Hin.
    apply in_map_iff in Hin. destruct Hin as (x & <- & Hx).
    unfold name_is in Hn. rewrite Hw in Hn.
    specialize (Hnames x Hx). unfold name_is in Hnames. congruence. }
  assert (Hnone' : lookup (name doc) t' = None).
  { unfold t'. rewrite lookup_map by exact Hw. now rewrite Hnone. }
  assert (Hsave : update_nsm ct doc1 t = (Raise DoesNotExistError, t')).
  { unfold update_nsm. change (lft doc1) with (lft doc). change (rgt doc1) with (rgt doc).
    rewrite Hl, Hr. simpl truthy. simpl negb. simpl andb. cbv iota.
    change (parent doc1) with (Some ""). simpl or_empty.
    rewrite bind_run, bind_run, (update_add_node_run ct doc1 "" t k t Htarget), Hplace.
    unfold ret at 1. rewrite nsm_finish_run. cbv zeta.
    change (name doc1) with (name doc). change (parent doc1) with (Some "").
    simpl or_empty. now rewrite Hfix, Hnone'. }
  assert (E : negb (truthy_str (parent doc)) && negb allow_root_deletion = false).
  { destruct Hok as [(p & -> & Hp) | ->]; [|apply andb_false_r].
    now rewrite (truthy_str_nonempty p Hp). }
  split.
  - eexists. rewrite (on_trash_declared ct cls doc allow_root_deletion true t Hcls), E.
    unfold trash_detach, validate_if_child_exists.
    rewrite (children_of_none (name doc) t Hleaf).
    change (0 <? List.length (@nil string))%nat with false. cbv iota zeta.
    fold doc1. rewrite Hsave. reflexivity.
  - rewrite (on_trash_declared ct cls doc allow_root_deletion false t Hcls), E.
    unfold trash_detach, validate_if_child_exists.
    rewrite (children_of_none (name doc) t Hleaf).
    change (0 <? List.length (@nil string))%nat with false. cbv iota zeta.
    fold doc1. rewrite Hsave. reflexivity.
Qed.

Lemma on_trash_missing_row_witness :
  let t' := map (widen_row "t1" (or_one (Some (next_root_right fixture)))) fixture in
  (exists d, on_trash "t1" declared_class (new_row "C" "B") false true fixture
             = Some (Done d, t')) /\
  on_trash "t1" declared_class (new_row "C" "B") false false fixture
  = Some (Thrown (Engine DoesNotExistError), t').
Proof.
  apply (on_trash_missing_row "t1" declared_class (new_row "C" "B") false fixture);
    try reflexivity.
  - split; [reflexivity | discriminate].
  - left. exists "B". split; [reflexivity | discriminate].
  - intros r Hin. simpl in Hin.
    repeat (destruct Hin as [<-|Hin]; [discriminate|]). contradiction.
Defined.
